(** * Event emitter client: binary event codec, payload lexer, ingestion
      loop and occurrence ranking.

    A shallow embedding of the Go packages [protocol] (uuid.go, event.go,
    payload_lexer.go, payload_parser.go) and [main] (client.go, findings.go),
    with the theorems that relate the code to its specification. *)

From Stdlib Require Import ZArith Lia List Bool String Ascii.
From Stdlib Require Import Strings.Byte DecimalString.
From Stdlib Require Sorting.Sorted.
From stdpp Require Import base option list gmap strings sorting.

Local Open Scope Z_scope.

(** ** Bytes and machine integers

    Go's [byte] is [Byte.byte]; [uint16], [uint32] and [int] values are
    integers in [Z], with the truncating conversions written out. *)

Definition Z_of_byte (b : byte) : Z := Z.of_N (Byte.to_N b).

(** [byte(v)]: conversion of an unsigned integer to [uint8] keeps the low
    eight bits. *)
Definition byte_of_Z (v : Z) : byte :=
  match Byte.of_N (Z.to_N (v mod 256)) with
  | Some b => b
  | None => x00
  end.

#[export] Instance byte_eq_decision : EqDecision byte := Byte.byte_eq_dec.

Definition uint16_of_Z (v : Z) : Z := v mod 65536.

Definition is_uint8 (v : Z) : Prop := 0 <= v < 256.
Definition is_uint16 (v : Z) : Prop := 0 <= v < 65536.
Definition is_uint32 (v : Z) : Prop := 0 <= v < 4294967296.

(** The conversions between a byte slice and a string. *)
Definition string_of_bytes (b : list byte) : string := string_of_list_byte b.
Definition bytes_of_string (s : string) : list byte := list_byte_of_string s.

(** ** encoding/binary, big endian *)

Module BigEndian.

Definition AppendUint16 (b : list byte) (v : Z) : list byte :=
  b ++ [byte_of_Z (Z.shiftr v 8); byte_of_Z v].

Definition AppendUint32 (b : list byte) (v : Z) : list byte :=
  b ++ [byte_of_Z (Z.shiftr v 24); byte_of_Z (Z.shiftr v 16);
        byte_of_Z (Z.shiftr v 8); byte_of_Z v].

Definition Uint16 (b0 b1 : byte) : Z :=
  Z.lor (Z_of_byte b1) (Z.shiftl (Z_of_byte b0) 8).

Definition Uint32 (b0 b1 b2 b3 : byte) : Z :=
  Z.lor (Z.lor (Z.lor (Z_of_byte b3) (Z.shiftl (Z_of_byte b2) 8))
               (Z.shiftl (Z_of_byte b1) 16))
        (Z.shiftl (Z_of_byte b0) 24).

End BigEndian.

(** ** Errors

    The error values the decoder can produce: the [io] sentinels, errors
    wrapped by [fmt.Errorf("<label>: %w", err)], the short-count report
    [fmt.Errorf("<label>: read %d of %d bytes", got, want)], and opaque
    errors of the environment (a failing connection). *)

Inductive error : Type :=
| io_EOF
| io_ErrUnexpectedEOF
| net_ErrClosed
| errors_New (msg : string)
| Errorf_wrap (label : string) (err : error)
| Errorf_read_of (label : string) (got want : Z).

Definition itoa (z : Z) : string := NilZero.string_of_int (Z.to_int z).

(** [err.Error()] *)
Fixpoint Error (e : error) : string :=
  match e with
  | io_EOF => "EOF"
  | io_ErrUnexpectedEOF => "unexpected EOF"
  | net_ErrClosed => "use of closed network connection"
  | errors_New msg => msg
  | Errorf_wrap label err => label ++ ": " ++ Error err
  | Errorf_read_of label got want =>
      label ++ ": read " ++ itoa got ++ " of " ++ itoa want ++ " bytes"
  end%string.

(** ** Executions that may panic or not return

    The lexer indexes its input without bound checks of its own; a slice
    expression out of range is a run-time panic.  [OutOfFuel] is the answer
    of a loop whose iteration budget ran out: the loop has not returned
    within the budget, and nothing is said about what it does after it.
    The termination lemmas show where it is never the answer. *)

Inductive exec (A : Type) : Type :=
| Ret (a : A)
| Panic
| OutOfFuel.
Arguments Ret {A} a.
Arguments Panic {A}.
Arguments OutOfFuel {A}.

Definition exec_bind {A B} (m : exec A) (k : A -> exec B) : exec B :=
  match m with
  | Ret a => k a
  | Panic => Panic
  | OutOfFuel => OutOfFuel
  end.

Notation "'do' x <- m ; k" := (exec_bind m (fun x => k))
  (at level 10, x pattern, m at level 100, k at level 200).

(** ** io.Reader

    A reader is a state with a [Read] method: [Read r n] is the call
    [r.Read(p)] with [len(p) = n]; it returns the bytes stored in the
    prefix of [p], the error and the reader after the call. *)

Class Reader (R : Type) : Type :=
  Read : R -> nat -> list byte * option error * R.

(** The contract of [io.Reader]: at most [len(p)] bytes are returned, and
    a call that asks for bytes and reports no error returns some. *)
Class ReaderLaws (R : Type) `{Reader R} : Prop := {
  Read_bound : forall r n bs err r',
    Read r n = (bs, err, r') -> (length bs <= n)%nat;
  Read_progress : forall r n bs r',
    Read r n = (bs, None, r') -> (0 < n)%nat -> (0 < length bs)%nat
}.

(** *** bytes.Buffer *)

Record Buffer : Type := NewBuffer { unread : list byte }.

(** [Buffer.Read]: an empty buffer returns [io.EOF] (or nothing at all
    when [len(p) = 0]); otherwise it copies what fits. *)
Definition Buffer_Read (b : Buffer) (n : nat) : list byte * option error * Buffer :=
  match unread b with
  | [] => if Nat.eqb n 0 then ([], None, NewBuffer [])
          else ([], Some io_EOF, NewBuffer [])
  | _ => (take n (unread b), None, NewBuffer (drop n (unread b)))
  end.

#[export] Instance Buffer_Reader : Reader Buffer := Buffer_Read.

(** *** A source that delivers its data in segments

    Each [Read] call is served from the first pending segment only, the way
    a stream connection hands over what has arrived so far. *)

Record Segments : Type := NewSegments { pending : list (list byte) }.

Fixpoint skip_empty (l : list (list byte)) : list (list byte) :=
  match l with
  | [] :: rest => skip_empty rest
  | _ => l
  end.

Definition Segments_Read (s : Segments) (n : nat) : list byte * option error * Segments :=
  match skip_empty (pending s) with
  | [] => if Nat.eqb n 0 then ([], None, NewSegments [])
          else ([], Some io_EOF, NewSegments [])
  | seg :: rest => (take n seg, None, NewSegments (drop n seg :: rest))
  end.

#[export] Instance Segments_Reader : Reader Segments := Segments_Read.

(** *** io.ReadFull and binary.Read

    [io.ReadFull(r, buf)] calls [Read] until [len(buf)] bytes have arrived
    or an error is reported; an [io.EOF] after some bytes becomes
    [io.ErrUnexpectedEOF].  A reader that keeps returning no byte and no
    error keeps the loop going for ever; the loop of the model gives
    [OutOfFuel] when it has made [len(buf)] calls and is still short.
    Every productive call delivers at least one byte, so for a reader that
    makes progress ([Read_progress]) the budget is never exhausted. *)

Section ReadFull.
Context {R : Type} `{Reader R}.

(** [for n < min && err == nil { nn, err = r.Read(buf[n:]); n += nn }] *)
Fixpoint ReadAtLeast_loop (fuel : nat) (r : R) (min : nat) (buf : list byte)
  : exec (list byte * option error * R) :=
  if (length buf <? min)%nat then
    match fuel with
    | O => OutOfFuel
    | S fuel' =>
        let '(bs, err, r') := Read r (min - length buf) in
        match err with
        | None => ReadAtLeast_loop fuel' r' min (buf ++ bs)
        | Some _ => Ret (buf ++ bs, err, r')
        end
    end
  else Ret (buf, None, r).

Definition ReadFull (r : R) (min : nat) : exec (list byte * option error * R) :=
  do (buf, err, r') <- ReadAtLeast_loop min r min [];
  Ret (if (min <=? length buf)%nat then (buf, None, r')
       else match err with
            | Some io_EOF =>
                if (0 <? length buf)%nat then (buf, Some io_ErrUnexpectedEOF, r')
                else (buf, err, r')
            | _ => (buf, err, r')
            end).

(** [binary.Read(r, binary.BigEndian, &v)] for the three widths the
    decoder uses: [bs := make([]byte, size)] is filled by [io.ReadFull],
    and the value is decoded from [bs] and assigned only when [ReadFull]
    reports no error, which it does only when all the bytes were read. *)
Definition binary_Read_uint8 (r : R) : exec ((Z + error) * R) :=
  do (buf, err, r') <- ReadFull r 1;
  Ret (match err with
       | Some err => (inr err, r')
       | None => (inl (Z_of_byte (nth 0 buf x00)), r')
       end).

Definition binary_Read_uint16 (r : R) : exec ((Z + error) * R) :=
  do (buf, err, r') <- ReadFull r 2;
  Ret (match err with
       | Some err => (inr err, r')
       | None => (inl (BigEndian.Uint16 (nth 0 buf x00) (nth 1 buf x00)), r')
       end).

Definition binary_Read_uint32 (r : R) : exec ((Z + error) * R) :=
  do (buf, err, r') <- ReadFull r 4;
  Ret (match err with
       | Some err => (inr err, r')
       | None =>
           (inl (BigEndian.Uint32 (nth 0 buf x00) (nth 1 buf x00)
                                  (nth 2 buf x00) (nth 3 buf x00)), r')
       end).

End ReadFull.

(** [s[lo:]] and [s[lo:hi]] on a string or slice *)
Definition slice_from {A} (s : list A) (lo : Z) : exec (list A) :=
  if (0 <=? lo) && (lo <=? Z.of_nat (length s))
  then Ret (drop (Z.to_nat lo) s) else Panic.

Definition slice {A} (s : list A) (lo hi : Z) : exec (list A) :=
  if (0 <=? lo) && (lo <=? hi) && (hi <=? Z.of_nat (length s))
  then Ret (take (Z.to_nat hi - Z.to_nat lo) (drop (Z.to_nat lo) s)) else Panic.

(** ** unicode/utf8 and strings *)

Module utf8.

Definition RuneError : Z := 0xFFFD.

(** The [first] table of the package: for a leading byte, the length of
    the sequence and the range accepted for its second byte; [None] for
    a byte that starts no sequence.  ASCII bytes are handled before the
    table is consulted. *)
Definition first (s0 : Z) : option (nat * Z * Z) :=
  if s0 <? 0xC2 then None
  else if s0 <? 0xE0 then Some (2%nat, 0x80, 0xBF)
  else if s0 =? 0xE0 then Some (3%nat, 0xA0, 0xBF)
  else if s0 <? 0xED then Some (3%nat, 0x80, 0xBF)
  else if s0 =? 0xED then Some (3%nat, 0x80, 0x9F)
  else if s0 <? 0xF0 then Some (3%nat, 0x80, 0xBF)
  else if s0 =? 0xF0 then Some (4%nat, 0x90, 0xBF)
  else if s0 <? 0xF4 then Some (4%nat, 0x80, 0xBF)
  else if s0 =? 0xF4 then Some (4%nat, 0x80, 0x8F)
  else None.

Definition continuation (c : Z) : bool := (0x80 <=? c) && (c <=? 0xBF).

(** [utf8.DecodeRuneInString]: the rune at the head of [s] and its width
    in bytes; [(RuneError, 1)] for an ill-formed sequence and
    [(RuneError, 0)] for the empty string. *)
Definition DecodeRuneInString (s : list byte) : Z * Z :=
  match s with
  | [] => (RuneError, 0)
  | b0 :: t =>
      let s0 := Z_of_byte b0 in
      if s0 <? 0x80 then (s0, 1)
      else match first s0 with
      | None => (RuneError, 1)
      | Some (sz, lo, hi) =>
          if (length s <? sz)%nat then (RuneError, 1)
          else match t with
          | [] => (RuneError, 1)
          | b1 :: t1 =>
              let s1 := Z_of_byte b1 in
              if (s1 <? lo) || (hi <? s1) then (RuneError, 1)
              else if (sz <=? 2)%nat then
                (Z.lor (Z.shiftl (Z.land s0 0x1F) 6) (Z.land s1 0x3F), 2)
              else match t1 with
              | [] => (RuneError, 1)
              | b2 :: t2 =>
                  let s2 := Z_of_byte b2 in
                  if negb (continuation s2) then (RuneError, 1)
                  else if (sz <=? 3)%nat then
                    (Z.lor (Z.lor (Z.shiftl (Z.land s0 0x0F) 12)
                                  (Z.shiftl (Z.land s1 0x3F) 6))
                           (Z.land s2 0x3F), 3)
                  else match t2 with
                  | [] => (RuneError, 1)
                  | b3 :: _ =>
                      let s3 := Z_of_byte b3 in
                      if negb (continuation s3) then (RuneError, 1)
                      else
                        (Z.lor (Z.lor (Z.lor (Z.shiftl (Z.land s0 0x07) 18)
                                             (Z.shiftl (Z.land s1 0x3F) 12))
                                      (Z.shiftl (Z.land s2 0x3F) 6))
                               (Z.land s3 0x3F), 4)
                  end
              end
          end
      end
  end.

End utf8.

Module strings.

Fixpoint has_prefix (s sub : list byte) : bool :=
  match sub, s with
  | [], _ => true
  | _ :: _, [] => false
  | c :: sub', d :: s' => if Byte.eqb c d then has_prefix s' sub' else false
  end.

(** [strings.Index(s, substr)]: the offset of the first occurrence of
    [substr] in [s], or [-1]. *)
Fixpoint Index (s sub : list byte) : Z :=
  if has_prefix s sub then 0
  else match s with
       | [] => -1
       | _ :: s' => let i := Index s' sub in if i <? 0 then -1 else i + 1
       end.

(** [strings.ContainsRune(s, r)]: some rune of [s], read the way a
    [range] loop over the string reads them, equals [r]. *)
Fixpoint ContainsRune_from (fuel : nat) (s : list byte) (r : Z) : bool :=
  match fuel, s with
  | S fuel', _ :: _ =>
      let '(c, w) := utf8.DecodeRuneInString s in
      (c =? r) || ContainsRune_from fuel' (drop (Z.to_nat w) s) r
  | _, _ => false
  end.

Definition ContainsRune (s : list byte) (r : Z) : bool :=
  ContainsRune_from (length s) s r.

End strings.

(** ** The payload lexer (payload_lexer.go) *)

Inductive tokenType : Type := tokenEOF | tokenKey | tokenValue.

Record token : Type := mkToken {
  typ : tokenType;
  tpos : Z;
  val : string
}.

Definition pairSeparator : list byte := bytes_of_string ",".
Definition separator : list byte := bytes_of_string ":".
Definition eof : Z := -1.

(** The state functions, as the names of the four functions of type
    [stateFn]; [None] is the nil state that stops [run]. *)
Inductive stateFn : Type := lexKey | lexPairSeparator | lexSeparator | lexValue.

(** The lexer; the unbuffered channel [tokens] is the list of the tokens
    sent so far, in order. *)
Record lexer : Type := mkLexer {
  input : list byte;
  start : Z;
  pos : Z;
  width : Z;
  tokens : list token
}.

Definition set_start (v : Z) (l : lexer) : lexer :=
  mkLexer (input l) v (pos l) (width l) (tokens l).
Definition set_pos (v : Z) (l : lexer) : lexer :=
  mkLexer (input l) (start l) v (width l) (tokens l).
Definition set_width (v : Z) (l : lexer) : lexer :=
  mkLexer (input l) (start l) (pos l) v (tokens l).
Definition send (t : token) (l : lexer) : lexer :=
  mkLexer (input l) (start l) (pos l) (width l) (tokens l ++ [t]).

Definition isEOF (l : lexer) : bool := Z.of_nat (length (input l)) <=? pos l.

Definition backup (l : lexer) : lexer := set_pos (pos l - width l) l.

Definition ignore (l : lexer) : lexer := set_start (pos l) l.

Definition index (l : lexer) (c : list byte) : exec Z :=
  do rest <- slice_from (input l) (pos l);
  Ret (strings.Index rest c).

Definition emit (t : tokenType) (l : lexer) : exec lexer :=
  do v <- slice (input l) (start l) (pos l);
  Ret (set_start (pos l) (send (mkToken t (pos l) (string_of_bytes v)) l)).

Definition next (l : lexer) : exec (Z * lexer) :=
  if isEOF l then Ret (eof, set_width 0 l)
  else
    do rest <- slice_from (input l) (pos l);
    let '(r, w) := utf8.DecodeRuneInString rest in
    Ret (r, set_pos (pos l + w) (set_width w l)).

(** The loop of [acceptUntil]: [r] is the rune read last. *)
Fixpoint acceptUntil_loop (fuel : nat) (c : list byte) (r : Z) (l : lexer)
  : exec lexer :=
  if negb (r =? eof) && negb (strings.ContainsRune c r) then
    match fuel with
    | O => OutOfFuel
    | S fuel' => do (r', l') <- next l; acceptUntil_loop fuel' c r' l'
    end
  else Ret l.

Definition acceptUntil (c : list byte) (l : lexer) : exec lexer :=
  do (r, l1) <- next l;
  do l2 <- acceptUntil_loop (length (input l)) c r l1;
  Ret (backup l2).

Fixpoint acceptUntilEOF_loop (fuel : nat) (r : Z) (l : lexer) : exec lexer :=
  if negb (r =? eof) then
    match fuel with
    | O => OutOfFuel
    | S fuel' => do (r', l') <- next l; acceptUntilEOF_loop fuel' r' l'
    end
  else Ret l.

Definition acceptUntilEOF (l : lexer) : exec lexer :=
  do (r, l1) <- next l;
  acceptUntilEOF_loop (length (input l)) r l1.

(** [first]: the character of [chars] that occurs first in the input from
    the current position, or the empty string. *)
Fixpoint first_loop (l : lexer) (chars : list (list byte))
    (firstIndex : Z) (firstString : list byte) : exec (list byte) :=
  match chars with
  | [] => Ret firstString
  | c :: chars' =>
      do i <- index l c;
      if (0 <=? i) && ((firstIndex <? 0) || (i <? firstIndex))
      then first_loop l chars' i c
      else first_loop l chars' firstIndex firstString
  end.

Definition first (l : lexer) (chars : list (list byte)) : exec (list byte) :=
  first_loop l chars (-1) [].

Definition bytes_eqb (a b : list byte) : bool :=
  bool_decide (a = b).

(** The bodies of the four state functions: the lexer after the call and
    the state returned. *)
Definition step (st : stateFn) (l : lexer) : exec (lexer * option stateFn) :=
  match st with
  | lexKey =>
      do l <- acceptUntil separator l;
      do l <- emit tokenKey l;
      Ret (l, Some lexSeparator)
  | lexPairSeparator =>
      let l := set_pos (pos l + Z.of_nat (length pairSeparator)) l in
      Ret (ignore l, Some lexKey)
  | lexSeparator =>
      let l := set_pos (pos l + Z.of_nat (length separator)) l in
      Ret (ignore l, Some lexValue)
  | lexValue =>
      do i <- index l separator;
      do multiple <-
        (if 0 <=? i
         then do f <- first l [pairSeparator; separator];
              Ret (bytes_eqb f pairSeparator)
         else Ret false);
      let tok := if multiple then pairSeparator else [] in
      let nextState := if multiple then Some lexPairSeparator else None in
      do l <- (if bytes_eqb tok [] then acceptUntilEOF l else acceptUntil tok l);
      do l <- emit tokenValue l;
      if isEOF l then
        do l <- emit tokenEOF l;
        Ret (l, None)
      else Ret (l, nextState)
  end.

(** [run]: [for l.state = lexKey; l.state != nil; { l.state = l.state(l) }] *)
Fixpoint run_loop (fuel : nat) (st : option stateFn) (l : lexer) : exec lexer :=
  match st with
  | None => Ret l
  | Some f =>
      match fuel with
      | O => OutOfFuel
      | S fuel' => do (l', st') <- step f l; run_loop fuel' st' l'
      end
  end.

Definition run (l : lexer) : exec lexer :=
  run_loop (4 * length (input l) + 4) (Some lexKey) l.

(** [lex(input)]: the tokens received from the channel until it is
    closed. *)
Definition lex (s : string) : exec (list token) :=
  do l <- run (mkLexer (bytes_of_string s) 0 0 0 []);
  Ret (tokens l).

(** ** UUID (uuid.go) *)

Record UUID : Type := mkUUID {
  TimeLow : Z;
  TimeMid : Z;
  TimeHiAndVersion : Z;
  ClockSeqHiAndRes : Z;
  ClockSeqLow : Z;
  Node : list byte
}.

(** The zero value: [Node] is a [[6]byte] of zeros. *)
Definition UUID_zero : UUID := mkUUID 0 0 0 0 0 (replicate 6 x00).

Definition set_TimeLow (v : Z) (u : UUID) : UUID :=
  mkUUID v (TimeMid u) (TimeHiAndVersion u) (ClockSeqHiAndRes u) (ClockSeqLow u) (Node u).
Definition set_TimeMid (v : Z) (u : UUID) : UUID :=
  mkUUID (TimeLow u) v (TimeHiAndVersion u) (ClockSeqHiAndRes u) (ClockSeqLow u) (Node u).
Definition set_TimeHiAndVersion (v : Z) (u : UUID) : UUID :=
  mkUUID (TimeLow u) (TimeMid u) v (ClockSeqHiAndRes u) (ClockSeqLow u) (Node u).
Definition set_ClockSeqHiAndRes (v : Z) (u : UUID) : UUID :=
  mkUUID (TimeLow u) (TimeMid u) (TimeHiAndVersion u) v (ClockSeqLow u) (Node u).
Definition set_ClockSeqLow (v : Z) (u : UUID) : UUID :=
  mkUUID (TimeLow u) (TimeMid u) (TimeHiAndVersion u) (ClockSeqHiAndRes u) v (Node u).
Definition set_Node (v : list byte) (u : UUID) : UUID :=
  mkUUID (TimeLow u) (TimeMid u) (TimeHiAndVersion u) (ClockSeqHiAndRes u) (ClockSeqLow u) v.

(** The values the Go type can hold. *)
Record UUID_wf (u : UUID) : Prop := {
  wf_TimeLow : is_uint32 (TimeLow u);
  wf_TimeMid : is_uint16 (TimeMid u);
  wf_TimeHiAndVersion : is_uint16 (TimeHiAndVersion u);
  wf_ClockSeqHiAndRes : is_uint8 (ClockSeqHiAndRes u);
  wf_ClockSeqLow : is_uint8 (ClockSeqLow u);
  wf_Node : length (Node u) = 6%nat
}.

Definition UUID_marshalBinary (u : UUID) : list byte :=
  let b := BigEndian.AppendUint32 [] (TimeLow u) in
  let b := BigEndian.AppendUint16 b (TimeMid u) in
  let b := BigEndian.AppendUint16 b (TimeHiAndVersion u) in
  let b := b ++ [byte_of_Z (ClockSeqHiAndRes u); byte_of_Z (ClockSeqLow u)] in
  let b := b ++ Node u in
  b.

(** [copy(dst, src)] into the prefix of [dst], as [Read] fills its
    argument. *)
Definition fill (dst src : list byte) : list byte :=
  src ++ drop (length src) dst.

Section Decode.
Context {R : Type} `{Reader R}.

(** [UUID.ReadFrom]: the receiver after the call, the count [n], the
    error and the reader after the call. *)
Definition UUID_ReadFrom (u : UUID) (r : R) : exec (UUID * Z * option error * R) :=
  let n := 0 in
  (* TimeLow *)
  do (v, r) <- binary_Read_uint32 r;
  match v with
  | inr err => Ret (u, n, Some (Errorf_wrap "reading time low" err), r)
  | inl v =>
  let u := set_TimeLow v u in
  let n := n + 4 in
  (* TimeMid *)
  do (v, r) <- binary_Read_uint16 r;
  match v with
  | inr err => Ret (u, n, Some (Errorf_wrap "reading time mid" err), r)
  | inl v =>
  let u := set_TimeMid v u in
  let n := n + 2 in
  (* TimeHiAndVersion *)
  do (v, r) <- binary_Read_uint16 r;
  match v with
  | inr err => Ret (u, n, Some (Errorf_wrap "reading time hi and version" err), r)
  | inl v =>
  let u := set_TimeHiAndVersion v u in
  let n := n + 2 in
  (* ClockSeqHiAndRes *)
  do (v, r) <- binary_Read_uint8 r;
  match v with
  | inr err => Ret (u, n, Some (Errorf_wrap "reading clock seq hi and res" err), r)
  | inl v =>
  let u := set_ClockSeqHiAndRes v u in
  let n := n + 1 in
  (* ClockSeqLow *)
  do (v, r) <- binary_Read_uint8 r;
  match v with
  | inr err => Ret (u, n, Some (Errorf_wrap "reading clock seq low" err), r)
  | inl v =>
  let u := set_ClockSeqLow v u in
  let n := n + 1 in
  (* Node *)
  let '(bs, err, r) := Read r 6 in
  let u := set_Node (fill (Node u) bs) u in
  let i := Z.of_nat (length bs) in
  match err with
  | Some err => Ret (u, n, Some (Errorf_wrap "reading node" err), r)
  | None =>
  if negb (i =? 6) then Ret (u, n, Some (Errorf_read_of "reading node" i 6), r)
  else
  let n := n + i in
  Ret (u, n, None, r)
  end end end end end end.

End Decode.

(** ** hash/crc32 *)

Module crc32.

Definition IEEE : Z := 0xedb88320.

(** One entry of the table built by [simpleMakeTable]. *)
Fixpoint table_entry_loop (j : nat) (poly crc : Z) : Z :=
  match j with
  | O => crc
  | S j' =>
      table_entry_loop j' poly
        (if Z.testbit crc 0 then Z.lxor (Z.shiftr crc 1) poly
         else Z.shiftr crc 1)
  end.

Definition table_entry (poly i : Z) : Z := table_entry_loop 8 poly i.

(** [simpleUpdate]: [crc = tab[byte(crc)^v] ^ (crc >> 8)] for every byte,
    between two complements of the 32-bit value. *)
Definition update (crc poly : Z) (p : list byte) : Z :=
  let crc := Z.lxor crc 0xFFFFFFFF in
  let crc :=
    fold_left
      (fun crc v =>
         Z.lxor (table_entry poly (Z.lxor (Z.land crc 0xFF) (Z_of_byte v)))
                (Z.shiftr crc 8))
      p crc in
  Z.lxor crc 0xFFFFFFFF.

(** [crc32.Checksum(data, crc32.IEEETable)] *)
Definition ChecksumIEEE (data : list byte) : Z := update 0 IEEE data.

End crc32.

(** ** Events (event.go, payload_parser.go) *)

(** [netip.Addr]: the zero value, or an IPv4 address. *)
Inductive Addr : Type :=
| Addr_zero
| AddrFrom4 (a0 a1 a2 a3 : byte).

Definition HTTP : Z := 0x0A.
Definition SMTP : Z := 0x11.
Definition SSH : Z := 0x31.
Definition TELNET : Z := 0x23.

Definition Protocol_String (p : Z) : string :=
  if p =? HTTP then "HTTP"
  else if p =? SMTP then "SMTP"
  else if p =? SSH then "SSH"
  else if p =? TELNET then "TELNET"
  else "UNKNOWN".

(** The fields in the order of the struct declaration.  A nil map and an
    empty map are both the empty [gmap]. *)
Record Event : Type := mkEvent {
  NodeID : Z;
  TimeStamp : Z;
  Size : Z;
  EventUUID : UUID;
  Payload : gmap string string;
  Protocol : Z;
  Submitter : Z;
  CheckSum : Z;
  PayloadBytes : list byte;
  IP : Addr
}.

(** [new(Event)] *)
Definition Event_zero : Event :=
  mkEvent 0 0 0 UUID_zero ∅ 0 0 0 [] Addr_zero.

Definition set_NodeID (v : Z) (e : Event) : Event :=
  mkEvent v (TimeStamp e) (Size e) (EventUUID e) (Payload e) (Protocol e)
          (Submitter e) (CheckSum e) (PayloadBytes e) (IP e).
Definition set_TimeStamp (v : Z) (e : Event) : Event :=
  mkEvent (NodeID e) v (Size e) (EventUUID e) (Payload e) (Protocol e)
          (Submitter e) (CheckSum e) (PayloadBytes e) (IP e).
Definition set_Size (v : Z) (e : Event) : Event :=
  mkEvent (NodeID e) (TimeStamp e) v (EventUUID e) (Payload e) (Protocol e)
          (Submitter e) (CheckSum e) (PayloadBytes e) (IP e).
Definition set_EventUUID (v : UUID) (e : Event) : Event :=
  mkEvent (NodeID e) (TimeStamp e) (Size e) v (Payload e) (Protocol e)
          (Submitter e) (CheckSum e) (PayloadBytes e) (IP e).
Definition set_Payload (v : gmap string string) (e : Event) : Event :=
  mkEvent (NodeID e) (TimeStamp e) (Size e) (EventUUID e) v (Protocol e)
          (Submitter e) (CheckSum e) (PayloadBytes e) (IP e).
Definition set_Protocol (v : Z) (e : Event) : Event :=
  mkEvent (NodeID e) (TimeStamp e) (Size e) (EventUUID e) (Payload e) v
          (Submitter e) (CheckSum e) (PayloadBytes e) (IP e).
Definition set_Submitter (v : Z) (e : Event) : Event :=
  mkEvent (NodeID e) (TimeStamp e) (Size e) (EventUUID e) (Payload e) (Protocol e)
          v (CheckSum e) (PayloadBytes e) (IP e).
Definition set_CheckSum (v : Z) (e : Event) : Event :=
  mkEvent (NodeID e) (TimeStamp e) (Size e) (EventUUID e) (Payload e) (Protocol e)
          (Submitter e) v (PayloadBytes e) (IP e).
Definition set_PayloadBytes (v : list byte) (e : Event) : Event :=
  mkEvent (NodeID e) (TimeStamp e) (Size e) (EventUUID e) (Payload e) (Protocol e)
          (Submitter e) (CheckSum e) v (IP e).
Definition set_IP (v : Addr) (e : Event) : Event :=
  mkEvent (NodeID e) (TimeStamp e) (Size e) (EventUUID e) (Payload e) (Protocol e)
          (Submitter e) (CheckSum e) (PayloadBytes e) v.

(** The values the Go types of the integer fields can hold. *)
Record Event_wf (e : Event) : Prop := {
  wf_NodeID : is_uint16 (NodeID e);
  wf_TimeStamp : is_uint32 (TimeStamp e);
  wf_Size : is_uint16 (Size e);
  wf_EventUUID : UUID_wf (EventUUID e);
  wf_Protocol : is_uint16 (Protocol e);
  wf_Submitter : is_uint32 (Submitter e);
  wf_CheckSum : is_uint32 (CheckSum e)
}.

(** The loop of [parsePayloadRaw] over the tokens received. *)
Fixpoint parse_tokens (ts : list token) (key : string)
    (m : gmap string string) : gmap string string :=
  match ts with
  | [] => m
  | t :: ts' =>
      match typ t with
      | tokenEOF => m
      | tokenKey => parse_tokens ts' (val t) m
      | tokenValue => parse_tokens ts' key (<[key := val t]> m)
      end
  end.

Definition parsePayloadRaw (e : Event) : exec Event :=
  let e := set_Payload ∅ e in
  do ts <- lex (string_of_bytes (PayloadBytes e));
  Ret (set_Payload (parse_tokens ts EmptyString (Payload e)) e).

(** [binary.BigEndian.PutUint32(addr[:], v); netip.AddrFrom4(addr)] *)
Definition addr_of_uint32 (v : Z) : Addr :=
  AddrFrom4 (byte_of_Z (Z.shiftr v 24)) (byte_of_Z (Z.shiftr v 16))
            (byte_of_Z (Z.shiftr v 8)) (byte_of_Z v).

(** [marshalBinary]: every field but the checksum. *)
Definition marshalBinary (e : Event) : list byte :=
  let b := BigEndian.AppendUint16 [] (NodeID e) in
  let b := BigEndian.AppendUint32 b (TimeStamp e) in
  let b := BigEndian.AppendUint16 b (Size e) in
  let b := b ++ UUID_marshalBinary (EventUUID e) in
  let b := b ++ PayloadBytes e in
  let b := BigEndian.AppendUint16 b (uint16_of_Z (Protocol e)) in
  let b := BigEndian.AppendUint32 b (Submitter e) in
  b.

Definition MarshalBinary (e : Event) : list byte * option error :=
  (BigEndian.AppendUint32 (marshalBinary e) (CheckSum e), None).

Definition Valid (e : Event) : bool :=
  crc32.ChecksumIEEE (marshalBinary e) =? CheckSum e.

Section DecodeEvent.
Context {R : Type} `{Reader R}.

(** [Event.ReadFrom]: the receiver after the call, the count [n], the
    error and the reader after the call; [Panic] when the payload lexer
    panics. *)
Definition ReadFrom (e : Event) (r : R) : exec (Event * Z * option error * R) :=
  let n := 0 in
  (* NodeID *)
  do (v, r) <- binary_Read_uint16 r;
  match v with
  | inr err => Ret (e, 0, Some (Errorf_wrap "reading node ID" err), r)
  | inl v =>
  let e := set_NodeID v e in
  let n := n + 2 in
  (* TimeStamp *)
  do (v, r) <- binary_Read_uint32 r;
  match v with
  | inr err => Ret (e, n, Some (Errorf_wrap "reading time stamp" err), r)
  | inl v =>
  let e := set_TimeStamp v e in
  let n := n + 4 in
  (* Size *)
  do (v, r) <- binary_Read_uint16 r;
  match v with
  | inr err => Ret (e, n, Some (Errorf_wrap "reading size" err), r)
  | inl v =>
  let e := set_Size v e in
  let n := n + 2 in
  (* UUID *)
  do (u, i, err, r) <- UUID_ReadFrom (EventUUID e) r;
  let e := set_EventUUID u e in
  match err with
  | Some err => Ret (e, n, Some (Errorf_wrap "reading UUID" err), r)
  | None =>
  let n := n + i in
  (* PayloadBytes *)
  let e := set_PayloadBytes (replicate (Z.to_nat (Size e)) x00) e in
  let '(bs, err, r) := Read r (length (PayloadBytes e)) in
  let e := set_PayloadBytes (fill (PayloadBytes e) bs) e in
  let j := Z.of_nat (length bs) in
  match err with
  | Some err => Ret (e, n, Some (Errorf_wrap "reading payload" err), r)
  | None =>
  if negb (uint16_of_Z j =? Size e)
  then Ret (e, n, Some (Errorf_read_of "reading payload" j (Size e)), r)
  else
  let n := n + j in
  (* Parse the raw event payload into key:value pairs. *)
  do e <- parsePayloadRaw e;
  (* Protocol *)
  do (v, r) <- binary_Read_uint16 r;
  match v with
  | inr err => Ret (e, n, Some (Errorf_wrap "reading protocol" err), r)
  | inl v =>
  let e := set_Protocol v e in
  let n := n + 2 in
  (* Submitter *)
  do (v, r) <- binary_Read_uint32 r;
  match v with
  | inr err => Ret (e, n, Some (Errorf_wrap "reading submitter" err), r)
  | inl v =>
  let e := set_Submitter v e in
  let n := n + 4 in
  (* Derive the IP address from the uint32. *)
  let e := set_IP (addr_of_uint32 (Submitter e)) e in
  (* CheckSum *)
  do (v, r) <- binary_Read_uint32 r;
  match v with
  | inr err => Ret (e, n, Some (Errorf_wrap "reading checksum" err), r)
  | inl v =>
  let e := set_CheckSum v e in
  let n := n + 4 in
  Ret (e, n, None, r)
  end end end end end end end end.

End DecodeEvent.

(** [UUID.String]: the sixteen bytes in lowercase hexadecimal, hyphens
    after bytes 4, 6, 8 and 10. *)
Definition hextable : list ascii :=
  list_ascii_of_string "0123456789abcdef".

Definition hex_digit (v : Z) : ascii :=
  nth (Z.to_nat v) hextable "0"%char.

Fixpoint hex_Encode (src : list byte) : string :=
  match src with
  | [] => EmptyString
  | b :: src' =>
      String (hex_digit (Z.shiftr (Z_of_byte b) 4))
        (String (hex_digit (Z.land (Z_of_byte b) 0x0f)) (hex_Encode src'))
  end.

Definition UUID_String (u : UUID) : string :=
  let src := UUID_marshalBinary u in
  (hex_Encode (take 4 src) ++ "-" ++
   hex_Encode (take 2 (drop 4 src)) ++ "-" ++
   hex_Encode (take 2 (drop 6 src)) ++ "-" ++
   hex_Encode (take 2 (drop 8 src)) ++ "-" ++
   hex_Encode (drop 10 src))%string.

(** ** The ingestion loop (client.go) *)

Definition minDatagramBytes : Z := 512.
Definition maxDatagramBytes : Z := 65535.

(** What the [select] statement of one iteration of the consumer loop
    observes: the context is done, the datagram channel is closed, or a
    datagram is received. *)
Inductive selected (R : Type) : Type :=
| ctx_Done
| chan_closed
| chan_recv (r : R).
Arguments ctx_Done {R}.
Arguments chan_closed {R}.
Arguments chan_recv {R} r.

(** The environment of one call of [collectEvents]: the answer of the
    connection to the handshake write, and the observation of the [select]
    statement of iteration [i] (counted from 0).  The reader goroutine and
    the scheduler are behind [select_at]: the channel hands over the
    datagrams in the order they were received. *)
Record env (R : Type) : Type := mkEnv {
  conn_Write : list byte -> Z * option error;
  select_at : nat -> selected R
}.
Arguments mkEnv {R} _ _.
Arguments conn_Write {R} _ _.
Arguments select_at {R} _ _.

Inductive log_entry : Type :=
| Warnf (msg : string)
| Debugf (msg : string).

(** [int(x) << 20] and the division, on 64-bit signed integers. *)
Definition int_wrap (v : Z) : Z :=
  (v + 2 ^ 63) mod 2 ^ 64 - 2 ^ 63.

Definition queue_capacity (cache size : Z) : Z :=
  Z.quot (int_wrap (Z.shiftl cache 20)) size.

(** [make(chan T, size)] (runtime.makechan, on a 64-bit platform) for an
    element of [elem] bytes: the call panics with "makechan: size out of
    range" when [size] is negative or the buffer is larger than
    [maxAlloc - hchanSize]; the product overflows a [uintptr] only where it
    is larger than that.  A buffer within the range is taken to be
    there. *)
Definition maxAlloc : Z := 2 ^ 48.
Definition hchanSize : Z := 96.

Definition makechan (elem size : Z) : exec unit :=
  if (size <? 0) || (maxAlloc - hchanSize <? elem * size) then Panic
  else Ret tt.

(** The size of an [io.Reader]: an interface value is two words. *)
Definition io_Reader_size : Z := 16.

Section Collect.
Context {R : Type} `{Reader R}.

(** The loop labelled [OUTER]: [k] iterations are left, [i] have been
    made. *)
Fixpoint collect_loop (sel : nat -> selected R) (k i : nat)
    (events : list Event) (log : list log_entry)
  : exec (list Event * option error * list log_entry) :=
  match k with
  | O => Ret (events, None, log)
  | S k' =>
      match sel i with
      | ctx_Done => Ret (events, None, log)
      | chan_closed =>
          Ret (events, None, log ++ [Debugf "datagram channel closed"])
      | chan_recv r =>
          do (e, _, err, _) <- ReadFrom Event_zero r;
          match err with
          | Some err => Ret ([], Some err, log)
          | None =>
              if negb (Valid e) then
                collect_loop sel k' (S i) events
                  (log ++ [Warnf ("event " ++ UUID_String (EventUUID e)
                                  ++ " is invalid; discarding it")])
              else collect_loop sel k' (S i) (events ++ [e]) log
          end
      end
  end.

Definition collectEvents (environment : env R) (datagrams size cache : Z)
  : exec (list Event * option error * list log_entry) :=
  if datagrams <? 1 then
    Ret ([], Some (errors_New "no datagrams read from the server"), [])
  else
    let '(size, log) :=
      if size <? minDatagramBytes then
        (minDatagramBytes,
         [Warnf (itoa size ++ " is below the minimum datagram size; defaulting to "
                 ++ itoa minDatagramBytes)])
      else if maxDatagramBytes <? size then
        (maxDatagramBytes,
         [Warnf (itoa size ++ " exceeds the maximum datagram size; defaulting to "
                 ++ itoa maxDatagramBytes)])
      else (size, []) in
    let cache := if cache <? 1 then 1 else cache in
    do _ <- makechan io_Reader_size (queue_capacity cache size);
    match conn_Write environment (bytes_of_string "Feed me, Seymour!") with
    | (_, Some err) => Ret ([], Some (Errorf_wrap "writing introduction" err), log)
    | (n, None) =>
        let log := log ++ [Debugf ("wrote " ++ itoa n
                                   ++ "-byte introduction to the server")] in
        collect_loop (select_at environment) (Z.to_nat datagrams) 0 [] log
    end.

End Collect.

(** ** Occurrence ranking (findings.go) *)

Record itemOccurrence : Type := mkItemOccurrence {
  Events : list Event;
  Item : string;
  Occurrence : Z
}.

(** [new(itemOccurrence)] *)
Definition itemOccurrence_zero : itemOccurrence := mkItemOccurrence [] EmptyString 0.

(** [Less], on the two elements it compares. *)
Definition Less (a b : itemOccurrence) : bool :=
  if Occurrence a =? Occurrence b then String.ltb (Item a) (Item b)
  else Occurrence b <? Occurrence a.

Section Top.
(** The order in which a [range] loop visits a map is not specified, and
    neither is the algorithm of [sort.Sort]: both are parameters. *)
Variable range : gmap string itemOccurrence -> list (string * itemOccurrence).
Variable sort_Sort : list itemOccurrence -> list itemOccurrence.

Definition top (i : gmap string itemOccurrence) (count : Z)
  : exec (list itemOccurrence) :=
  let items := fold_left (fun items kv => items ++ [kv.2]) (range i) [] in
  let items := sort_Sort items in
  let items :=
    if Z.of_nat (length items) <? count
    then items ++ replicate (Z.to_nat (count - Z.of_nat (length items)))
                            itemOccurrence_zero
    else items in
  slice items 0 count.

End Top.

(** * Specification-level definitions

    What the specification says in its own words, for comparison with the
    code above. *)

(** The big-endian encoding of [v] on [n] bytes, most significant byte
    first. *)
Fixpoint be (n : nat) (v : Z) : list byte :=
  match n with
  | O => []
  | S n' => byte_of_Z (Z.shiftr v (8 * Z.of_nat n')) :: be n' v
  end.

(** The fields of the wire frame, in wire order. *)
Inductive field : Type :=
| F_NodeID | F_TimeStamp | F_Size
| F_TimeLow | F_TimeMid | F_TimeHiAndVersion
| F_ClockSeqHiAndRes | F_ClockSeqLow | F_Node
| F_Payload
| F_Protocol | F_Submitter | F_CheckSum.

(** The encoding of a UUID and of an event, field by field. *)
Definition UUID_layout (u : UUID) : list (field * list byte) :=
  [ (F_TimeLow, be 4 (TimeLow u));
    (F_TimeMid, be 2 (TimeMid u));
    (F_TimeHiAndVersion, be 2 (TimeHiAndVersion u));
    (F_ClockSeqHiAndRes, be 1 (ClockSeqHiAndRes u));
    (F_ClockSeqLow, be 1 (ClockSeqLow u));
    (F_Node, Node u) ].

Definition body_layout (e : Event) : list (field * list byte) :=
  [ (F_NodeID, be 2 (NodeID e));
    (F_TimeStamp, be 4 (TimeStamp e));
    (F_Size, be 2 (Size e)) ]
  ++ UUID_layout (EventUUID e)
  ++ [ (F_Payload, PayloadBytes e);
       (F_Protocol, be 2 (Protocol e));
       (F_Submitter, be 4 (Submitter e)) ].

Definition frame_layout (e : Event) : list (field * list byte) :=
  body_layout e ++ [ (F_CheckSum, be 4 (CheckSum e)) ].

Definition concat_fields (l : list (field * list byte)) : list byte :=
  concat (map snd l).

(** The events the round trip is about: every integer field holds a value
    of its Go type, [PayloadBytes] has the [Size] bytes the data model
    gives it, and [Payload] and [IP] are what decoding derives from
    [PayloadBytes] and [Submitter]. *)
Record Event_valid (e : Event) : Prop := {
  valid_wf : Event_wf e;
  valid_Size : Size e = Z.of_nat (length (PayloadBytes e));
  valid_Payload : parsePayloadRaw e = Ret e;
  valid_IP : IP e = addr_of_uint32 (Submitter e)
}.

(** The field at which the bytes run out when only the first [k] bytes of
    a frame are there, and how many bytes of that field are left. *)
Fixpoint runs_out (l : list (field * list byte)) (k : nat) : option (field * nat * nat) :=
  match l with
  | [] => None
  | (f, bs) :: l' =>
      if (k <? length bs)%nat then Some (f, k, length bs)
      else runs_out l' (k - length bs)
  end.

(** The labels under which the decoder reports a field. *)
Definition field_label (f : field) (err : error) : error :=
  match f with
  | F_NodeID => Errorf_wrap "reading node ID" err
  | F_TimeStamp => Errorf_wrap "reading time stamp" err
  | F_Size => Errorf_wrap "reading size" err
  | F_TimeLow => Errorf_wrap "reading UUID" (Errorf_wrap "reading time low" err)
  | F_TimeMid => Errorf_wrap "reading UUID" (Errorf_wrap "reading time mid" err)
  | F_TimeHiAndVersion =>
      Errorf_wrap "reading UUID" (Errorf_wrap "reading time hi and version" err)
  | F_ClockSeqHiAndRes =>
      Errorf_wrap "reading UUID" (Errorf_wrap "reading clock seq hi and res" err)
  | F_ClockSeqLow =>
      Errorf_wrap "reading UUID" (Errorf_wrap "reading clock seq low" err)
  | F_Node => Errorf_wrap "reading UUID" (Errorf_wrap "reading node" err)
  | F_Payload => Errorf_wrap "reading payload" err
  | F_Protocol => Errorf_wrap "reading protocol" err
  | F_Submitter => Errorf_wrap "reading submitter" err
  | F_CheckSum => Errorf_wrap "reading checksum" err
  end.

Definition field_short (f : field) (got want : nat) : error :=
  match f with
  | F_Node =>
      Errorf_wrap "reading UUID"
        (Errorf_read_of "reading node" (Z.of_nat got) (Z.of_nat want))
  | _ => Errorf_read_of "reading payload" (Z.of_nat got) (Z.of_nat want)
  end.

Definition raw_field (f : field) : bool :=
  match f with
  | F_Node | F_Payload => true
  | _ => false
  end.

(** The error documented for field [f] when [got] of its [want] bytes are
    there: a fixed-width integer reports end of input, unexpected when
    some of its bytes were read; the two raw fields report a partial read
    as "read X of Y bytes" and no byte at all as end of input. *)
Definition documented_error (f : field) (got want : nat) : error :=
  if raw_field f then
    if Nat.eqb got 0 then field_label f io_EOF else field_short f got want
  else
    field_label f (if Nat.eqb got 0 then io_EOF else io_ErrUnexpectedEOF).

(** ** Test data of the repository *)

(** The event of [TestEvent_MarshalBinary]. *)
Definition joseph_event : Event :=
  {| NodeID := 0x4;
     TimeStamp := 0x5f80f980;
     Size := 0x27;
     EventUUID :=
       {| TimeLow := 0x66643236;
          TimeMid := 0x3039;
          TimeHiAndVersion := 0x3063;
          ClockSeqHiAndRes := 0x2d;
          ClockSeqLow := 0x35;
          Node := [x30; x64; x63; x2d; x31; x31] |};
     Payload := {[ "password" := "Stingercoconut"; "username" := "joseph" ]};
     Protocol := 0x31;
     Submitter := 0x2f78664c;
     CheckSum := 0xf671b203;
     PayloadBytes := bytes_of_string "username:joseph,password:Stingercoconut";
     IP := AddrFrom4 x2f x78 x66 x4c |}.

(** The datagram of [TestEvent_ReadFrom], captured from the event server. *)
Definition captured_datagram : list byte :=
  [ x00; x04; x5f; x87; x91; x00; x00; x92; x35; x61; x62; x65;
    x38; x35; x32; x32; x2d; x34; x66; x36; x30; x2d; x31; x31;
    x75; x73; x65; x72; x2d; x61; x67; x65; x6e; x74; x3a; x4d;
    x6f; x7a; x69; x6c; x6c; x61; x2f; x35; x2e; x30; x20; x28;
    x69; x50; x68; x6f; x6e; x65; x3b; x20; x43; x50; x55; x20;
    x69; x50; x68; x6f; x6e; x65; x20; x4f; x53; x20; x31; x30;
    x5f; x33; x5f; x33; x20; x6c; x69; x6b; x65; x20; x4d; x61;
    x63; x20; x4f; x53; x20; x58; x29; x20; x41; x70; x70; x6c;
    x65; x57; x65; x62; x4b; x69; x74; x2f; x36; x30; x33; x2e;
    x33; x2e; x38; x20; x28; x4b; x48; x54; x4d; x4c; x2c; x20;
    x6c; x69; x6b; x65; x20; x47; x65; x63; x6b; x6f; x29; x20;
    x56; x65; x72; x73; x69; x6f; x6e; x2f; x39; x2e; x30; x20;
    x4d; x6f; x62; x69; x6c; x65; x2f; x31; x33; x42; x31; x34;
    x33; x20; x53; x61; x66; x61; x72; x69; x2f; x36; x30; x31;
    x2e; x31; x00; x0a; xe4; xf7; xb9; xba; x75; x0f; x47; x97 ].

(** The error of decoding the bytes [b] from a buffer into a fresh
    event. *)
Definition decode_error (b : list byte) : exec (option error) :=
  do (_, _, err, _) <- ReadFrom Event_zero (NewBuffer b);
  Ret err.

(** The part of the frame before the payload, and the part after it. *)
Definition header_layout (e : Event) : list (field * list byte) :=
  [ (F_NodeID, be 2 (NodeID e)); (F_TimeStamp, be 4 (TimeStamp e));
    (F_Size, be 2 (Size e)) ] ++ UUID_layout (EventUUID e).

Definition trailer_layout (e : Event) : list (field * list byte) :=
  [ (F_Protocol, be 2 (Protocol e)); (F_Submitter, be 4 (Submitter e));
    (F_CheckSum, be 4 (CheckSum e)) ].

(** The message of the error of decoding [b]. *)
Definition decode_message (b : list byte) : exec (option string) :=
  do err <- decode_error b; Ret (option_map Error err).

(** The fields of an event in the order the decoder assigns them, which
    is the order of the data model. *)
Inductive event_field : Type :=
| EF_NodeID | EF_TimeStamp | EF_Size | EF_EventUUID | EF_PayloadBytes
| EF_Payload | EF_Protocol | EF_Submitter | EF_IP | EF_CheckSum.

Definition decode_order : list event_field :=
  [ EF_NodeID; EF_TimeStamp; EF_Size; EF_EventUUID; EF_PayloadBytes;
    EF_Payload; EF_Protocol; EF_Submitter; EF_IP; EF_CheckSum ].

#[export] Instance event_field_eq_dec : EqDecision event_field.
Proof. solve_decision. Defined.

(** The fields that come after [f]. *)
Fixpoint fields_after (f : event_field) (l : list event_field) : list event_field :=
  match l with
  | [] => []
  | g :: l' => if decide (g = f) then l' else fields_after f l'
  end.

Definition same_field (g : event_field) (e e' : Event) : Prop :=
  match g with
  | EF_NodeID => NodeID e = NodeID e'
  | EF_TimeStamp => TimeStamp e = TimeStamp e'
  | EF_Size => Size e = Size e'
  | EF_EventUUID => EventUUID e = EventUUID e'
  | EF_PayloadBytes => PayloadBytes e = PayloadBytes e'
  | EF_Payload => Payload e = Payload e'
  | EF_Protocol => Protocol e = Protocol e'
  | EF_Submitter => Submitter e = Submitter e'
  | EF_IP => IP e = IP e'
  | EF_CheckSum => CheckSum e = CheckSum e'
  end.

(** The field an error of [Event.ReadFrom] is labelled with. *)
Definition field_of_label (label : string) : option event_field :=
  if String.eqb label "reading node ID" then Some EF_NodeID
  else if String.eqb label "reading time stamp" then Some EF_TimeStamp
  else if String.eqb label "reading size" then Some EF_Size
  else if String.eqb label "reading UUID" then Some EF_EventUUID
  else if String.eqb label "reading payload" then Some EF_PayloadBytes
  else if String.eqb label "reading protocol" then Some EF_Protocol
  else if String.eqb label "reading submitter" then Some EF_Submitter
  else if String.eqb label "reading checksum" then Some EF_CheckSum
  else None.

Definition failing_field (err : error) : option event_field :=
  match err with
  | Errorf_wrap label _ | Errorf_read_of label _ _ => field_of_label label
  | _ => None
  end.

(** The same for the fields of a UUID. *)
Inductive uuid_field : Type :=
| UF_TimeLow | UF_TimeMid | UF_TimeHiAndVersion
| UF_ClockSeqHiAndRes | UF_ClockSeqLow | UF_Node.

Definition uuid_order : list uuid_field :=
  [ UF_TimeLow; UF_TimeMid; UF_TimeHiAndVersion;
    UF_ClockSeqHiAndRes; UF_ClockSeqLow; UF_Node ].

#[export] Instance uuid_field_eq_dec : EqDecision uuid_field.
Proof. solve_decision. Defined.

Fixpoint uuid_fields_after (f : uuid_field) (l : list uuid_field) : list uuid_field :=
  match l with
  | [] => []
  | g :: l' => if decide (g = f) then l' else uuid_fields_after f l'
  end.

Definition same_uuid_field (g : uuid_field) (u u' : UUID) : Prop :=
  match g with
  | UF_TimeLow => TimeLow u = TimeLow u'
  | UF_TimeMid => TimeMid u = TimeMid u'
  | UF_TimeHiAndVersion => TimeHiAndVersion u = TimeHiAndVersion u'
  | UF_ClockSeqHiAndRes => ClockSeqHiAndRes u = ClockSeqHiAndRes u'
  | UF_ClockSeqLow => ClockSeqLow u = ClockSeqLow u'
  | UF_Node => Node u = Node u'
  end.

Definition uuid_field_of_label (label : string) : option uuid_field :=
  if String.eqb label "reading time low" then Some UF_TimeLow
  else if String.eqb label "reading time mid" then Some UF_TimeMid
  else if String.eqb label "reading time hi and version" then Some UF_TimeHiAndVersion
  else if String.eqb label "reading clock seq hi and res" then Some UF_ClockSeqHiAndRes
  else if String.eqb label "reading clock seq low" then Some UF_ClockSeqLow
  else if String.eqb label "reading node" then Some UF_Node
  else None.

Definition failing_uuid_field (err : error) : option uuid_field :=
  match err with
  | Errorf_wrap label _ | Errorf_read_of label _ _ => uuid_field_of_label label
  | _ => None
  end.

(** The frame of [e], handed over in two segments that meet [j] bytes
    into the payload. *)
Definition split_in_payload (e : Event) (j : nat) : Segments :=
  NewSegments
    [ take (24 + j) (MarshalBinary e).1; drop (24 + j) (MarshalBinary e).1 ].

(** The same, for segments that meet [j] bytes into the UUID node. *)
Definition split_in_node (e : Event) (j : nat) : Segments :=
  NewSegments
    [ take (18 + j) (MarshalBinary e).1; drop (18 + j) (MarshalBinary e).1 ].

(** The count and the error of decoding a fresh event from [r]. *)
Definition decode_outcome {R : Type} `{Reader R} (r : R) : exec (Z * option error) :=
  do (_, n, err, _) <- ReadFrom Event_zero r;
  Ret (n, err).

(** ** The lexer, in the words of the specification *)

(** The number of bytes of [s] before the first occurrence of [c]; the
    length of [s] when [c] does not occur. *)
Fixpoint find_byte (c : byte) (s : list byte) : nat :=
  match s with
  | [] => O
  | x :: s' => if decide (x = c) then O else S (find_byte c s')
  end.

Definition occurs (c : byte) (s : list byte) : bool :=
  (find_byte c s <? length s)%nat.

Definition comma : byte := x2c.
Definition colon : byte := x3a.

(** The extent of the value token scanned from the remaining input
    [rest]: up to the first [,] (excluded) when a [:] occurs later and the
    nearest of [,] and [:] is [,]; the whole of [rest] otherwise. *)
Definition value_extent (rest : list byte) : nat :=
  if occurs colon rest && occurs comma rest
     && (find_byte comma rest <? find_byte colon rest)%nat
  then find_byte comma rest
  else length rest.

(** Whether the scan of the value stops at a pair separator, with more
    pairs to come. *)
Definition more_pairs (rest : list byte) : bool :=
  (value_extent rest <? length rest)%nat.

(** Lexer states that differ from [l] in the position and the width
    only. *)
Definition moved (l : lexer) (p w : Z) : lexer :=
  mkLexer (input l) (start l) p w (tokens l).

(** The end-of-input token of a run over the input of [l]. *)
Definition eof_token (l : lexer) : token :=
  mkToken tokenEOF (Z.of_nat (length (input l))) EmptyString.

(** ** The ingestion loop, in the words of the specification *)

Section CollectSpec.
Context {R : Type} `{Reader R}.

(** Decoding one datagram into a fresh event. *)
Definition decode (r : R) : exec (Event * option error) :=
  do (e, _, err, _) <- ReadFrom Event_zero r;
  Ret (e, err).

(** The datagrams the consumer pulls in [k] iterations from iteration [i]
    on: those received before the context is done or the channel is
    closed. *)
Fixpoint pulled (sel : nat -> selected R) (k i : nat) : list R :=
  match k with
  | O => []
  | S k' =>
      match sel i with
      | chan_recv r => r :: pulled sel k' (S i)
      | _ => []
      end
  end.

(** The events decoded from a list of datagrams, those whose decoding
    fails left out. *)
Fixpoint decoded (rs : list R) : list Event :=
  match rs with
  | [] => []
  | r :: rs' =>
      match decode r with
      | Ret (e, None) => e :: decoded rs'
      | _ => decoded rs'
      end
  end.

Definition decode_fails (r : R) : Prop :=
  exists e err, decode r = Ret (e, Some err).

Definition decode_panics (r : R) : Prop :=
  decode r = Panic.

End CollectSpec.

(** The diagnostic logged for a discarded event. *)
Definition discard_warning (e : Event) : log_entry :=
  Warnf ("event " ++ UUID_String (EventUUID e) ++ " is invalid; discarding it").

(** The handshake of [collectEvents]. *)
Definition introduction : list byte := bytes_of_string "Feed me, Seymour!".

(** Environments of the examples.  The connection accepts the handshake;
    the first datagram is the captured one, the second the same with its
    last byte changed, and then the channel is closed. *)
Definition corrupted_datagram : list byte :=
  take 179 captured_datagram ++ [x00].

Definition two_datagrams : env Buffer :=
  mkEnv (fun b => (Z.of_nat (length b), None))
        (fun i => match i with
                  | O => chan_recv (NewBuffer captured_datagram)
                  | S O => chan_recv (NewBuffer corrupted_datagram)
                  | _ => chan_closed
                  end).

(** A peer that sends a frame with an empty payload. *)
Definition empty_payload_datagrams : env Buffer :=
  mkEnv (fun b => (Z.of_nat (length b), None))
        (fun _ => chan_recv (NewBuffer (MarshalBinary Event_zero).1)).

(** ** The ranking, in the words of the specification *)

(** [a] is ranked no later than [b]: a higher count first, and for equal
    counts the label that is lexicographically smaller first. *)
Definition ranks_before (a b : itemOccurrence) : Prop :=
  Occurrence b < Occurrence a
  \/ (Occurrence a = Occurrence b /\ String.leb (Item a) (Item b) = true).

(** The entries of an occurrence map. *)
Definition entries (m : gmap string itemOccurrence) : list itemOccurrence :=
  (map_to_list m).*2.

(** The first [n] of the ranked entries [real], padded with empty
    placeholders when there are fewer than [n]. *)
Definition ranking (real : list itemOccurrence) (n : nat) : list itemOccurrence :=
  take n (real ++ replicate (n - length real) itemOccurrence_zero).

(** The counts of the example: A and B five times, C three times. *)
Definition entry (label : string) (count : Z) : itemOccurrence :=
  mkItemOccurrence [] label count.

Definition counts_ABC : gmap string itemOccurrence :=
  {[ "A" := entry "A" 5; "B" := entry "B" 5; "C" := entry "C" 3 ]}.

(** What [sort.Sort] promises for [Less]: no element is less than one
    before it. *)
Definition sorted_by_Less (l : list itemOccurrence) : Prop :=
  StronglySorted (fun a b => Less b a = false) l.

(** An implementation of the two parameters of [top]: the iteration order
    of the map as a list, and merge sort. *)
#[export] Instance not_Less_dec : RelDecision (fun a b => Less b a = false).
Proof. intros a b. apply _. Defined.

Definition merge_sort_Less (l : list itemOccurrence) : list itemOccurrence :=
  merge_sort (fun a b => Less b a = false) l.

(** ** The checksum, in the words of the specification

    CRC-32/IEEE (ISO-HDLC), bit by bit: the register starts with all bits
    set; every byte is added into its low bits and the register is then
    shifted right eight times, the reflected polynomial [0xEDB88320] being
    added whenever a set bit is shifted out; the result is the complement
    of the register. *)
Definition crc_shift (crc : Z) : Z :=
  if Z.testbit crc 0 then Z.lxor (Z.shiftr crc 1) 0xEDB88320
  else Z.shiftr crc 1.

Definition crc_byte (crc : Z) (b : byte) : Z :=
  Nat.iter 8 crc_shift (Z.lxor crc (Z_of_byte b)).

Definition CRC32_IEEE (data : list byte) : Z :=
  Z.lxor (fold_left crc_byte data 0xFFFFFFFF) 0xFFFFFFFF.

(** ** The datagrams a call of [collectEvents] takes from the queue *)

Section DrawnSpec.
Context {R : Type} `{Reader R}.

(** Decoding [r] returns, with an event or with an error. *)
Definition decode_returns (r : R) : Prop :=
  exists e err, decode r = Ret (e, err).

(** The datagrams the loop takes in [k] iterations from iteration [i] on:
    those received before the context is done or the channel is closed,
    up to and including the first one whose decoding does not give an
    event. *)
Fixpoint consumed (sel : nat -> selected R) (k i : nat) : list R :=
  match k with
  | O => []
  | S k' =>
      match sel i with
      | chan_recv r =>
          r :: match decode r with
               | Ret (_, None) => consumed sel k' (S i)
               | _ => []
               end
      | _ => []
      end
  end.

(** The datagrams a call takes: none when it returns before the loop. *)
Definition drawn (environment : env R) (datagrams : Z) : list R :=
  if datagrams <? 1 then []
  else match (conn_Write environment introduction).2 with
       | Some _ => []
       | None => consumed (select_at environment) (Z.to_nat datagrams) 0
       end.

End DrawnSpec.

(** The datagram size and the cache size [collectEvents] works with, and
    whether the queue of that capacity can be made. *)
Definition datagram_size (size : Z) : Z :=
  if size <? minDatagramBytes then minDatagramBytes
  else if maxDatagramBytes <? size then maxDatagramBytes
  else size.

Definition cache_size (cache : Z) : Z := if cache <? 1 then 1 else cache.

Definition queue_made (size cache : Z) : exec unit :=
  makechan io_Reader_size (queue_capacity (cache_size cache) (datagram_size size)).

(** A peer whose frames are fine, and a cache of [2 ^ 43] megabytes, for
    which [cache << 20] overflows. *)
Definition captured_datagrams : env Buffer :=
  mkEnv (fun b => (Z.of_nat (length b), None))
        (fun _ => chan_recv (NewBuffer captured_datagram)).

(** ** A reader that never delivers

    Every [Read] returns no bytes and no error, which [io.Reader] allows
    but discourages; [io.ReadFull] then calls it again and again. *)
Inductive Stalled : Type := stalled.

#[export] Instance Stalled_Reader : Reader Stalled :=
  fun r _ => ([], None, r).

(** * Further definitions, for the properties of the code that the
      specification does not state *)

(** ** The decoder's byte count *)

(** The offset in the frame at which the bytes of a field start, for a
    payload of [payload] bytes: the total width of the fields decoded
    before it.  [Payload] and [IP] are derived and take no bytes. *)
Definition field_offset (f : event_field) (payload : Z) : Z :=
  match f with
  | EF_NodeID => 0
  | EF_TimeStamp => 2
  | EF_Size => 6
  | EF_EventUUID => 8
  | EF_PayloadBytes => 24
  | EF_Payload | EF_Protocol => 24 + payload
  | EF_Submitter | EF_IP => 26 + payload
  | EF_CheckSum => 30 + payload
  end.

(** ** The checksum, one byte at a time *)

(** The body of the loop of [simpleUpdate], with the IEEE table. *)
Definition simpleUpdate_step (crc : Z) (v : byte) : Z :=
  Z.lxor (crc32.table_entry crc32.IEEE (Z.lxor (Z.land crc 0xFF) (Z_of_byte v)))
         (Z.shiftr crc 8).

(** The most significant byte of each of the 256 table entries. *)
Definition table_tops : list Z :=
  map (fun i => Z.shiftr (crc32.table_entry crc32.IEEE (Z.of_nat i)) 24)
      (seq 0 256).

(** ** The grammar of the payload *)

(** The key:value pairs of a payload, byte for byte: a key runs up to the
    first [:]; the value after it runs up to the first [,] when more pairs
    follow ([more_pairs]) and to the end of the payload otherwise.  Every
    pair takes at least two bytes, so [fuel] pairs are enough for a
    payload of [fuel] bytes. *)
Fixpoint split_pairs (fuel : nat) (b : list byte) : list (list byte * list byte) :=
  match fuel with
  | O => []
  | S fuel' =>
      let k := find_byte colon b in
      let rest := drop (k + 1) b in
      let n := value_extent rest in
      (take k b, take n rest)
      :: (if more_pairs rest then split_pairs fuel' (drop (n + 1) rest) else [])
  end.

Definition pairs (b : list byte) : list (list byte * list byte) :=
  split_pairs (length b) b.

(** The payload that carries the pairs [ps]: [k1:v1,k2:v2,...]. *)
Fixpoint render (ps : list (list byte * list byte)) : list byte :=
  match ps with
  | [] => []
  | (k, v) :: ps' =>
      k ++ colon :: v
        ++ match ps' with
           | [] => []
           | _ :: _ => comma :: render ps'
           end
  end.

(** The tokens of the pairs [ps] in a payload in which the first key
    starts at the offset [off]: every token carries the offset of its
    end. *)
Fixpoint pair_tokens (off : nat) (ps : list (list byte * list byte)) : list token :=
  match ps with
  | [] => []
  | (k, v) :: ps' =>
      let kend := (off + length k)%nat in
      let vend := (kend + 1 + length v)%nat in
      mkToken tokenKey (Z.of_nat kend) (string_of_bytes k)
      :: mkToken tokenValue (Z.of_nat vend) (string_of_bytes v)
      :: pair_tokens (vend + 1) ps'
  end.

(** The map of the pairs [ps]; of several pairs with the same key the
    last one counts. *)
Definition pairs_map (ps : list (list byte * list byte)) : gmap string string :=
  list_to_map
    (reverse (map (fun kv => (string_of_bytes kv.1, string_of_bytes kv.2)) ps)).

(** Pairs that a payload can carry: at least one pair, no [:] in a key or
    a value, and no [,] in a value that is followed by another pair. *)
Fixpoint wf_pairs (ps : list (list byte * list byte)) : Prop :=
  match ps with
  | [] => False
  | (k, v) :: ps' =>
      (colon ∉ k) /\ (colon ∉ v)
      /\ match ps' with
         | [] => True
         | _ :: _ => (comma ∉ v) /\ wf_pairs ps'
         end
  end.

(** ** The findings (findings.go) *)

#[export] Instance Addr_eq_dec : EqDecision Addr.
Proof. solve_decision. Defined.

Definition Addr_encode (a : Addr) : option (N * N * N * N) :=
  match a with
  | Addr_zero => None
  | AddrFrom4 a0 a1 a2 a3 =>
      Some (Byte.to_N a0, Byte.to_N a1, Byte.to_N a2, Byte.to_N a3)
  end.

Definition Addr_decode (x : option (N * N * N * N)) : option Addr :=
  match x with
  | None => Some Addr_zero
  | Some (n0, n1, n2, n3) =>
      match Byte.of_N n0, Byte.of_N n1, Byte.of_N n2, Byte.of_N n3 with
      | Some a0, Some a1, Some a2, Some a3 => Some (AddrFrom4 a0 a1 a2 a3)
      | _, _, _, _ => None
      end
  end.

#[export] Instance Addr_countable : Countable Addr.
Proof.
  apply (inj_countable Addr_encode Addr_decode).
  intros [|a0 a1 a2 a3]; cbn; [reflexivity|].
  by rewrite !Byte.of_to_N.
Defined.

(** [netip.Addr.String]: the zero address, or dotted decimal. *)
Definition Addr_String (a : Addr) : string :=
  match a with
  | Addr_zero => "invalid IP"
  | AddrFrom4 a0 a1 a2 a3 =>
      itoa (Z_of_byte a0) ++ "." ++ itoa (Z_of_byte a1) ++ "."
      ++ itoa (Z_of_byte a2) ++ "." ++ itoa (Z_of_byte a3)
  end%string.

(** [netip.Addr.IsValid] *)
Definition Addr_IsValid (a : Addr) : bool :=
  match a with
  | Addr_zero => false
  | AddrFrom4 _ _ _ _ => true
  end.

(** The accounting of the collected events.  The maps hold pointers to
    entries that no other map shares, so an entry changed through its
    pointer is the entry of the map changed in place. *)
Record findings : Type := mkFindings {
  findings_Events : list Event;
  ByProtocol : gmap Z itemOccurrence;
  Emails : gmap Z (gmap string itemOccurrence);
  Passwords : gmap Z (gmap string itemOccurrence);
  Submitters : gmap Addr itemOccurrence;
  UserAgents : gmap Z (gmap string itemOccurrence);
  Usernames : gmap Z (gmap string itemOccurrence)
}.

Definition set_ByProtocol (v : gmap Z itemOccurrence) (f : findings) : findings :=
  mkFindings (findings_Events f) v (Emails f) (Passwords f) (Submitters f)
             (UserAgents f) (Usernames f).
Definition set_Submitters (v : gmap Addr itemOccurrence) (f : findings) : findings :=
  mkFindings (findings_Events f) (ByProtocol f) (Emails f) (Passwords f) v
             (UserAgents f) (Usernames f).

(** The four payload keys of the [switch] in [populate], and the map of
    the findings each of them selects. *)
Inductive payload_key : Type :=
| key_email | key_password | key_user_agent | key_username.

#[export] Instance payload_key_eq_dec : EqDecision payload_key.
Proof. solve_decision. Defined.

Definition payload_key_of (k : string) : option payload_key :=
  if String.eqb k "email" then Some key_email
  else if String.eqb k "password" then Some key_password
  else if String.eqb k "user-agent" then Some key_user_agent
  else if String.eqb k "username" then Some key_username
  else None.

Definition payload_key_name (c : payload_key) : string :=
  match c with
  | key_email => "email"
  | key_password => "password"
  | key_user_agent => "user-agent"
  | key_username => "username"
  end.

Definition selected_map (c : payload_key) (f : findings)
  : gmap Z (gmap string itemOccurrence) :=
  match c with
  | key_email => Emails f
  | key_password => Passwords f
  | key_user_agent => UserAgents f
  | key_username => Usernames f
  end.

Definition set_selected_map (c : payload_key)
    (v : gmap Z (gmap string itemOccurrence)) (f : findings) : findings :=
  match c with
  | key_email =>
      mkFindings (findings_Events f) (ByProtocol f) v (Passwords f)
                 (Submitters f) (UserAgents f) (Usernames f)
  | key_password =>
      mkFindings (findings_Events f) (ByProtocol f) (Emails f) v
                 (Submitters f) (UserAgents f) (Usernames f)
  | key_user_agent =>
      mkFindings (findings_Events f) (ByProtocol f) (Emails f) (Passwords f)
                 (Submitters f) v (Usernames f)
  | key_username =>
      mkFindings (findings_Events f) (ByProtocol f) (Emails f) (Passwords f)
                 (Submitters f) (UserAgents f) v
  end.

(** The call [log.Warnf("unknown event (%s) payload key %q", uuid, k)],
    with its arguments. *)
Inductive populate_warning : Type :=
| unknown_payload_key (uuid : string) (key : string).

(** [item.Item = label; item.Occurrence++] on the entry found under a
    key, or on a new one. *)
Definition count_item (label : string) (item : option itemOccurrence)
  : itemOccurrence :=
  let item := default itemOccurrence_zero item in
  mkItemOccurrence (Events item) label (int_wrap (Occurrence item + 1)).

(** The same with [item.Events = append(item.Events, event)]. *)
Definition count_event (event : Event) (label : string)
    (item : option itemOccurrence) : itemOccurrence :=
  let item := default itemOccurrence_zero item in
  mkItemOccurrence (Events item ++ [event]) label (int_wrap (Occurrence item + 1)).

Section Populate.
(** The order in which [range] visits the payload of an event. *)
Variable range_payload : gmap string string -> list (string * string).

(** The body of the loop over the payload of [event]. *)
Definition populate_pair (event : Event)
    (st : findings * list populate_warning) (kv : string * string)
  : findings * list populate_warning :=
  let '(f, log) := st in
  let '(k, v) := kv in
  match payload_key_of k with
  | Some c =>
      let m := default ∅ (selected_map c f !! Protocol event) in
      let m := <[v := count_item v (m !! v)]> m in
      (set_selected_map c (<[Protocol event := m]> (selected_map c f)) f, log)
  | None =>
      (f, log ++ [unknown_payload_key (UUID_String (EventUUID event)) k])
  end.

(** The body of the loop over the events. *)
Definition populate_event (st : findings * list populate_warning)
    (event : Event) : findings * list populate_warning :=
  let '(f, log) := st in
  let f :=
    set_ByProtocol
      (<[Protocol event :=
           count_item (Protocol_String (Protocol event))
                      (ByProtocol f !! Protocol event)]> (ByProtocol f)) f in
  let f :=
    set_Submitters
      (<[IP event :=
           count_event event (Addr_String (IP event))
                       (Submitters f !! IP event)]> (Submitters f)) f in
  fold_left (populate_pair event) (range_payload (Payload event)) (f, log).

(** [populate]: the findings after the call and the warnings logged. *)
Definition populate (f : findings) : findings * list populate_warning :=
  fold_left populate_event (findings_Events f)
            (mkFindings (findings_Events f) ∅ ∅ ∅ ∅ ∅ ∅, []).

End Populate.

(** ** The findings, in terms of the events *)

(** The events of a protocol, those of a submitter, and those of a
    protocol whose payload has the value [v] under the key [k]. *)
Definition events_of_protocol (p : Z) (events : list Event) : list Event :=
  filter (fun e => Protocol e = p) events.

Definition events_of_submitter (ip : Addr) (events : list Event) : list Event :=
  filter (fun e => IP e = ip) events.

Definition events_with (p : Z) (k v : string) (events : list Event) : list Event :=
  filter (fun e => Protocol e = p /\ Payload e !! k = Some v) events.

Definition events_with_key (p : Z) (k : string) (events : list Event) : list Event :=
  filter (fun e => Protocol e = p /\ is_Some (Payload e !! k)) events.

(** The entry that counts the events [evs] under [label], keeping the
    events when [keep] is set; no entry when there is no event. *)
Definition counted (keep : bool) (label : string) (evs : list Event)
  : option itemOccurrence :=
  match evs with
  | [] => None
  | _ :: _ =>
      Some (mkItemOccurrence (if keep then evs else []) label
                             (int_wrap (Z.of_nat (length evs))))
  end.

(** The payload keys of an event that [populate] does not know. *)
Definition unknown_keys (range_payload : gmap string string -> list (string * string))
    (event : Event) : list populate_warning :=
  map (fun kv => unknown_payload_key (UUID_String (EventUUID event)) kv.1)
      (filter (fun kv => payload_key_of kv.1 = None) (range_payload (Payload event))).

(** What [populate] has computed when it has gone through the events
    [evs]: every map counts the events of its key, and the log holds the
    unknown keys in the order they were met. *)
Definition populated
    (range_payload : gmap string string -> list (string * string))
    (evs : list Event) (st : findings * list populate_warning) : Prop :=
  (forall p, ByProtocol st.1 !! p
             = counted false (Protocol_String p) (events_of_protocol p evs))
  /\ (forall ip, Submitters st.1 !! ip
                 = counted true (Addr_String ip) (events_of_submitter ip evs))
  /\ (forall c p v,
        selected_map c st.1 !! p ≫= (fun m => m !! v)
        = counted false v (events_with p (payload_key_name c) v evs))
  /\ (forall c p,
        selected_map c st.1 !! p = None
        <-> events_with_key p (payload_key_name c) evs = [])
  /\ st.2 = concat (map (unknown_keys range_payload) evs).

(** ** The report (findings.go) *)

Definition labelColor : Z := 32.

(** The escape character and the line feed of the headings. *)
Definition ESC : string := String (ascii_of_byte x1b) EmptyString.
Definition LF : string := String (ascii_of_byte x0a) EmptyString.

(** [fmt.Sprintf("\u001B[%dm<text>\u001B[0m\n\n", labelColor)] *)
Definition heading (text : string) : string :=
  (ESC ++ "[" ++ itoa labelColor ++ "m" ++ text ++ ESC ++ "[0m" ++ LF ++ LF)%string.

Section Report.
(** The iteration orders of the three kinds of map, [sort.Sort], and the
    table renderer, the header style and the date format of the
    libraries the report is written with. *)
Variable range_payload : gmap string string -> list (string * string).
Variable range : gmap string itemOccurrence -> list (string * itemOccurrence).
Variable range_submitters : gmap Addr itemOccurrence -> list (Addr * itemOccurrence).
Variable sort_Sort : list itemOccurrence -> list itemOccurrence.
Variable Srender : list (list string) -> string * option error.
Variable HeaderStyle_Sprint : string -> string.
Variable Format_date : Z -> string.

(** The rows [{i+1, items[i].Item, items[i].Occurrence}] of
    [for i := range items]. *)
Definition item_rows (items : list itemOccurrence) : list (list string) :=
  imap (fun i item => [itoa (Z.of_nat i + 1); Item item; itoa (Occurrence item)])
       items.

(** The last row of the tables of one protocol. *)
Definition total_row (blank : list string) (proto : Z) (item : itemOccurrence)
  : list string :=
  blank ++ [ HeaderStyle_Sprint ("TOTAL " ++ Protocol_String proto ++ " EVENTS");
             HeaderStyle_Sprint (itoa (Occurrence item)) ].

Definition no_events (proto : Z) (what : string) : error :=
  errors_New ("no " ++ Protocol_String proto ++ " " ++ what).

Definition topEmails (f : findings) (proto count : Z)
  : exec (string * option error) :=
  match ByProtocol f !! proto with
  | None => Ret (EmptyString, Some (no_events proto "events"))
  | Some item =>
      match Emails f !! proto with
      | None => Ret (EmptyString, Some (no_events proto "emails"))
      | Some m =>
          do emails <- top range sort_Sort m count;
          let d := [["#"; "Email"; "Count"]] ++ item_rows emails in
          let d := d ++ [total_row [EmptyString] proto item] in
          Ret (Srender d)
      end
  end.

Definition topUserAgents (f : findings) (proto count : Z)
  : exec (string * option error) :=
  match ByProtocol f !! proto with
  | None => Ret (EmptyString, Some (no_events proto "events"))
  | Some item =>
      match UserAgents f !! proto with
      | None => Ret (EmptyString, Some (no_events proto "user-agents"))
      | Some m =>
          do userAgents <- top range sort_Sort m count;
          let d := [["#"; "User-Agents"; "Count"]] ++ item_rows userAgents in
          let d := d ++ [total_row [EmptyString] proto item] in
          Ret (Srender d)
      end
  end.

(** The rows of [for i := range passwords], which index [usernames] with
    the same [i]. *)
Fixpoint password_user_rows (i : nat) (passwords usernames : list itemOccurrence)
  : exec (list (list string)) :=
  match passwords with
  | [] => Ret []
  | password :: passwords' =>
      match usernames !! i with
      | None => Panic
      | Some username =>
          do rows <- password_user_rows (S i) passwords' usernames;
          Ret ([ itoa (Z.of_nat i + 1); Item password; itoa (Occurrence password);
                 EmptyString; Item username; itoa (Occurrence username) ] :: rows)
      end
  end.

Definition topPasswordsUsers (f : findings) (proto count : Z)
  : exec (string * option error) :=
  match ByProtocol f !! proto with
  | None => Ret (EmptyString, Some (no_events proto "events"))
  | Some item =>
      match Passwords f !! proto with
      | None => Ret (EmptyString, Some (no_events proto "passwords"))
      | Some m =>
          do passwords <- top range sort_Sort m count;
          match Usernames f !! proto with
          | None => Ret (EmptyString, Some (no_events proto "users"))
          | Some m =>
              do usernames <- top range sort_Sort m count;
              do rows <- password_user_rows 0 passwords usernames;
              let d := [["#"; "Passwords"; "Count"; EmptyString; "Users"; "Count"]]
                       ++ rows in
              let d := d ++ [total_row [EmptyString; EmptyString; EmptyString;
                                        EmptyString] proto item] in
              Ret (Srender d)
          end
      end
  end.

(** The rows of [for i := 0; i < count; i++], which index [submitters]. *)
Fixpoint submitter_rows (n i : nat) (submitters : list itemOccurrence)
  : exec (list (list string)) :=
  match n with
  | O => Ret []
  | S n' =>
      match submitters !! i with
      | None => Panic
      | Some s =>
          do rows <- submitter_rows n' (S i) submitters;
          Ret ([itoa (Z.of_nat i + 1); Item s; itoa (Occurrence s)] :: rows)
      end
  end.

Definition topSubmitters (f : findings) (count : Z)
  : exec (string * option error) :=
  let '(submitters, totalEvents) :=
    fold_left
      (fun st kv =>
         (st.1 ++ [mkItemOccurrence [] (Addr_String kv.1) (Occurrence kv.2)],
          int_wrap (st.2 + Occurrence kv.2)))
      (range_submitters (Submitters f)) ([], 0) in
  let submitters := sort_Sort submitters in
  let submitters :=
    if Z.of_nat (length submitters) <? count
    then submitters ++ replicate (Z.to_nat (count - Z.of_nat (length submitters)))
                                 itemOccurrence_zero
    else submitters in
  do rows <- submitter_rows (Z.to_nat count) 0 submitters;
  let d := [["#"; "IP Address"; "Count"]] ++ rows in
  let d := d ++ [[ EmptyString; HeaderStyle_Sprint "TOTAL EVENTS";
                   HeaderStyle_Sprint (itoa totalEvents) ]] in
  Ret (Srender d).

Definition submitter (f : findings) (ipDetail : Addr) : string * option error :=
  let d := [["#"; "Event UUID"; "Protocol"; "Timestamp"]] in
  let d :=
    match Submitters f !! ipDetail with
    | Some item =>
        d ++ imap (fun i e =>
                     [ itoa (Z.of_nat i + 1); UUID_String (EventUUID e);
                       Protocol_String (Protocol e); Format_date (TimeStamp e) ])
                  (Events item)
    | None => d ++ [[EmptyString; "NO"; "EVENTS"; "FOUND"]]
    end in
  Srender d.

(** [report]: the text, the error and the warnings logged by
    [populate]. *)
Definition report (f : findings) (ipDetail : Addr)
  : exec (string * option error * list populate_warning) :=
  let '(f, log) := populate range_payload f in
  let buf := EmptyString in
  (* SSH Top 5 Passwords and Users *)
  do (s, err) <- topPasswordsUsers f SSH 5;
  match err with
  | Some err => Ret (EmptyString, Some err, log)
  | None =>
  let buf := (buf ++ heading ("What are the top 5 " ++ Protocol_String SSH
                              ++ " passwords and users?"))%string in
  let buf := (buf ++ s)%string in
  (* TELNET Top 5 Passwords and Users *)
  do (s, err) <- topPasswordsUsers f TELNET 5;
  match err with
  | Some err => Ret (EmptyString, Some err, log)
  | None =>
  let buf := (buf ++ LF ++ LF ++ LF
              ++ heading ("What are the top 5 " ++ Protocol_String TELNET
                          ++ " passwords and users?"))%string in
  let buf := (buf ++ s)%string in
  (* HTTP Top 30 User-Agents *)
  do (s, err) <- topUserAgents f HTTP 30;
  match err with
  | Some err => Ret (EmptyString, Some err, log)
  | None =>
  let buf := (buf ++ LF ++ LF ++ LF
              ++ heading ("What are the top 30 " ++ Protocol_String HTTP
                          ++ " user-agents?"))%string in
  let buf := (buf ++ s)%string in
  (* SMTP Top 20 Emails *)
  do (s, err) <- topEmails f SMTP 20;
  match err with
  | Some err => Ret (EmptyString, Some err, log)
  | None =>
  let buf := (buf ++ LF ++ LF ++ LF
              ++ heading ("What are the top 20 " ++ Protocol_String SMTP
                          ++ " emails?"))%string in
  let buf := (buf ++ s)%string in
  (* Top 15 Submitters *)
  do (s, err) <- topSubmitters f 15;
  match err with
  | Some err => Ret (EmptyString, Some err, log)
  | None =>
  let buf := (buf ++ LF ++ LF ++ LF
              ++ heading "Who are the top 15 subitters?")%string in
  let buf := (buf ++ s)%string in
  (* Submitter *)
  if Addr_IsValid ipDetail then
    let '(s, err) := submitter f ipDetail in
    match err with
    | Some err => Ret (EmptyString, Some err, log)
    | None =>
    let buf := (buf ++ LF ++ LF ++ LF
                ++ heading ("What events did " ++ Addr_String ipDetail
                            ++ " submit?"))%string in
    let buf := (buf ++ s)%string in
    Ret (buf, None, log)
    end
  else Ret (buf, None, log)
  end end end end end.

End Report.

(** ** The report, in terms of the events *)

(** The error for the first thing the report needs and the events do not
    provide. *)
Definition needs (evs : list Event) (proto : Z) (what : string)
    (otherwise : option error) : option error :=
  match evs with
  | [] => Some (errors_New ("no " ++ Protocol_String proto ++ " " ++ what))
  | _ :: _ => otherwise
  end.

Definition report_error (events : list Event) : option error :=
  needs (events_of_protocol SSH events) SSH "events"
  (needs (events_with_key SSH "password" events) SSH "passwords"
  (needs (events_with_key SSH "username" events) SSH "users"
  (needs (events_of_protocol TELNET events) TELNET "events"
  (needs (events_with_key TELNET "password" events) TELNET "passwords"
  (needs (events_with_key TELNET "username" events) TELNET "users"
  (needs (events_of_protocol HTTP events) HTTP "events"
  (needs (events_with_key HTTP "user-agent" events) HTTP "user-agents"
  (needs (events_of_protocol SMTP events) SMTP "events"
  (needs (events_with_key SMTP "email" events) SMTP "emails"
  None))))))))).

(** Findings for the examples: the event of the repository's test, seen
    twice, and once more with another password. *)
Definition joseph_again : Event :=
  set_PayloadBytes (bytes_of_string "username:joseph,password:hunter2,colour:red")
    (set_Payload {[ "username" := "joseph"; "password" := "hunter2";
                    "colour" := "red" ]} joseph_event).

Definition three_events : findings :=
  mkFindings [joseph_event; joseph_event; joseph_again] ∅ ∅ ∅ ∅ ∅ ∅.




(** * Properties *)

(** ** Bytes and big-endian integers *)

Lemma Z_of_byte_range b : 0 <= Z_of_byte b < 256.
Proof.
  unfold Z_of_byte. pose proof (Byte.to_N_bounded b) as Hb.
  lia.
Qed.

Lemma byte_of_Z_of_byte b : byte_of_Z (Z_of_byte b) = b.
Proof.
  unfold byte_of_Z. pose proof (Z_of_byte_range b) as Hb.
  rewrite Z.mod_small by lia. unfold Z_of_byte. rewrite N2Z.id.
  by rewrite Byte.of_to_N.
Qed.

Lemma Z_of_byte_of_Z v : Z_of_byte (byte_of_Z v) = v mod 256.
Proof.
  unfold byte_of_Z, Z_of_byte.
  pose proof (Z.mod_pos_bound v 256 ltac:(lia)) as Hv.
  destruct (Byte.of_N (Z.to_N (v mod 256))) as [b|] eqn:E.
  - apply Byte.to_of_N in E. rewrite E. lia.
  - apply Byte.of_N_None_iff in E. lia.
Qed.

Lemma lor_shiftl_add lo hi k :
  0 <= k -> 0 <= lo < 2 ^ k -> 0 <= hi ->
  Z.lor lo (Z.shiftl hi k) = lo + hi * 2 ^ k.
Proof.
  intros Hk Hlo Hhi.
  assert (Hland : Z.land lo (Z.shiftl hi k) = 0).
  { apply Z.bits_inj'. intros n Hn. rewrite Z.land_spec, Z.bits_0.
    destruct (Z.lt_ge_cases n k) as [Hlt|Hge].
    - rewrite Z.shiftl_spec_low by lia. apply andb_false_r.
    - rewrite <- (Z.mod_small lo (2 ^ k)) by lia.
      rewrite Z.mod_pow2_bits_high by lia. reflexivity. }
  rewrite <- Z.lxor_lor by exact Hland.
  rewrite <- Z.add_nocarry_lxor by exact Hland.
  rewrite Z.shiftl_mul_pow2 by lia. reflexivity.
Qed.

Lemma Uint16_arith b0 b1 :
  BigEndian.Uint16 b0 b1 = Z_of_byte b1 + Z_of_byte b0 * 256.
Proof.
  unfold BigEndian.Uint16.
  pose proof (Z_of_byte_range b0). pose proof (Z_of_byte_range b1).
  rewrite lor_shiftl_add by lia. reflexivity.
Qed.

Lemma Uint32_arith b0 b1 b2 b3 :
  BigEndian.Uint32 b0 b1 b2 b3 =
  Z_of_byte b3 + Z_of_byte b2 * 256 + Z_of_byte b1 * 65536
  + Z_of_byte b0 * 16777216.
Proof.
  unfold BigEndian.Uint32.
  pose proof (Z_of_byte_range b0). pose proof (Z_of_byte_range b1).
  pose proof (Z_of_byte_range b2). pose proof (Z_of_byte_range b3).
  rewrite (lor_shiftl_add _ _ 8) by lia.
  rewrite (lor_shiftl_add _ _ 16) by lia.
  rewrite (lor_shiftl_add _ _ 24) by lia.
  reflexivity.
Qed.

Lemma Uint16_range b0 b1 : is_uint16 (BigEndian.Uint16 b0 b1).
Proof.
  rewrite Uint16_arith. unfold is_uint16.
  pose proof (Z_of_byte_range b0). pose proof (Z_of_byte_range b1). lia.
Qed.

Lemma Uint32_range b0 b1 b2 b3 : is_uint32 (BigEndian.Uint32 b0 b1 b2 b3).
Proof.
  rewrite Uint32_arith. unfold is_uint32.
  pose proof (Z_of_byte_range b0). pose proof (Z_of_byte_range b1).
  pose proof (Z_of_byte_range b2). pose proof (Z_of_byte_range b3). lia.
Qed.

Lemma byte_of_Z_inj_mod v b : v mod 256 = Z_of_byte b -> byte_of_Z v = b.
Proof.
  intros Hv. rewrite <- (byte_of_Z_of_byte b). unfold byte_of_Z at 1.
  rewrite Hv. pose proof (Z_of_byte_range b).
  unfold byte_of_Z. rewrite (Z.mod_small (Z_of_byte b)) by lia. reflexivity.
Qed.

(** Encoding after decoding gives the bytes back. *)
Lemma AppendUint16_Uint16 b b0 b1 :
  BigEndian.AppendUint16 b (BigEndian.Uint16 b0 b1) = b ++ [b0; b1].
Proof.
  unfold BigEndian.AppendUint16. rewrite Uint16_arith.
  pose proof (Z_of_byte_range b0). pose proof (Z_of_byte_range b1).
  rewrite !Z.shiftr_div_pow2 by lia.
  change (2 ^ 8) with 256.
  f_equal. f_equal; [|f_equal]; apply byte_of_Z_inj_mod;
    Z.to_euclidean_division_equations; lia.
Qed.

Lemma AppendUint32_Uint32 b b0 b1 b2 b3 :
  BigEndian.AppendUint32 b (BigEndian.Uint32 b0 b1 b2 b3) = b ++ [b0; b1; b2; b3].
Proof.
  unfold BigEndian.AppendUint32. rewrite Uint32_arith.
  pose proof (Z_of_byte_range b0). pose proof (Z_of_byte_range b1).
  pose proof (Z_of_byte_range b2). pose proof (Z_of_byte_range b3).
  rewrite !Z.shiftr_div_pow2 by lia.
  change (2 ^ 8) with 256; change (2 ^ 16) with 65536;
    change (2 ^ 24) with 16777216.
  assert (Hb : forall v c, v mod 256 = Z_of_byte c -> byte_of_Z v = c)
    by exact byte_of_Z_inj_mod.
  f_equal.
  f_equal; [|f_equal; [|f_equal; [|f_equal]]]; apply Hb;
    Z.to_euclidean_division_equations; lia.
Qed.

(** Decoding after encoding gives the integer back. *)
Lemma Uint16_AppendUint16 v :
  is_uint16 v ->
  BigEndian.Uint16 (byte_of_Z (Z.shiftr v 8)) (byte_of_Z v) = v.
Proof.
  unfold is_uint16. intros Hv. rewrite Uint16_arith, !Z_of_byte_of_Z.
  rewrite Z.shiftr_div_pow2 by lia. change (2 ^ 8) with 256.
  Z.to_euclidean_division_equations; lia.
Qed.

Lemma Uint32_AppendUint32 v :
  is_uint32 v ->
  BigEndian.Uint32 (byte_of_Z (Z.shiftr v 24)) (byte_of_Z (Z.shiftr v 16))
                   (byte_of_Z (Z.shiftr v 8)) (byte_of_Z v) = v.
Proof.
  unfold is_uint32. intros Hv. rewrite Uint32_arith, !Z_of_byte_of_Z.
  rewrite !Z.shiftr_div_pow2 by lia.
  change (2 ^ 8) with 256; change (2 ^ 16) with 65536;
    change (2 ^ 24) with 16777216.
  Z.to_euclidean_division_equations; lia.
Qed.


(** ** Readers *)

#[export] Instance Buffer_ReaderLaws : ReaderLaws Buffer.
Proof.
  split; unfold Read, Buffer_Reader, Buffer_Read.
  - intros b n bs err b'. destruct (unread b) as [|x l].
    + destruct (Nat.eqb n 0); intros [= <- _ _]; simpl; lia.
    + intros [= <- _ _]. rewrite length_take. lia.
  - intros b n bs b'. destruct (unread b) as [|x l].
    + destruct (Nat.eqb n 0) eqn:E; [apply Nat.eqb_eq in E; lia | discriminate].
    + intros [= <- _] Hn. rewrite length_take. simpl. lia.
Qed.

Lemma skip_empty_head l seg rest : skip_empty l = seg :: rest -> seg <> [].
Proof.
  induction l as [|[|x t] l IH]; simpl; [discriminate | exact IH |].
  intros [= <- _]. discriminate.
Qed.

#[export] Instance Segments_ReaderLaws : ReaderLaws Segments.
Proof.
  split; unfold Read, Segments_Reader, Segments_Read.
  - intros s n bs err s'. destruct (skip_empty (pending s)) as [|seg rest].
    + destruct (Nat.eqb n 0); intros [= <- _ _]; simpl; lia.
    + intros [= <- _ _]. rewrite length_take. lia.
  - intros s n bs s'. destruct (skip_empty (pending s)) as [|seg rest] eqn:E.
    + destruct (Nat.eqb n 0) eqn:E0; [apply Nat.eqb_eq in E0; lia | discriminate].
    + intros [= <- _] Hn. apply skip_empty_head in E. rewrite length_take.
      destruct seg; [congruence | simpl; lia].
Qed.

Section ReadFullProps.
Context {R : Type} `{ReaderLaws R}.

(** With a reader that keeps the contract of [io.Reader], the loop
    returns within its budget. *)
Lemma ReadAtLeast_loop_returns fuel : forall r min buf,
  (length buf <= min)%nat -> (min - length buf <= fuel)%nat ->
  exists bs err r',
    ReadAtLeast_loop fuel r min buf = Ret (bs, err, r')
    /\ (length bs <= min)%nat /\ (err = None -> length bs = min).
Proof.
  induction fuel as [|fuel IH]; intros r min buf Hle Hfuel;
    cbn [ReadAtLeast_loop];
    destruct (Nat.ltb_spec (length buf) min) as [Hlt|Hge]; try lia.
  - eexists _, _, _. split; [reflexivity|]. split; [exact Hle | intros _; lia].
  - destruct (Read r (min - length buf)) as [[bs1 err1] r1] eqn:ERead.
    pose proof (Read_bound _ _ _ _ _ ERead) as Hb.
    destruct err1 as [e1|].
    + eexists _, _, _. split; [reflexivity|]. rewrite length_app.
      split; [lia | discriminate].
    + pose proof (Read_progress _ _ _ _ ERead ltac:(lia)) as Hp.
      apply IH; rewrite length_app; lia.
  - eexists _, _, _. split; [reflexivity|]. split; [exact Hle | intros _; lia].
Qed.

(** [io.ReadFull] returns, and without an error it returns exactly the
    bytes asked for. *)
Lemma ReadFull_returns r n :
  exists bs err r',
    ReadFull r n = Ret (bs, err, r') /\ (err = None -> length bs = n).
Proof.
  unfold ReadFull.
  destruct (ReadAtLeast_loop_returns n r n []) as (buf & err & r1 & -> & Hle & Hok);
    cbn [length]; try lia.
  cbn [exec_bind].
  destruct (Nat.leb_spec n (length buf)) as [Hn|Hn].
  - eexists _, _, _. split; [reflexivity|]. intros _. cbn [length] in Hle. lia.
  - destruct err as [[]|]; [destruct (0 <? length buf)%nat | | | | | |];
      eexists _, _, _; (split; [reflexivity|]); try discriminate.
    intros _. auto.
Qed.

Lemma binary_Read_uint8_returns r :
  exists v r', binary_Read_uint8 r = Ret (v, r').
Proof.
  unfold binary_Read_uint8.
  destruct (ReadFull_returns r 1) as (bs & err & r' & -> & _). cbn [exec_bind].
  destruct err; eauto.
Qed.

Lemma binary_Read_uint16_returns r :
  exists v r', binary_Read_uint16 r = Ret (v, r').
Proof.
  unfold binary_Read_uint16.
  destruct (ReadFull_returns r 2) as (bs & err & r' & -> & _). cbn [exec_bind].
  destruct err; eauto.
Qed.

Lemma binary_Read_uint32_returns r :
  exists v r', binary_Read_uint32 r = Ret (v, r').
Proof.
  unfold binary_Read_uint32.
  destruct (ReadFull_returns r 4) as (bs & err & r' & -> & _). cbn [exec_bind].
  destruct err; eauto.
Qed.

End ReadFullProps.

(** A reader that never delivers keeps [io.ReadFull] from returning. *)
Example ReadFull_stalled :
  ReadFull stalled 2 = OutOfFuel
  /\ binary_Read_uint16 stalled = OutOfFuel
  /\ ReadFrom Event_zero stalled = OutOfFuel.
Proof. repeat split; reflexivity. Qed.

(** ** The encoding, field by field *)

Lemma AppendUint16_be b v : BigEndian.AppendUint16 b v = b ++ be 2 v.
Proof. reflexivity. Qed.

Lemma AppendUint32_be b v : BigEndian.AppendUint32 b v = b ++ be 4 v.
Proof. reflexivity. Qed.

Lemma UUID_marshalBinary_layout u :
  UUID_marshalBinary u = concat_fields (UUID_layout u).
Proof.
  unfold UUID_marshalBinary, concat_fields, UUID_layout.
  rewrite !AppendUint16_be, !AppendUint32_be. simpl.
  by rewrite app_nil_r.
Qed.

Lemma concat_fields_app l1 l2 :
  concat_fields (l1 ++ l2) = concat_fields l1 ++ concat_fields l2.
Proof. unfold concat_fields. by rewrite map_app, concat_app. Qed.

(** [marshalBinary] is the concatenation of the big-endian encodings of
    all fields but the checksum, in wire order. *)
Lemma marshalBinary_layout e :
  is_uint16 (Protocol e) ->
  marshalBinary e = concat_fields (body_layout e).
Proof.
  intros HP. unfold marshalBinary, body_layout.
  rewrite !AppendUint16_be, !AppendUint32_be.
  rewrite !concat_fields_app.
  unfold uint16_of_Z. rewrite (Z.mod_small (Protocol e)) by exact HP.
  rewrite UUID_marshalBinary_layout.
  unfold concat_fields. cbn [map concat snd]. rewrite !app_nil_r.
  rewrite <- !app_assoc. reflexivity.
Qed.

Lemma MarshalBinary_layout e :
  is_uint16 (Protocol e) ->
  (MarshalBinary e).1 = concat_fields (frame_layout e).
Proof.
  intros HP. unfold MarshalBinary, frame_layout. cbn [fst].
  rewrite AppendUint32_be, concat_fields_app, marshalBinary_layout by exact HP.
  unfold concat_fields. cbn [map concat snd app]. by rewrite app_nil_r.
Qed.

(** ** Decoding from a [bytes.Buffer] *)

Lemma binary_Read_uint8_Buffer b0 rest :
  binary_Read_uint8 (NewBuffer (b0 :: rest)) = Ret (inl (Z_of_byte b0), NewBuffer rest).
Proof. reflexivity. Qed.

Lemma binary_Read_uint16_Buffer b0 b1 rest :
  binary_Read_uint16 (NewBuffer (b0 :: b1 :: rest))
  = Ret (inl (BigEndian.Uint16 b0 b1), NewBuffer rest).
Proof. reflexivity. Qed.

Lemma binary_Read_uint32_Buffer b0 b1 b2 b3 rest :
  binary_Read_uint32 (NewBuffer (b0 :: b1 :: b2 :: b3 :: rest))
  = Ret (inl (BigEndian.Uint32 b0 b1 b2 b3), NewBuffer rest).
Proof. reflexivity. Qed.

Lemma uint8_roundtrip v : is_uint8 v -> Z_of_byte (byte_of_Z v) = v.
Proof.
  unfold is_uint8. intros Hv. rewrite Z_of_byte_of_Z. apply Z.mod_small. lia.
Qed.

Lemma binary_Read_uint8_be v rest :
  is_uint8 v ->
  binary_Read_uint8 (NewBuffer (be 1 v ++ rest)) = Ret (inl v, NewBuffer rest).
Proof.
  intros Hv. change (be 1 v ++ rest) with (byte_of_Z v :: rest).
  by rewrite binary_Read_uint8_Buffer, uint8_roundtrip.
Qed.

Lemma binary_Read_uint16_be v rest :
  is_uint16 v ->
  binary_Read_uint16 (NewBuffer (be 2 v ++ rest)) = Ret (inl v, NewBuffer rest).
Proof.
  intros Hv.
  change (be 2 v ++ rest) with (byte_of_Z (Z.shiftr v 8) :: byte_of_Z v :: rest).
  by rewrite binary_Read_uint16_Buffer, Uint16_AppendUint16.
Qed.

Lemma binary_Read_uint32_be v rest :
  is_uint32 v ->
  binary_Read_uint32 (NewBuffer (be 4 v ++ rest)) = Ret (inl v, NewBuffer rest).
Proof.
  intros Hv.
  change (be 4 v ++ rest)
    with (byte_of_Z (Z.shiftr v 24) :: byte_of_Z (Z.shiftr v 16)
          :: byte_of_Z (Z.shiftr v 8) :: byte_of_Z v :: rest).
  by rewrite binary_Read_uint32_Buffer, Uint32_AppendUint32.
Qed.

Lemma Buffer_Read_app p t :
  p ++ t <> [] ->
  Read (NewBuffer (p ++ t)) (length p) = (p, None, NewBuffer t).
Proof.
  intros Hne. unfold Read, Buffer_Reader, Buffer_Read. cbn [unread].
  destruct (p ++ t) eqn:E; [congruence|]. rewrite <- E.
  by rewrite take_app_length, drop_app_length.
Qed.

Lemma fill_full dst bs : (length dst <= length bs)%nat -> fill dst bs = bs.
Proof.
  intros Hle. unfold fill. rewrite drop_ge by lia. apply app_nil_r.
Qed.

Lemma parsePayloadRaw_inv e e' :
  parsePayloadRaw e = Ret e' ->
  exists ts, lex (string_of_bytes (PayloadBytes e)) = Ret ts
             /\ e' = set_Payload (parse_tokens ts EmptyString ∅) e.
Proof.
  unfold parsePayloadRaw. cbn [PayloadBytes set_Payload Payload].
  destruct (lex (string_of_bytes (PayloadBytes e))) as [ts| |]; cbn;
    try discriminate.
  intros [= <-]. eauto.
Qed.

(** One big-endian field read from the head of a buffer. *)
Ltac read_be :=
  first [ rewrite binary_Read_uint8_be by assumption
        | rewrite binary_Read_uint16_be by assumption
        | rewrite binary_Read_uint32_be by assumption ];
  cbn [exec_bind].

Lemma UUID_ReadFrom_marshal u0 u rest :
  UUID_wf u -> (length (Node u0) <= 6)%nat ->
  UUID_ReadFrom u0 (NewBuffer (UUID_marshalBinary u ++ rest))
  = Ret (u, 16, None, NewBuffer rest).
Proof.
  intros [H1 H2 H3 H4 H5 H6] H0.
  rewrite UUID_marshalBinary_layout. unfold concat_fields, UUID_layout.
  cbn [map concat snd]. rewrite app_nil_r, <- !app_assoc.
  unfold UUID_ReadFrom.
  do 5 read_be.
  destruct u as [tl tm th ch cl nd]. cbn in H6 |- *.
  rewrite <- H6 at 1. rewrite Buffer_Read_app.
  - rewrite H6. cbn. rewrite fill_full by lia. reflexivity.
  - destruct nd; [discriminate | discriminate].
Qed.

(** Projections of updated records. *)
Ltac record_simpl :=
  cbn [NodeID TimeStamp Size EventUUID Payload Protocol Submitter CheckSum
       PayloadBytes IP set_NodeID set_TimeStamp set_Size set_EventUUID
       set_Payload set_Protocol set_Submitter set_CheckSum set_PayloadBytes
       set_IP TimeLow TimeMid TimeHiAndVersion ClockSeqHiAndRes ClockSeqLow
       Node set_TimeLow set_TimeMid set_TimeHiAndVersion set_ClockSeqHiAndRes
       set_ClockSeqLow set_Node] in *.

(** Decoding the encoding of a valid event gives the event back. *)
Lemma ReadFrom_frame e0 e rest :
  Event_valid e -> (length (Node (EventUUID e0)) <= 6)%nat ->
  ReadFrom e0 (NewBuffer ((MarshalBinary e).1 ++ rest))
  = Ret (e, Z.of_nat (length (MarshalBinary e).1), None, NewBuffer rest).
Proof.
  intros [[HN HT HS HU HP HSub HC] Hlen Hpay HIP] H0.
  assert (Hl : Z.of_nat (length (MarshalBinary e).1) = 34 + Size e).
  { rewrite MarshalBinary_layout by assumption.
    unfold concat_fields, frame_layout, body_layout, UUID_layout.
    cbn [map concat snd app]. rewrite !length_app. cbn [length be].
    destruct HU as [_ _ _ _ _ ->]. lia. }
  rewrite Hl. unfold MarshalBinary, marshalBinary. cbn [fst].
  rewrite !AppendUint16_be, !AppendUint32_be, <- !app_assoc. cbn [app].
  unfold uint16_of_Z. rewrite (Z.mod_small (Protocol e)) by exact HP.
  unfold ReadFrom.
  do 3 read_be.
  record_simpl.
  rewrite UUID_ReadFrom_marshal by assumption. cbn [exec_bind].
  record_simpl.
  rewrite length_replicate, Hlen, Nat2Z.id.
  rewrite Buffer_Read_app by (destruct (PayloadBytes e); discriminate).
  rewrite fill_full by (rewrite length_replicate; lia).
  unfold uint16_of_Z. rewrite <- Hlen, (Z.mod_small (Size e)) by exact HS.
  rewrite Z.eqb_refl. cbn [negb].
  apply parsePayloadRaw_inv in Hpay as (toks & Hlex & Hpl).
  unfold parsePayloadRaw. record_simpl. rewrite Hlex.
  cbn [exec_bind].
  do 3 read_be.
  rewrite <- HIP.
  replace (0 + 2 + 4 + 2 + 16 + Size e + 2 + 4 + 4) with (34 + Size e) by lia.
  do 4 f_equal.
  destruct e as [nid ts sz u pl pr sb cs pb ip]. record_simpl.
  unfold set_Payload in Hpl. record_simpl. injection Hpl as Hpl.
  rewrite <- Hpl. reflexivity.
Qed.

(** C1. For every valid event [e] (integer fields within their Go types,
    [Size] bytes of payload, and [Payload] and [IP] derivable from the
    other fields), decoding [MarshalBinary e] with the [ReadFrom] of a
    fresh event succeeds, consumes exactly the bytes of the encoding, and
    yields an event equal to [e] in every field. *)
Theorem ReadFrom_MarshalBinary_roundtrip e :
  Event_valid e ->
  ReadFrom Event_zero (NewBuffer (MarshalBinary e).1)
  = Ret (e, Z.of_nat (length (MarshalBinary e).1), None, NewBuffer []).
Proof.
  intros Hv. rewrite <- (app_nil_r (MarshalBinary e).1) at 1.
  apply ReadFrom_frame; [exact Hv | cbn; lia].
Qed.

Lemma joseph_event_valid : Event_valid joseph_event.
Proof.
  split.
  - split; [| | | split | | |]; unfold is_uint8, is_uint16, is_uint32;
      cbn; try lia; reflexivity.
  - reflexivity.
  - vm_compute. reflexivity.
  - reflexivity.
Qed.

Lemma ReadFrom_MarshalBinary_roundtrip_witness :
  Event_valid joseph_event /\
  ReadFrom Event_zero (NewBuffer (MarshalBinary joseph_event).1)
  = Ret (joseph_event, Z.of_nat (length (MarshalBinary joseph_event).1), None,
         NewBuffer []).
Proof.
  split; [exact joseph_event_valid |].
  apply (ReadFrom_MarshalBinary_roundtrip joseph_event), joseph_event_valid.
Defined.

Example captured_datagram_decodes :
  exists e, ReadFrom Event_zero (NewBuffer captured_datagram)
            = Ret (e, 180, None, NewBuffer [])
            /\ Valid e = true
            /\ Valid (set_CheckSum (CheckSum e + 1) e) = false
            /\ UUID_String (EventUUID e) = "35616265-3835-3232-2d34-6636302d3131"%string.
Proof. eexists. split; [vm_compute; reflexivity |]. vm_compute. auto. Qed.

(** ** Encoding what was decoded *)

Lemma be_1_Z_of_byte b0 : be 1 (Z_of_byte b0) = [b0].
Proof.
  change (be 1 (Z_of_byte b0)) with [byte_of_Z (Z_of_byte b0)].
  by rewrite byte_of_Z_of_byte.
Qed.

Lemma be_2_Uint16 b0 b1 : be 2 (BigEndian.Uint16 b0 b1) = [b0; b1].
Proof. apply (AppendUint16_Uint16 []). Qed.

Lemma be_4_Uint32 b0 b1 b2 b3 : be 4 (BigEndian.Uint32 b0 b1 b2 b3) = [b0; b1; b2; b3].
Proof. apply (AppendUint32_Uint32 []). Qed.

Lemma binary_Read_uint8_Buffer_inv b v r' :
  binary_Read_uint8 (NewBuffer b) = Ret (inl v, r') ->
  b = be 1 v ++ unread r' /\ is_uint8 v.
Proof.
  destruct b as [|b0 rest]; [discriminate|].
  rewrite binary_Read_uint8_Buffer. intros [= <- <-].
  rewrite be_1_Z_of_byte. split; [reflexivity | apply Z_of_byte_range].
Qed.

Lemma binary_Read_uint16_Buffer_inv b v r' :
  binary_Read_uint16 (NewBuffer b) = Ret (inl v, r') ->
  b = be 2 v ++ unread r' /\ is_uint16 v.
Proof.
  destruct b as [|b0 [|b1 rest]]; [discriminate..|].
  rewrite binary_Read_uint16_Buffer. intros [= <- <-].
  rewrite be_2_Uint16. split; [reflexivity | apply Uint16_range].
Qed.

Lemma binary_Read_uint32_Buffer_inv b v r' :
  binary_Read_uint32 (NewBuffer b) = Ret (inl v, r') ->
  b = be 4 v ++ unread r' /\ is_uint32 v.
Proof.
  destruct b as [|b0 [|b1 [|b2 [|b3 rest]]]]; [discriminate..|].
  rewrite binary_Read_uint32_Buffer. intros [= <- <-].
  rewrite be_4_Uint32. split; [reflexivity | apply Uint32_range].
Qed.

Lemma Buffer_Read_inv b n bs err r' :
  Read (NewBuffer b) n = (bs, err, r') ->
  bs = take n b /\ unread r' = drop n b.
Proof.
  unfold Read, Buffer_Reader, Buffer_Read. cbn [unread].
  destruct b as [|x b].
  - destruct (Nat.eqb n 0); intros [= <- _ <-]; by rewrite take_nil, drop_nil.
  - intros [= <- _ <-]. auto.
Qed.

Lemma UUID_ReadFrom_Buffer_inv u0 b u i r' :
  (length (Node u0) <= 6)%nat ->
  UUID_ReadFrom u0 (NewBuffer b) = Ret (u, i, None, r') ->
  b = UUID_marshalBinary u ++ unread r' /\ UUID_wf u /\ i = 16.
Proof.
  intros H0. unfold UUID_ReadFrom.
  destruct (binary_Read_uint32 (NewBuffer b)) as [[[v1|?] [b1]]| |] eqn:E1;
    cbn [exec_bind]; [|discriminate..].
  apply binary_Read_uint32_Buffer_inv in E1 as [-> W1].
  destruct (binary_Read_uint16 (NewBuffer b1)) as [[[v2|?] [b2]]| |] eqn:E2;
    cbn [exec_bind]; [|discriminate..].
  apply binary_Read_uint16_Buffer_inv in E2 as [-> W2].
  destruct (binary_Read_uint16 (NewBuffer b2)) as [[[v3|?] [b3]]| |] eqn:E3;
    cbn [exec_bind]; [|discriminate..].
  apply binary_Read_uint16_Buffer_inv in E3 as [-> W3].
  destruct (binary_Read_uint8 (NewBuffer b3)) as [[[v4|?] [b4]]| |] eqn:E4;
    cbn [exec_bind]; [|discriminate..].
  apply binary_Read_uint8_Buffer_inv in E4 as [-> W4].
  destruct (binary_Read_uint8 (NewBuffer b4)) as [[[v5|?] [b5]]| |] eqn:E5;
    cbn [exec_bind]; [|discriminate..].
  apply binary_Read_uint8_Buffer_inv in E5 as [-> W5].
  destruct (Read (NewBuffer b5) 6) as [[bs [err|]] [b6]] eqn:E6;
    [discriminate|].
  apply Buffer_Read_inv in E6 as [Hbs Hb6]. cbn [unread] in *.
  destruct (Z.eqb_spec (Z.of_nat (length bs)) 6) as [Hlen|]; [|discriminate].
  cbn [negb]. intros [= <- <- <-]. record_simpl.
  rewrite fill_full by lia.
  split; [|split; [split; record_simpl; try assumption; lia | lia]].
  rewrite UUID_marshalBinary_layout. unfold concat_fields, UUID_layout.
  cbn [map concat snd]. record_simpl. rewrite app_nil_r, <- !app_assoc.
  do 5 f_equal. rewrite Hbs, Hb6. symmetry. apply take_drop.
Qed.

(** A successful decode consumes exactly the encoding of the event it
    returns. *)
Lemma ReadFrom_Buffer_inv e0 b e n r' :
  (length (Node (EventUUID e0)) <= 6)%nat ->
  ReadFrom e0 (NewBuffer b) = Ret (e, n, None, r') ->
  b = (MarshalBinary e).1 ++ unread r'
  /\ Event_wf e
  /\ Size e = Z.of_nat (length (PayloadBytes e))
  /\ n = Z.of_nat (length (MarshalBinary e).1).
Proof.
  intros H0. unfold ReadFrom.
  destruct (binary_Read_uint16 (NewBuffer b)) as [[[v1|?] [b1]]| |] eqn:E1;
    cbn [exec_bind]; [|discriminate..].
  apply binary_Read_uint16_Buffer_inv in E1 as [-> W1].
  destruct (binary_Read_uint32 (NewBuffer b1)) as [[[v2|?] [b2]]| |] eqn:E2;
    cbn [exec_bind]; [|discriminate..].
  apply binary_Read_uint32_Buffer_inv in E2 as [-> W2].
  destruct (binary_Read_uint16 (NewBuffer b2)) as [[[v3|?] [b3]]| |] eqn:E3;
    cbn [exec_bind]; [|discriminate..].
  apply binary_Read_uint16_Buffer_inv in E3 as [-> W3].
  record_simpl.
  destruct (UUID_ReadFrom (EventUUID e0) (NewBuffer b3))
    as [[[[u i] [err|]] [b4]]| |] eqn:E4; cbn [exec_bind];
    [discriminate| |discriminate..].
  apply UUID_ReadFrom_Buffer_inv in E4 as (-> & WU & ->); [|exact H0].
  record_simpl. rewrite length_replicate.
  destruct (Read (NewBuffer b4) (Z.to_nat v3)) as [[bs [err|]] [b5]] eqn:E5;
    [discriminate|].
  pose proof (Read_bound _ _ _ _ _ E5) as Hbound.
  apply Buffer_Read_inv in E5 as [Hbs Hb5]. cbn [unread] in *.
  unfold uint16_of_Z.
  destruct (Z.eqb_spec (Z.of_nat (length bs) mod 65536) v3) as [Hlen|];
    [|discriminate].
  cbn [negb]. unfold is_uint16 in W3.
  rewrite Z.mod_small in Hlen by lia.
  rewrite fill_full by (rewrite length_replicate; lia).
  destruct (parsePayloadRaw _) as [e1| |] eqn:EP; cbn [exec_bind];
    [|discriminate..].
  apply parsePayloadRaw_inv in EP as (toks & _ & ->). record_simpl.
  destruct (binary_Read_uint16 (NewBuffer b5)) as [[[v6|?] [b6]]| |] eqn:E6;
    cbn [exec_bind]; [|discriminate..].
  apply binary_Read_uint16_Buffer_inv in E6 as [-> W6].
  destruct (binary_Read_uint32 (NewBuffer b6)) as [[[v7|?] [b7]]| |] eqn:E7;
    cbn [exec_bind]; [|discriminate..].
  apply binary_Read_uint32_Buffer_inv in E7 as [-> W7].
  destruct (binary_Read_uint32 (NewBuffer b7)) as [[[v8|?] [b8]]| |] eqn:E8;
    cbn [exec_bind]; [|discriminate..].
  apply binary_Read_uint32_Buffer_inv in E8 as [-> W8].
  intros [= <- <- <-]. record_simpl. cbn [unread].
  match goal with
  | |- context [MarshalBinary ?x] =>
      assert (HM : (MarshalBinary x).1
                   = be 2 v1 ++ be 4 v2 ++ be 2 v3 ++ UUID_marshalBinary u ++ bs
                     ++ be 2 v6 ++ be 4 v7 ++ be 4 v8)
  end.
  { rewrite MarshalBinary_layout by (record_simpl; exact W6).
    unfold frame_layout, body_layout. record_simpl.
    rewrite !concat_fields_app, <- UUID_marshalBinary_layout.
    unfold concat_fields. cbn [map concat snd].
    rewrite !app_nil_r, <- !app_assoc. reflexivity. }
  rewrite HM. split; [|split; [|split]].
  - cbn [unread] in Hb5. rewrite <- !app_assoc. do 4 f_equal.
    rewrite <- (take_drop (Z.to_nat v3) b4) at 1. rewrite <- Hbs, <- Hb5.
    reflexivity.
  - split; record_simpl; assumption.
  - record_simpl. lia.
  - rewrite !length_app. cbn [length be].
    assert (length (UUID_marshalBinary u) = 16%nat) as ->.
    { rewrite UUID_marshalBinary_layout. unfold concat_fields, UUID_layout.
      cbn [map concat snd]. rewrite !length_app. cbn [length be].
      destruct WU as [_ _ _ _ _ ->]. reflexivity. }
    lia.
Qed.

(** ** The checksum *)

Lemma lxor_range n a b :
  0 <= n -> 0 <= a < 2 ^ n -> 0 <= b < 2 ^ n -> 0 <= Z.lxor a b < 2 ^ n.
Proof.
  intros Hn Ha Hb.
  assert (Hnn : 0 <= Z.lxor a b) by (apply Z.lxor_nonneg; lia).
  split; [exact Hnn|].
  replace (Z.lxor a b) with (Z.lxor a b mod 2 ^ n);
    [apply Z.mod_pos_bound; lia|].
  apply Z.bits_inj'. intros i Hi.
  destruct (Z.lt_ge_cases i n) as [Hlt|Hge].
  - by rewrite Z.mod_pow2_bits_low.
  - rewrite Z.mod_pow2_bits_high by lia. rewrite Z.lxor_spec.
    rewrite <- (Z.mod_small a (2 ^ n)), <- (Z.mod_small b (2 ^ n)) by lia.
    by rewrite !Z.mod_pow2_bits_high by lia.
Qed.

Lemma shiftr_range n k a : 0 <= k -> 0 <= a < 2 ^ n -> 0 <= Z.shiftr a k < 2 ^ n.
Proof.
  intros Hk Ha. rewrite Z.shiftr_div_pow2 by lia.
  assert (0 < 2 ^ k) by (apply Z.pow_pos_nonneg; lia).
  split; [apply Z.div_pos; lia|].
  apply Z.le_lt_trans with a; [|lia]. apply Z.div_le_upper_bound; nia.
Qed.

Lemma table_entry_loop_range j crc :
  is_uint32 crc -> is_uint32 (crc32.table_entry_loop j crc32.IEEE crc).
Proof.
  unfold is_uint32. revert crc.
  induction j as [|j IH]; intros crc Hc; cbn [crc32.table_entry_loop];
    [exact Hc|].
  apply IH. pose proof (shiftr_range 32 1 crc ltac:(lia) Hc) as Hs.
  destruct (Z.testbit crc 0); [|exact Hs].
  apply (lxor_range 32); [lia | exact Hs | unfold crc32.IEEE; lia].
Qed.

Lemma ChecksumIEEE_range data : is_uint32 (crc32.ChecksumIEEE data).
Proof.
  unfold crc32.ChecksumIEEE, crc32.update.
  assert (H : forall crc, is_uint32 crc ->
    is_uint32 (fold_left
      (fun crc v =>
         Z.lxor (crc32.table_entry crc32.IEEE
                   (Z.lxor (Z.land crc 0xFF) (Z_of_byte v)))
                (Z.shiftr crc 8)) data crc)).
  { induction data as [|v data IH]; intros crc Hc; cbn [fold_left];
      [exact Hc|].
    apply IH. unfold is_uint32 in *. apply (lxor_range 32); [lia| |].
    - apply table_entry_loop_range. unfold is_uint32.
      pose proof (Z_of_byte_range v).
      assert (0 <= Z.land crc 255 < 2 ^ 8).
      { change 255 with (Z.ones 8). rewrite Z.land_ones by lia.
        apply Z.mod_pos_bound. lia. }
      pose proof (lxor_range 8 (Z.land crc 255) (Z_of_byte v)
                    ltac:(lia) ltac:(lia) ltac:(lia)). lia.
    - apply shiftr_range; lia. }
  unfold is_uint32 in *. apply (lxor_range 32); [lia| |lia].
  apply H. apply (lxor_range 32); lia.
Qed.

Lemma marshalBinary_set_CheckSum c e :
  marshalBinary (set_CheckSum c e) = marshalBinary e.
Proof. reflexivity. Qed.

Lemma lxor_pow2_neq a k : 0 <= k -> Z.lxor a (2 ^ k) <> a.
Proof.
  intros Hk Heq. apply (f_equal (fun x => Z.testbit x k)) in Heq.
  rewrite Z.lxor_spec, Z.pow2_bits_true in Heq by lia.
  destruct (Z.testbit a k); discriminate.
Qed.

(** *** The table-driven update and the bitwise definition *)

Lemma crc_shift_lxor_shiftl a h j :
  0 <= j ->
  crc_shift (Z.lxor a (Z.shiftl h (j + 1)))
  = Z.lxor (crc_shift a) (Z.shiftl h j).
Proof.
  intros Hj. unfold crc_shift.
  rewrite Z.lxor_spec, (Z.shiftl_spec_low h) by lia.
  rewrite xorb_false_r, Z.shiftr_lxor, Z.shiftr_shiftl_l by lia.
  replace (j + 1 - 1) with j by lia.
  destruct (Z.testbit a 0); [|reflexivity].
  rewrite !Z.lxor_assoc. f_equal. apply Z.lxor_comm.
Qed.

(** The eight shifts of a table entry act on the low byte only: what is
    above it passes through. *)
Lemma table_entry_loop_lxor j : forall a h,
  crc32.table_entry_loop j crc32.IEEE (Z.lxor a (Z.shiftl h (Z.of_nat j)))
  = Z.lxor (crc32.table_entry_loop j crc32.IEEE a) h.
Proof.
  induction j as [|j IH]; intros a h.
  - cbn [crc32.table_entry_loop Z.of_nat]. by rewrite Z.shiftl_0_r.
  - cbn [crc32.table_entry_loop].
    change (if Z.testbit ?c 0 then Z.lxor (Z.shiftr ?c 1) crc32.IEEE
            else Z.shiftr ?c 1) with (crc_shift c).
    rewrite Nat2Z.inj_succ, <- Z.add_1_r, crc_shift_lxor_shiftl by lia.
    apply IH.
Qed.

Lemma table_entry_loop_iter j : forall crc,
  crc32.table_entry_loop j crc32.IEEE crc = Nat.iter j crc_shift crc.
Proof.
  induction j as [|j IH]; intros crc; [reflexivity|].
  rewrite Nat.iter_succ_r, <- IH. reflexivity.
Qed.

Lemma lxor_byte_split crc b :
  Z.lxor crc (Z_of_byte b)
  = Z.lxor (Z.lxor (Z.land crc 0xFF) (Z_of_byte b))
           (Z.shiftl (Z.shiftr crc 8) 8).
Proof.
  apply Z.bits_inj'. intros i Hi.
  rewrite !Z.lxor_spec, Z.land_spec.
  change 255 with (Z.ones 8).
  destruct (Z.lt_ge_cases i 8) as [Hlt|Hge].
  - rewrite Z.ones_spec_low, Z.shiftl_spec_low by lia.
    by rewrite andb_true_r, xorb_false_r.
  - rewrite Z.ones_spec_high, Z.shiftl_spec, Z.shiftr_spec by lia.
    replace (i - 8 + 8) with i by lia.
    rewrite andb_false_r, xorb_false_l.
    destruct (Z.testbit crc i), (Z.testbit (Z_of_byte b) i); reflexivity.
Qed.

(** One step through the table is one byte of the bitwise definition. *)
Lemma simpleUpdate_crc_byte crc b :
  Z.lxor (crc32.table_entry crc32.IEEE
            (Z.lxor (Z.land crc 0xFF) (Z_of_byte b)))
         (Z.shiftr crc 8)
  = crc_byte crc b.
Proof.
  unfold crc_byte, crc32.table_entry.
  rewrite <- table_entry_loop_iter, (lxor_byte_split crc b).
  symmetry. apply (table_entry_loop_lxor 8).
Qed.

(** [crc32.ChecksumIEEE] computes CRC-32/IEEE. *)
Lemma ChecksumIEEE_CRC32_IEEE data :
  crc32.ChecksumIEEE data = CRC32_IEEE data.
Proof.
  unfold crc32.ChecksumIEEE, crc32.update, CRC32_IEEE.
  rewrite Z.lxor_0_l. f_equal. generalize 4294967295.
  induction data as [|b data IH]; intros crc; cbn [fold_left]; [reflexivity|].
  by rewrite IH, simpleUpdate_crc_byte.
Qed.

(** The check value of the CRC catalogue for CRC-32/ISO-HDLC, and the
    checksum of no bytes. *)
Example CRC32_IEEE_check :
  CRC32_IEEE (bytes_of_string "123456789") = 0xCBF43926
  /\ crc32.ChecksumIEEE (bytes_of_string "123456789") = 0xCBF43926
  /\ CRC32_IEEE [] = 0.
Proof. repeat split; vm_compute; reflexivity. Qed.

(** ** Truncated frames *)

Lemma MarshalBinary_fields e :
  is_uint16 (Protocol e) ->
  (MarshalBinary e).1
  = (be 2 (NodeID e) ++ be 4 (TimeStamp e) ++ be 2 (Size e)
     ++ UUID_marshalBinary (EventUUID e))
    ++ PayloadBytes e
    ++ (be 2 (Protocol e) ++ be 4 (Submitter e) ++ be 4 (CheckSum e)).
Proof.
  intros HP. rewrite MarshalBinary_layout by exact HP.
  unfold frame_layout, body_layout.
  rewrite !concat_fields_app, <- UUID_marshalBinary_layout.
  unfold concat_fields. cbn [map concat snd].
  rewrite !app_nil_r, <- !app_assoc. reflexivity.
Qed.

Lemma length_6_inv {A} (l : list A) :
  length l = 6%nat -> exists a b c d e f, l = [a; b; c; d; e; f].
Proof.
  destruct l as [|a [|b [|c [|d [|e [|f [|g l]]]]]]]; try discriminate.
  eauto 10.
Qed.

Lemma runs_out_header e k :
  (k < 24)%nat -> length (Node (EventUUID e)) = 6%nat ->
  match runs_out (frame_layout e) k with
  | Some (f, got, want) =>
      decode_error (take k (MarshalBinary e).1)
      = Ret (Some (documented_error f got want))
  | None => False
  end.
Proof.
  intros Hk HN.
  destruct e as [nid ts sz [tl tm th ch cl nd] pl pr sb cs pb ip].
  cbn in HN. apply length_6_inv in HN as (n0 & n1 & n2 & n3 & n4 & n5 & ->).
  do 24 (destruct k as [|k]; [vm_compute; reflexivity|]).
  lia.
Qed.

Lemma Buffer_Read_prefix p t :
  Read (NewBuffer (p ++ t)) (length p) = (p, None, NewBuffer t).
Proof.
  destruct (p ++ t) eqn:E.
  - apply app_eq_nil in E as [-> ->]. reflexivity.
  - rewrite <- E. apply Buffer_Read_app. congruence.
Qed.

Lemma Buffer_Read_all l n :
  (0 < length l <= n)%nat -> Read (NewBuffer l) n = (l, None, NewBuffer []).
Proof.
  intros Hl. unfold Read, Buffer_Reader, Buffer_Read. cbn [unread].
  destruct l as [|x l]; [cbn in Hl; lia|].
  by rewrite take_ge, drop_ge by lia.
Qed.

Lemma Buffer_Read_empty n :
  (0 < n)%nat -> Read (NewBuffer []) n = ([], Some io_EOF, NewBuffer []).
Proof.
  intros Hn. unfold Read, Buffer_Reader, Buffer_Read. cbn [unread].
  destruct n; [lia | reflexivity].
Qed.

Lemma runs_out_app l1 l2 j :
  runs_out (l1 ++ l2) (length (concat_fields l1) + j) = runs_out l2 j.
Proof.
  induction l1 as [|[f bs] l1 IH]; [reflexivity|].
  unfold concat_fields in *. cbn [map concat snd app runs_out].
  rewrite length_app.
  destruct (Nat.ltb_spec (length bs + length (concat (map snd l1)) + j)
                         (length bs)) as [H|H]; [lia|].
  rewrite <- IH. f_equal. lia.
Qed.

(** The steps of [ReadFrom] through the header of a frame. *)
Ltac decode_header :=
  unfold decode_error, ReadFrom;
  rewrite <- ?app_assoc;
  do 3 read_be;
  record_simpl;
  rewrite UUID_ReadFrom_marshal by (assumption || (cbn; lia));
  cbn [exec_bind];
  record_simpl;
  rewrite length_replicate.

Lemma frame_layout_parts e :
  frame_layout e
  = header_layout e ++ (F_Payload, PayloadBytes e) :: trailer_layout e.
Proof.
  unfold frame_layout, body_layout, header_layout, trailer_layout.
  by rewrite <- !app_assoc.
Qed.

Lemma header_layout_length e :
  UUID_wf (EventUUID e) -> length (concat_fields (header_layout e)) = 24%nat.
Proof.
  intros [_ _ _ _ _ HN]. unfold concat_fields, header_layout, UUID_layout.
  cbn [map concat snd app]. rewrite !length_app. cbn [length be].
  by rewrite HN.
Qed.

Lemma header_layout_bytes e :
  concat_fields (header_layout e)
  = be 2 (NodeID e) ++ be 4 (TimeStamp e) ++ be 2 (Size e)
    ++ UUID_marshalBinary (EventUUID e).
Proof.
  unfold header_layout.
  rewrite concat_fields_app, <- UUID_marshalBinary_layout.
  unfold concat_fields. cbn [map concat snd]. by rewrite <- !app_assoc.
Qed.

Lemma runs_out_payload e j :
  Event_valid e -> (j < length (PayloadBytes e))%nat ->
  match runs_out (frame_layout e) (24 + j) with
  | Some (f, got, want) =>
      decode_error (take (24 + j) (MarshalBinary e).1)
      = Ret (Some (documented_error f got want))
  | None => False
  end.
Proof.
  intros [[HN HT HS HU HP HSub HC] Hlen Hpay HIP] Hj.
  rewrite <- (header_layout_length e HU), frame_layout_parts, runs_out_app.
  cbn [runs_out].
  destruct (Nat.ltb_spec j (length (PayloadBytes e))) as [_|?]; [|lia].
  rewrite MarshalBinary_fields, <- header_layout_bytes by assumption.
  rewrite take_app_add, take_app_le by lia.
  rewrite header_layout_bytes.
  decode_header. rewrite Hlen, Nat2Z.id.
  destruct j as [|j].
  - rewrite take_0, Buffer_Read_empty by lia. reflexivity.
  - rewrite Buffer_Read_all by (rewrite length_take; lia).
    unfold uint16_of_Z, is_uint16 in *.
    rewrite length_take, Nat.min_l by lia.
    rewrite Z.mod_small by lia.
    destruct (Z.eqb_spec (Z.of_nat (S j)) (Z.of_nat (length (PayloadBytes e))))
      as [Heq|_]; [lia|].
    reflexivity.
Qed.

Lemma runs_out_trailer e j :
  Event_valid e -> (j < 10)%nat ->
  match runs_out (frame_layout e) (24 + (length (PayloadBytes e) + j)) with
  | Some (f, got, want) =>
      decode_error (take (24 + (length (PayloadBytes e) + j)) (MarshalBinary e).1)
      = Ret (Some (documented_error f got want))
  | None => False
  end.
Proof.
  intros [[HN HT HS HU HP HSub HC] Hlen Hpay HIP] Hj.
  rewrite <- (header_layout_length e HU), frame_layout_parts, runs_out_app.
  cbn [runs_out].
  destruct (Nat.ltb_spec (length (PayloadBytes e) + j) (length (PayloadBytes e)))
    as [?|_]; [lia|].
  replace (length (PayloadBytes e) + j - length (PayloadBytes e))%nat with j
    by lia.
  rewrite MarshalBinary_fields, <- header_layout_bytes by assumption.
  rewrite take_app_add, take_app_add.
  rewrite header_layout_bytes.
  decode_header. rewrite Hlen, Nat2Z.id, Buffer_Read_prefix.
  rewrite fill_full by (rewrite length_replicate; lia).
  unfold uint16_of_Z, is_uint16 in *. rewrite Z.mod_small by lia.
  rewrite Z.eqb_refl. cbn [negb].
  apply parsePayloadRaw_inv in Hpay as (toks & Hlex & _).
  unfold parsePayloadRaw. record_simpl. rewrite Hlex. cbn [exec_bind].
  unfold trailer_layout.
  destruct e as [nid ts sz u pl pr sb cs pb ip]. record_simpl.
  do 10 (destruct j as [|j]; [vm_compute; reflexivity|]).
  lia.
Qed.

(** C4. For every valid encoded frame and every truncation point,
    decoding the truncated frame fails with the error documented for the
    field at which the bytes run out: a fixed-width integer field reports
    end of input under its label (unexpected when some of its bytes are
    there), the UUID node and the payload report a partial read as "read X
    of Y bytes" and a total absence of bytes as a plain end of input. *)
Theorem truncated_frame_error e k :
  Event_valid e ->
  (k < length (MarshalBinary e).1)%nat ->
  exists f got want,
    runs_out (frame_layout e) k = Some (f, got, want)
    /\ (got < want)%nat
    /\ decode_error (take k (MarshalBinary e).1)
       = Ret (Some (documented_error f got want)).
Proof.
  intros Hv Hk.
  assert (Hcase :
    match runs_out (frame_layout e) k with
    | Some (f, got, want) =>
        decode_error (take k (MarshalBinary e).1)
        = Ret (Some (documented_error f got want))
    | None => False
    end).
  { destruct (Nat.lt_ge_cases k 24) as [H24|H24].
    - apply runs_out_header; [exact H24|].
      apply (wf_Node _ (wf_EventUUID _ (valid_wf _ Hv))).
    - destruct (Nat.lt_ge_cases (k - 24) (length (PayloadBytes e))) as [Hp|Hp].
      + replace k with (24 + (k - 24))%nat by lia.
        by apply runs_out_payload.
      + replace k with (24 + (length (PayloadBytes e)
                              + (k - 24 - length (PayloadBytes e))))%nat by lia.
        apply runs_out_trailer; [exact Hv|].
        rewrite MarshalBinary_fields in Hk
          by apply (wf_Protocol _ (valid_wf _ Hv)).
        rewrite <- header_layout_bytes, !length_app, header_layout_length in Hk
          by apply (wf_EventUUID _ (valid_wf _ Hv)).
        cbn [length be] in Hk. lia. }
  destruct (runs_out (frame_layout e) k) as [[[f got] want]|] eqn:E;
    [|contradiction].
  exists f, got, want. split; [reflexivity|]. split; [|exact Hcase].
  clear Hcase Hk. revert k E. generalize (frame_layout e).
  induction l as [|[f' bs] l IH]; intros k; cbn [runs_out]; [discriminate|].
  destruct (Nat.ltb_spec k (length bs)) as [Hlt|Hge].
  - intros [= _ <- <-]. exact Hlt.
  - apply IH.
Qed.

Lemma truncated_frame_error_witness :
  Event_valid joseph_event /\
  (71 < length (MarshalBinary joseph_event).1)%nat /\
  exists f got want,
    runs_out (frame_layout joseph_event) 71 = Some (f, got, want)
    /\ (got < want)%nat
    /\ decode_error (take 71 (MarshalBinary joseph_event).1)
       = Ret (Some (documented_error f got want)).
Proof.
  split; [exact joseph_event_valid|].
  split; [cbn; lia|].
  apply (truncated_frame_error joseph_event 71 joseph_event_valid).
  cbn; lia.
Defined.

(** The cases of [TestEvent_ReadFrom], with the messages the tests
    expect. *)
Example captured_datagram_truncations :
  decode_message (take (180 - 2) captured_datagram)
    = Ret (Some "reading checksum: unexpected EOF"%string)
  /\ decode_message (take (180 - 5) captured_datagram)
    = Ret (Some "reading submitter: unexpected EOF"%string)
  /\ decode_message (take (180 - 9) captured_datagram)
    = Ret (Some "reading protocol: unexpected EOF"%string)
  /\ decode_message (take (180 - 20) captured_datagram)
    = Ret (Some "reading payload: read 136 of 146 bytes"%string)
  /\ decode_message (take (180 - 156) captured_datagram)
    = Ret (Some "reading payload: EOF"%string)
  /\ decode_message (take (180 - 160) captured_datagram)
    = Ret (Some "reading UUID: reading node: read 2 of 6 bytes"%string)
  /\ decode_message (take (180 - 173) captured_datagram)
    = Ret (Some "reading size: unexpected EOF"%string)
  /\ decode_message (take (180 - 175) captured_datagram)
    = Ret (Some "reading time stamp: unexpected EOF"%string)
  /\ decode_message (take (180 - 179) captured_datagram)
    = Ret (Some "reading node ID: unexpected EOF"%string).
Proof. repeat split; vm_compute; reflexivity. Qed.

(** ** Fields past the point of failure *)

Section Frame.
Context {R : Type} `{Reader R}.

Lemma UUID_ReadFrom_later_fields u0 (r : R) u n err r' :
  UUID_ReadFrom u0 r = Ret (u, n, Some err, r') ->
  exists f, failing_uuid_field err = Some f
            /\ Forall (fun g => same_uuid_field g u0 u)
                      (uuid_fields_after f uuid_order).
Proof.
  unfold UUID_ReadFrom.
  destruct (binary_Read_uint32 r) as [[[v1|e1] r1]| |]; cbn [exec_bind];
    try discriminate.
  2:{ intros [= <- _ <- _]. exists UF_TimeLow. split; [reflexivity|].
      repeat constructor. }
  destruct (binary_Read_uint16 r1) as [[[v2|e2] r2]| |]; cbn [exec_bind];
    try discriminate.
  2:{ intros [= <- _ <- _]. exists UF_TimeMid. split; [reflexivity|].
      repeat constructor. }
  destruct (binary_Read_uint16 r2) as [[[v3|e3] r3]| |]; cbn [exec_bind];
    try discriminate.
  2:{ intros [= <- _ <- _]. exists UF_TimeHiAndVersion. split; [reflexivity|].
      repeat constructor. }
  destruct (binary_Read_uint8 r3) as [[[v4|e4] r4]| |]; cbn [exec_bind];
    try discriminate.
  2:{ intros [= <- _ <- _]. exists UF_ClockSeqHiAndRes. split; [reflexivity|].
      repeat constructor. }
  destruct (binary_Read_uint8 r4) as [[[v5|e5] r5]| |]; cbn [exec_bind];
    try discriminate.
  2:{ intros [= <- _ <- _]. exists UF_ClockSeqLow. split; [reflexivity|].
      repeat constructor. }
  destruct (Read r5 6) as [[bs [e6|]] r6].
  - intros [= <- _ <- _]. exists UF_Node. split; [reflexivity|]. constructor.
  - destruct (negb _); [|discriminate].
    intros [= <- _ <- _]. exists UF_Node. split; [reflexivity|]. constructor.
Qed.

Lemma ReadFrom_later_fields e0 (r : R) e n err r' :
  ReadFrom e0 r = Ret (e, n, Some err, r') ->
  exists f, failing_field err = Some f
            /\ Forall (fun g => same_field g e0 e) (fields_after f decode_order).
Proof.
  unfold ReadFrom.
  destruct (binary_Read_uint16 r) as [[[v1|e1] r1]| |]; cbn [exec_bind];
    try discriminate.
  2:{ intros [= <- _ <- _]. exists EF_NodeID. split; [reflexivity|].
      repeat constructor. }
  destruct (binary_Read_uint32 r1) as [[[v2|e2] r2]| |]; cbn [exec_bind];
    try discriminate.
  2:{ intros [= <- _ <- _]. exists EF_TimeStamp. split; [reflexivity|].
      repeat constructor. }
  destruct (binary_Read_uint16 r2) as [[[v3|e3] r3]| |]; cbn [exec_bind];
    try discriminate.
  2:{ intros [= <- _ <- _]. exists EF_Size. split; [reflexivity|].
      repeat constructor. }
  destruct (UUID_ReadFrom _ r3) as [[[[u i] [e4|]] r4]| |]; cbn [exec_bind];
    try discriminate.
  { intros [= <- _ <- _]. exists EF_EventUUID. split; [reflexivity|].
    repeat constructor. }
  destruct (Read r4 _) as [[bs [e5|]] r5].
  { intros [= <- _ <- _]. exists EF_PayloadBytes. split; [reflexivity|].
    repeat constructor. }
  destruct (negb _).
  { intros [= <- _ <- _]. exists EF_PayloadBytes. split; [reflexivity|].
    repeat constructor. }
  destruct (parsePayloadRaw _) as [e6| |] eqn:EP; cbn [exec_bind];
    [|discriminate..].
  apply parsePayloadRaw_inv in EP as (toks & _ & ->).
  destruct (binary_Read_uint16 r5) as [[[v7|e7] r7]| |]; cbn [exec_bind];
    try discriminate.
  2:{ intros [= <- _ <- _]. exists EF_Protocol. split; [reflexivity|].
      repeat constructor. }
  destruct (binary_Read_uint32 r7) as [[[v8|e8] r8]| |]; cbn [exec_bind];
    try discriminate.
  2:{ intros [= <- _ <- _]. exists EF_Submitter. split; [reflexivity|].
      repeat constructor. }
  destruct (binary_Read_uint32 r8) as [[[v9|e9] r9]| |]; cbn [exec_bind];
    [discriminate| |discriminate..].
  intros [= <- _ <- _]. exists EF_CheckSum. split; [reflexivity|].
  repeat constructor.
Qed.

End Frame.

(** C9. Decoding is all-or-nothing with respect to later fields: when
    [ReadFrom] fails while reading a field, every field that comes after
    it in the data model keeps the value it had before the call (on a fresh
    event, its zero value), [Payload] and [IP] included. *)
Theorem ReadFrom_later_fields_untouched {R : Type} `{Reader R}
    (e0 : Event) (r : R) e n err r' :
  ReadFrom e0 r = Ret (e, n, Some err, r') ->
  exists f, failing_field err = Some f
            /\ (forall g, g ∈ fields_after f decode_order -> same_field g e0 e).
Proof.
  intros Hfail. apply ReadFrom_later_fields in Hfail as (f & Hf & Hall).
  exists f. split; [exact Hf|]. by apply Forall_forall.
Qed.

Lemma ReadFrom_later_fields_untouched_witness :
  ReadFrom Event_zero (NewBuffer (take 5 captured_datagram))
  = Ret (set_NodeID 4 Event_zero, 2,
         Some (Errorf_wrap "reading time stamp" io_ErrUnexpectedEOF),
         NewBuffer [])
  /\ exists f,
       failing_field (Errorf_wrap "reading time stamp" io_ErrUnexpectedEOF)
       = Some f
       /\ (forall g, g ∈ fields_after f decode_order ->
                     same_field g Event_zero (set_NodeID 4 Event_zero)).
Proof.
  assert (Hrun : ReadFrom Event_zero (NewBuffer (take 5 captured_datagram))
                 = Ret (set_NodeID 4 Event_zero, 2,
                        Some (Errorf_wrap "reading time stamp" io_ErrUnexpectedEOF),
                        NewBuffer []))
    by (vm_compute; reflexivity).
  split; [exact Hrun|].
  exact (ReadFrom_later_fields_untouched Event_zero
           (NewBuffer (take 5 captured_datagram)) _ _ _ _ Hrun).
Defined.

(** ** Sources that deliver a frame in several reads *)

Lemma binary_Read_uint8_Segments b0 t rest :
  binary_Read_uint8 (NewSegments ((b0 :: t) :: rest))
  = Ret (inl (Z_of_byte b0), NewSegments (t :: rest)).
Proof. reflexivity. Qed.

Lemma binary_Read_uint16_Segments b0 b1 t rest :
  binary_Read_uint16 (NewSegments ((b0 :: b1 :: t) :: rest))
  = Ret (inl (BigEndian.Uint16 b0 b1), NewSegments (t :: rest)).
Proof. reflexivity. Qed.

Lemma binary_Read_uint32_Segments b0 b1 b2 b3 t rest :
  binary_Read_uint32 (NewSegments ((b0 :: b1 :: b2 :: b3 :: t) :: rest))
  = Ret (inl (BigEndian.Uint32 b0 b1 b2 b3), NewSegments (t :: rest)).
Proof. reflexivity. Qed.

Lemma binary_Read_uint8_be_Segments v t rest :
  is_uint8 v ->
  binary_Read_uint8 (NewSegments ((be 1 v ++ t) :: rest))
  = Ret (inl v, NewSegments (t :: rest)).
Proof.
  intros Hv. change (be 1 v ++ t) with (byte_of_Z v :: t).
  by rewrite binary_Read_uint8_Segments, uint8_roundtrip.
Qed.

Lemma binary_Read_uint16_be_Segments v t rest :
  is_uint16 v ->
  binary_Read_uint16 (NewSegments ((be 2 v ++ t) :: rest))
  = Ret (inl v, NewSegments (t :: rest)).
Proof.
  intros Hv.
  change (be 2 v ++ t) with (byte_of_Z (Z.shiftr v 8) :: byte_of_Z v :: t).
  by rewrite binary_Read_uint16_Segments, Uint16_AppendUint16.
Qed.

Lemma binary_Read_uint32_be_Segments v t rest :
  is_uint32 v ->
  binary_Read_uint32 (NewSegments ((be 4 v ++ t) :: rest))
  = Ret (inl v, NewSegments (t :: rest)).
Proof.
  intros Hv.
  change (be 4 v ++ t)
    with (byte_of_Z (Z.shiftr v 24) :: byte_of_Z (Z.shiftr v 16)
          :: byte_of_Z (Z.shiftr v 8) :: byte_of_Z v :: t).
  by rewrite binary_Read_uint32_Segments, Uint32_AppendUint32.
Qed.

(** One big-endian field read from the head of the first segment. *)
Ltac read_be_Segments :=
  first [ rewrite binary_Read_uint8_be_Segments by assumption
        | rewrite binary_Read_uint16_be_Segments by assumption
        | rewrite binary_Read_uint32_be_Segments by assumption ];
  cbn [exec_bind].

(** A read served by a non-empty first segment. *)
Lemma Segments_Read_head seg rest n :
  seg <> [] ->
  Read (NewSegments (seg :: rest)) n
  = (take n seg, None, NewSegments (drop n seg :: rest)).
Proof.
  intros Hne. unfold Read, Segments_Reader, Segments_Read. cbn [pending].
  destruct seg; [congruence | reflexivity].
Qed.

Lemma UUID_ReadFrom_marshal_Segments u0 u t rest :
  UUID_wf u -> (length (Node u0) <= 6)%nat ->
  UUID_ReadFrom u0 (NewSegments ((UUID_marshalBinary u ++ t) :: rest))
  = Ret (u, 16, None, NewSegments (t :: rest)).
Proof.
  intros [H1 H2 H3 H4 H5 H6] H0.
  rewrite UUID_marshalBinary_layout. unfold concat_fields, UUID_layout.
  cbn [map concat snd]. rewrite app_nil_r, <- !app_assoc.
  unfold UUID_ReadFrom.
  do 5 read_be_Segments.
  destruct u as [tl tm th ch cl nd]. record_simpl.
  rewrite Segments_Read_head by (destruct nd; discriminate).
  rewrite take_app_length', drop_app_length' by congruence.
  rewrite H6. cbn [Z.of_nat Pos.of_succ_nat Pos.succ Z.eqb Pos.eqb negb].
  rewrite fill_full by lia. reflexivity.
Qed.

Lemma ReadFrom_split_in_payload e j :
  Event_valid e -> (0 < j < length (PayloadBytes e))%nat ->
  decode_outcome (split_in_payload e j)
  = Ret (24, Some (Errorf_read_of "reading payload" (Z.of_nat j) (Size e))).
Proof.
  intros [[HN HT HS HU HP HSub HC] Hlen Hpay HIP] Hj.
  unfold decode_outcome, split_in_payload.
  rewrite <- (header_layout_length e HU).
  rewrite MarshalBinary_fields, <- header_layout_bytes by assumption.
  rewrite take_app_add, take_app_le by lia.
  rewrite header_layout_bytes.
  unfold ReadFrom. rewrite <- ?app_assoc.
  do 3 read_be_Segments.
  record_simpl.
  rewrite UUID_ReadFrom_marshal_Segments by (assumption || (cbn; lia)).
  cbn [exec_bind].
  record_simpl. rewrite length_replicate.
  rewrite Segments_Read_head.
  2:{ intros Hnil. apply (f_equal length) in Hnil.
      rewrite length_take in Hnil. cbn in Hnil. lia. }
  rewrite take_take, Hlen, Nat2Z.id, Nat.min_r by lia.
  unfold uint16_of_Z, is_uint16 in *.
  rewrite length_take, Nat.min_l by lia. rewrite Z.mod_small by lia.
  destruct (Z.eqb_spec (Z.of_nat j) (Z.of_nat (length (PayloadBytes e))));
    [lia|].
  reflexivity.
Qed.

Lemma ReadFrom_split_in_node e j :
  Event_valid e -> (0 < j < 6)%nat ->
  decode_outcome (split_in_node e j)
  = Ret (8, Some (Errorf_wrap "reading UUID"
                    (Errorf_read_of "reading node" (Z.of_nat j) 6))).
Proof.
  intros [[HN HT HS HU HP HSub HC] Hlen Hpay HIP] Hj.
  unfold split_in_node.
  destruct e as [nid ts sz [tl tm th ch cl nd] pl pr sb cs pb ip].
  destruct HU as [_ _ _ _ _ HNode]. record_simpl.
  apply length_6_inv in HNode as (n0 & n1 & n2 & n3 & n4 & n5 & ->).
  destruct j as [|j]; [lia|].
  do 5 (destruct j as [|j]; [vm_compute; reflexivity|]).
  lia.
Qed.

Lemma split_in_payload_complete e j :
  concat (pending (split_in_payload e j)) = (MarshalBinary e).1.
Proof.
  unfold split_in_payload. cbn [pending concat].
  by rewrite app_nil_r, take_drop.
Qed.

Lemma split_in_node_complete e j :
  concat (pending (split_in_node e j)) = (MarshalBinary e).1.
Proof.
  unfold split_in_node. cbn [pending concat].
  by rewrite app_nil_r, take_drop.
Qed.

(** C10. [ReadFrom] takes the payload, and the UUID node, from a single
    [Read] call and reports "read X of Y bytes" when that call returns
    fewer bytes than needed: a source that holds the complete encoding of
    a valid event and hands it over in two reads that meet inside the
    payload, or inside the node, makes decoding fail, while a buffer, which
    satisfies every read in full, decodes the same bytes. *)
Theorem single_Read_short_count e :
  Event_valid e ->
  (forall j, (0 < j < length (PayloadBytes e))%nat ->
     concat (pending (split_in_payload e j)) = (MarshalBinary e).1
     /\ decode_outcome (split_in_payload e j)
        = Ret (24, Some (Errorf_read_of "reading payload" (Z.of_nat j) (Size e))))
  /\ (forall j, (0 < j < 6)%nat ->
     concat (pending (split_in_node e j)) = (MarshalBinary e).1
     /\ decode_outcome (split_in_node e j)
        = Ret (8, Some (Errorf_wrap "reading UUID"
                          (Errorf_read_of "reading node" (Z.of_nat j) 6))))
  /\ decode_outcome (NewBuffer (MarshalBinary e).1)
     = Ret (Z.of_nat (length (MarshalBinary e).1), None).
Proof.
  intros Hv. split; [|split].
  - intros j Hj. split; [apply split_in_payload_complete|].
    by apply ReadFrom_split_in_payload.
  - intros j Hj. split; [apply split_in_node_complete|].
    by apply ReadFrom_split_in_node.
  - unfold decode_outcome.
    rewrite <- (app_nil_r (MarshalBinary e).1) at 1.
    rewrite (ReadFrom_frame Event_zero e [] Hv) by (cbn; lia).
    reflexivity.
Qed.

Lemma single_Read_short_count_witness :
  Event_valid joseph_event /\
  decode_outcome (split_in_payload joseph_event 9)
  = Ret (24, Some (Errorf_read_of "reading payload" 9 39)).
Proof.
  split; [exact joseph_event_valid|].
  apply (proj1 (single_Read_short_count joseph_event joseph_event_valid) 9%nat).
  cbn; lia.
Defined.

Example split_frame_messages :
  (do (_, err) <- decode_outcome (split_in_payload joseph_event 9);
   Ret (option_map Error err))
  = Ret (Some "reading payload: read 9 of 39 bytes"%string)
  /\ (do (_, err) <- decode_outcome (split_in_node joseph_event 4);
      Ret (option_map Error err))
     = Ret (Some "reading UUID: reading node: read 4 of 6 bytes"%string)
  /\ decode_outcome (NewSegments [take 3 (MarshalBinary joseph_event).1;
                                  drop 3 (MarshalBinary joseph_event).1])
     = Ret (73, None).
Proof. repeat split; vm_compute; reflexivity. Qed.

(** ** The lexer *)

Lemma Z_of_byte_inj a b : Z_of_byte a = Z_of_byte b -> a = b.
Proof.
  intros Heq. rewrite <- (byte_of_Z_of_byte a), <- (byte_of_Z_of_byte b).
  by rewrite Heq.
Qed.

Lemma lor_lower_l a b : 0 <= a -> 0 <= b -> a <= Z.lor a b.
Proof.
  intros Ha Hb.
  assert (Hd : Z.land a (Z.land b (Z.lnot a)) = 0).
  { apply Z.bits_inj'. intros n Hn.
    rewrite !Z.land_spec, Z.lnot_spec, Z.bits_0 by lia.
    destruct (Z.testbit a n), (Z.testbit b n); reflexivity. }
  assert (Hsum : a + Z.land b (Z.lnot a) = Z.lor a b).
  { rewrite Z.add_nocarry_lxor by exact Hd.
    apply Z.bits_inj'. intros n Hn.
    rewrite Z.lor_spec, Z.lxor_spec, Z.land_spec, Z.lnot_spec by lia.
    destruct (Z.testbit a n), (Z.testbit b n); reflexivity. }
  assert (0 <= Z.land b (Z.lnot a)) by (apply Z.land_nonneg; lia).
  lia.
Qed.

Lemma lor_lower_r a b : 0 <= a -> 0 <= b -> b <= Z.lor a b.
Proof. intros. rewrite Z.lor_comm. by apply lor_lower_l. Qed.

Lemma lor_above m a b :
  0 <= a -> 0 <= b -> m <= a \/ m <= b -> m <= Z.lor a b.
Proof.
  intros Ha Hb [H|H].
  - pose proof (lor_lower_l a b Ha Hb). lia.
  - pose proof (lor_lower_r a b Ha Hb). lia.
Qed.

Lemma land_low_bits a k : 0 <= k -> Z.land a (Z.ones k) = a mod 2 ^ k.
Proof. intros. by apply Z.land_ones. Qed.

(** What [DecodeRuneInString] does on a non-empty string: an ASCII byte
    is its own rune; otherwise the rune is at least 0x80 and every byte
    consumed is at least 0x80. *)
Lemma DecodeRuneInString_spec x s :
  let '(r, w) := utf8.DecodeRuneInString (x :: s) in
  1 <= w <= Z.of_nat (length (x :: s))
  /\ ((Z_of_byte x < 128 /\ r = Z_of_byte x /\ w = 1)
      \/ (128 <= r /\ Forall (fun b => 128 <= Z_of_byte b)
                             (take (Z.to_nat w) (x :: s)))).
Proof.
  unfold utf8.DecodeRuneInString.
  pose proof (Z_of_byte_range x) as Hx.
  destruct (Z.ltb_spec (Z_of_byte x) 128) as [Hascii|Hhigh].
  { cbn [length]. split; [lia|]. left. auto. }
  assert (Herr : 1 <= 1 <= Z.of_nat (length (x :: s))
                 /\ ((Z_of_byte x < 128 /\ utf8.RuneError = Z_of_byte x /\ 1 = 1)
                     \/ (128 <= utf8.RuneError
                         /\ Forall (fun b => 128 <= Z_of_byte b)
                                   (take (Z.to_nat 1) (x :: s))))).
  { cbn [length]. split; [lia|]. right. split; [unfold utf8.RuneError; lia|].
    cbn. constructor; [lia | constructor]. }
  destruct (utf8.first (Z_of_byte x)) as [[[sz lo] hi]|] eqn:Hfirst;
    [|exact Herr].
  assert (Hf : (sz = 2%nat \/ sz = 3%nat \/ sz = 4%nat)
               /\ (128 <= lo /\ hi <= 0xBF)
               /\ 0xC2 <= Z_of_byte x
               /\ (sz = 2%nat -> Z_of_byte x < 0xE0)
               /\ (sz = 3%nat -> 0xE0 <= Z_of_byte x < 0xF0
                                 /\ (Z_of_byte x = 0xE0 -> 0xA0 <= lo))
               /\ (sz = 4%nat -> 0xF0 <= Z_of_byte x < 0xF5
                                 /\ (Z_of_byte x = 0xF0 -> 0x90 <= lo))).
  { unfold utf8.first in Hfirst.
    repeat match type of Hfirst with
           | (if ?c then _ else _) = _ => destruct c eqn:?
           end;
      try discriminate; injection Hfirst as <- <- <-;
      repeat match goal with
             | H : (_ <? _) = true |- _ => apply Z.ltb_lt in H
             | H : (_ <? _) = false |- _ => apply Z.ltb_ge in H
             | H : (_ =? _) = true |- _ => apply Z.eqb_eq in H
             | H : (_ =? _) = false |- _ => apply Z.eqb_neq in H
             end;
      repeat split; intros; try discriminate; try lia; auto. }
  destruct Hf as (Hsz & [Hlo Hhi] & Hx2 & H2 & H3 & H4).
  destruct (Nat.ltb_spec (length (x :: s)) sz) as [|Hlen]; [exact Herr|].
  destruct s as [|b1 t1]; [exact Herr|].
  pose proof (Z_of_byte_range b1) as Hb1.
  destruct (Z.ltb_spec (Z_of_byte b1) lo) as [|Hb1lo]; [exact Herr|].
  destruct (Z.ltb_spec hi (Z_of_byte b1)) as [|Hb1hi]; [exact Herr|].
  cbn [orb].
  assert (Hm1 : Z.land (Z_of_byte b1) 0x3F = Z_of_byte b1 mod 64)
    by apply (land_low_bits _ 6 ltac:(lia)).
  destruct (Nat.leb_spec sz 2) as [Hsz2|Hsz2].
  { (* two bytes *)
    cbn [length] in *. split; [lia|]. right. split.
    - assert (Hm0 : Z.land (Z_of_byte x) 0x1F = Z_of_byte x mod 32)
        by apply (land_low_bits _ 5 ltac:(lia)).
      rewrite Hm0, Hm1, Z.shiftl_mul_pow2 by lia.
      assert (sz = 2%nat) as Esz by lia. specialize (H2 Esz).
      apply lor_above; Z.to_euclidean_division_equations; lia.
    - cbn. repeat constructor; lia. }
  destruct t1 as [|b2 t2]; [exact Herr|].
  pose proof (Z_of_byte_range b2) as Hb2.
  unfold utf8.continuation.
  destruct (Z.leb_spec 0x80 (Z_of_byte b2)) as [Hb2lo|]; [|exact Herr].
  destruct (Z.leb_spec (Z_of_byte b2) 0xBF) as [Hb2hi|]; [|exact Herr].
  cbn [andb negb].
  assert (Hm2 : Z.land (Z_of_byte b2) 0x3F = Z_of_byte b2 mod 64)
    by apply (land_low_bits _ 6 ltac:(lia)).
  destruct (Nat.leb_spec sz 3) as [Hsz3|Hsz3].
  { (* three bytes *)
    cbn [length] in *. split; [lia|]. right. split.
    - assert (Hm0 : Z.land (Z_of_byte x) 0x0F = Z_of_byte x mod 16)
        by apply (land_low_bits _ 4 ltac:(lia)).
      rewrite Hm0, Hm1, Hm2, !Z.shiftl_mul_pow2 by lia.
      assert (sz = 3%nat) as Esz by lia. specialize (H3 Esz).
      assert (HA : 0 <= Z_of_byte x mod 16 * 2 ^ 12)
        by (Z.to_euclidean_division_equations; lia).
      assert (HB : 0 <= Z_of_byte b1 mod 64 * 2 ^ 6)
        by (Z.to_euclidean_division_equations; lia).
      assert (HC : 0 <= Z_of_byte b2 mod 64)
        by (Z.to_euclidean_division_equations; lia).
      apply lor_above; [apply Z.lor_nonneg; lia | lia |]. left.
      apply lor_above; [lia | lia |].
      Z.to_euclidean_division_equations; lia.
    - cbn. repeat constructor; lia. }
  destruct t2 as [|b3 t3]; [exact Herr|].
  pose proof (Z_of_byte_range b3) as Hb3.
  destruct (Z.leb_spec 0x80 (Z_of_byte b3)) as [Hb3lo|]; [|exact Herr].
  destruct (Z.leb_spec (Z_of_byte b3) 0xBF) as [Hb3hi|]; [|exact Herr].
  cbn [andb negb]. cbn [length] in *. split; [lia|]. right. split.
  - assert (Hm0 : Z.land (Z_of_byte x) 0x07 = Z_of_byte x mod 8)
      by apply (land_low_bits _ 3 ltac:(lia)).
    assert (Hm3 : Z.land (Z_of_byte b3) 0x3F = Z_of_byte b3 mod 64)
      by apply (land_low_bits _ 6 ltac:(lia)).
    rewrite Hm0, Hm1, Hm2, Hm3, !Z.shiftl_mul_pow2 by lia.
    assert (sz = 4%nat) as Esz by lia. specialize (H4 Esz).
    assert (HA : 0 <= Z_of_byte x mod 8 * 2 ^ 18)
      by (Z.to_euclidean_division_equations; lia).
    assert (HB : 0 <= Z_of_byte b1 mod 64 * 2 ^ 12)
      by (Z.to_euclidean_division_equations; lia).
    assert (HC : 0 <= Z_of_byte b2 mod 64 * 2 ^ 6)
      by (Z.to_euclidean_division_equations; lia).
    assert (HD : 0 <= Z_of_byte b3 mod 64)
      by (Z.to_euclidean_division_equations; lia).
    apply lor_above; [repeat (apply Z.lor_nonneg; split); lia | lia |]. left.
    apply lor_above; [apply Z.lor_nonneg; lia | lia |]. left.
    apply lor_above; [lia | lia |].
    Z.to_euclidean_division_equations; lia.
  - cbn. repeat constructor; lia.
Qed.

Lemma Byte_eqb_decide c x : Byte.eqb c x = bool_decide (x = c).
Proof.
  destruct (Byte.eqb c x) eqn:E.
  - apply Byte.byte_dec_bl in E. subst. by rewrite bool_decide_eq_true_2.
  - apply Byte.eqb_false in E. rewrite bool_decide_eq_false_2; congruence.
Qed.

Lemma has_prefix_nil s : strings.has_prefix s [] = true.
Proof. by destruct s. Qed.

Lemma find_byte_le c s : (find_byte c s <= length s)%nat.
Proof.
  induction s as [|x s IH]; cbn [find_byte length]; [lia|].
  destruct (decide (x = c)); lia.
Qed.

(** [strings.Index] of a one-byte string. *)
Lemma Index_single c s :
  strings.Index s [c]
  = if occurs c s then Z.of_nat (find_byte c s) else -1.
Proof.
  unfold occurs. induction s as [|x s IH]; [reflexivity|].
  cbn [strings.Index strings.has_prefix find_byte length].
  rewrite has_prefix_nil, Byte_eqb_decide.
  destruct (decide (x = c)) as [->|Hne].
  - rewrite bool_decide_eq_true_2 by reflexivity. reflexivity.
  - rewrite bool_decide_eq_false_2 by exact Hne. rewrite IH.
    pose proof (find_byte_le c s).
    destruct (Nat.ltb_spec (find_byte c s) (length s));
      destruct (Nat.ltb_spec (S (find_byte c s)) (S (length s))); try lia.
    + destruct (Z.ltb_spec (Z.of_nat (find_byte c s)) 0); lia.
    + reflexivity.
Qed.

Lemma find_byte_skip c s w :
  (w <= length s)%nat ->
  Forall (fun b => b <> c) (take w s) ->
  find_byte c s = (w + find_byte c (drop w s))%nat.
Proof.
  revert s. induction w as [|w IH]; intros s Hw Hall; [by rewrite drop_0|].
  destruct s as [|x s]; [cbn in Hw; lia|].
  cbn [take] in Hall. apply Forall_cons in Hall as [Hx Hall].
  cbn [find_byte drop]. destruct (decide (x = c)); [contradiction|].
  cbn [length] in Hw. rewrite (IH s) by (lia || assumption). lia.
Qed.

Lemma find_byte_at c s :
  (find_byte c s < length s)%nat -> s !! find_byte c s = Some c.
Proof.
  induction s as [|x s IH]; cbn [find_byte length]; [lia|].
  destruct (decide (x = c)) as [->|]; [reflexivity|].
  intros H. cbn. apply IH. lia.
Qed.

Lemma find_byte_before c s :
  Forall (fun b => b <> c) (take (find_byte c s) s).
Proof.
  induction s as [|x s IH]; cbn [find_byte]; [constructor|].
  destruct (decide (x = c)); [constructor|].
  cbn [take]. by constructor.
Qed.

Lemma ContainsRune_single c r :
  Z_of_byte c < 128 ->
  strings.ContainsRune [c] r = (Z_of_byte c =? r).
Proof.
  intros Hc. unfold strings.ContainsRune. cbn [length strings.ContainsRune_from].
  unfold utf8.DecodeRuneInString.
  destruct (Z.ltb_spec (Z_of_byte c) 128); [|lia].
  by rewrite orb_false_r.
Qed.


Lemma next_eof l :
  pos l = Z.of_nat (length (input l)) -> next l = Ret (eof, moved l (pos l) 0).
Proof.
  intros Hp. unfold next, isEOF. rewrite Hp, Z.leb_refl.
  unfold set_width, moved. by rewrite Hp.
Qed.

Lemma next_rune l p x s :
  pos l = Z.of_nat p -> drop p (input l) = x :: s ->
  next l = Ret (let '(r, w) := utf8.DecodeRuneInString (x :: s) in
                (r, moved l (pos l + w) w)).
Proof.
  intros Hp Hs. unfold next, isEOF.
  assert (Hlen : (p < length (input l))%nat).
  { apply (f_equal length) in Hs. rewrite length_drop in Hs. cbn in Hs. lia. }
  destruct (Z.leb_spec (Z.of_nat (length (input l))) (pos l)); [lia|].
  unfold slice_from.
  destruct (Z.leb_spec 0 (pos l)); [|lia].
  destruct (Z.leb_spec (pos l) (Z.of_nat (length (input l)))); [|lia].
  cbn [andb exec_bind]. rewrite Hp, Nat2Z.id, Hs.
  destruct (utf8.DecodeRuneInString (x :: s)) as [r w]. reflexivity.
Qed.

Lemma scan_until c fuel : forall l p,
  Z_of_byte c < 128 ->
  pos l = Z.of_nat p -> (p <= length (input l))%nat ->
  (length (drop p (input l)) <= fuel)%nat ->
  exists w,
    (do (r, l1) <- next l; acceptUntil_loop fuel [c] r l1)
    = Ret (moved l (Z.of_nat (p + find_byte c (drop p (input l))) + w) w).
Proof.
  induction fuel as [|fuel IH]; intros l p Hc Hp Hle Hfuel.
  - destruct (drop p (input l)) as [|x s] eqn:Hs; [|cbn in Hfuel; lia].
    rewrite next_eof.
    2:{ apply (f_equal length) in Hs. rewrite length_drop in Hs. cbn in Hs. lia. }
    exists 0. cbn. rewrite Hp. do 2 f_equal. cbn. lia.
  - destruct (drop p (input l)) as [|x s] eqn:Hs.
    { rewrite next_eof.
      2:{ apply (f_equal length) in Hs. rewrite length_drop in Hs. cbn in Hs. lia. }
      exists 0. cbn. rewrite Hp. do 2 f_equal. cbn. lia. }
    rewrite (next_rune l p x s Hp Hs).
    pose proof (DecodeRuneInString_spec x s) as Hdec.
    destruct (utf8.DecodeRuneInString (x :: s)) as [r w].
    destruct Hdec as [Hw Hcases]. cbn [exec_bind].
    pose proof (Z_of_byte_range x) as Hxr.
    pose proof (find_byte_skip c (x :: s) (Z.to_nat w)) as Hsk.
    cbn [find_byte] in Hsk |- *. destruct (decide (x = c)) as [->|Hne].
    + (* the separator: the loop stops *)
      destruct Hcases as [(_ & -> & ->)|[Hr Hall]].
      * exists 1. cbn [acceptUntil_loop].
        rewrite ContainsRune_single by exact Hc.
        rewrite Z.eqb_refl, andb_false_r. rewrite Hp. do 2 f_equal. lia.
      * (* impossible: the first byte is ASCII *)
        exfalso. destruct (Z.to_nat w) eqn:Ew; [lia|].
        cbn [take] in Hall. apply Forall_inv in Hall. lia.
    + assert (Hrc : (Z_of_byte c =? r) = false).
      { apply Z.eqb_neq. destruct Hcases as [(_ & -> & _)|[Hr _]]; [|lia].
        intros Heq. apply Hne. symmetry. by apply Z_of_byte_inj. }
      assert (Hreof : (r =? eof) = false).
      { apply Z.eqb_neq. unfold eof.
        destruct Hcases as [(_ & -> & _)|[Hr _]]; lia. }
      cbn [acceptUntil_loop].
      rewrite ContainsRune_single, Hrc, Hreof by exact Hc.
      cbn [negb andb].
      assert (Hskip : Forall (fun b => b <> c) (take (Z.to_nat w) (x :: s))).
      { destruct Hcases as [(_ & _ & ->)|[_ Hall]].
        - cbn. constructor; [exact Hne | constructor].
        - eapply Forall_impl; [exact Hall|]. cbn. intros b Hb ->. lia. }
      cbn [length] in Hw, Hfuel.
      destruct (IH (moved l (pos l + w) w) (p + Z.to_nat w)%nat) as [w' Hrun].
      * exact Hc.
      * cbn. lia.
      * cbn. apply (f_equal length) in Hs. rewrite length_drop in Hs.
        cbn in Hs. lia.
      * cbn [input moved]. rewrite <- drop_drop, Hs, length_drop.
        cbn [length]. lia.
      * cbn [input moved start tokens] in Hrun. exists w'.
        rewrite Hrun. unfold moved. cbn [input start tokens].
        rewrite <- drop_drop, Hs.
        rewrite Hsk by (cbn [length]; lia || exact Hskip).
        do 2 f_equal. lia.
Qed.

Lemma drop_nil_length {A} (l : list A) p :
  drop p l = [] -> (p <= length l)%nat -> p = length l.
Proof.
  intros Hs Hle. apply (f_equal length) in Hs. rewrite length_drop in Hs.
  cbn in Hs. lia.
Qed.

Lemma scan_to_end fuel : forall l p,
  pos l = Z.of_nat p -> (p <= length (input l))%nat ->
  (length (drop p (input l)) <= fuel)%nat ->
  (do (r, l1) <- next l; acceptUntilEOF_loop fuel r l1)
  = Ret (moved l (Z.of_nat (length (input l))) 0).
Proof.
  induction fuel as [|fuel IH]; intros l p Hp Hle Hfuel.
  - destruct (drop p (input l)) as [|x s] eqn:Hs; [|cbn in Hfuel; lia].
    apply drop_nil_length in Hs; [|exact Hle].
    rewrite next_eof by lia. cbn. rewrite Hp. by subst.
  - destruct (drop p (input l)) as [|x s] eqn:Hs.
    { apply drop_nil_length in Hs; [|exact Hle].
      rewrite next_eof by lia. cbn. rewrite Hp. by subst. }
    rewrite (next_rune l p x s Hp Hs).
    pose proof (DecodeRuneInString_spec x s) as Hdec.
    destruct (utf8.DecodeRuneInString (x :: s)) as [r w].
    destruct Hdec as [Hw Hcases]. cbn [exec_bind].
    pose proof (Z_of_byte_range x) as Hxr.
    assert (Hreof : (r =? eof) = false).
    { apply Z.eqb_neq. unfold eof.
      destruct Hcases as [(_ & -> & _)|[Hr _]]; lia. }
    cbn [acceptUntilEOF_loop]. rewrite Hreof. cbn [negb].
    cbn [length] in Hw, Hfuel.
    rewrite (IH (moved l (pos l + w) w) (p + Z.to_nat w)%nat).
    + reflexivity.
    + cbn. lia.
    + cbn. apply (f_equal length) in Hs. rewrite length_drop in Hs.
      cbn in Hs. lia.
    + cbn [input moved]. rewrite <- drop_drop, Hs, length_drop.
      cbn [length]. lia.
Qed.

Lemma acceptUntil_spec c l p :
  Z_of_byte c < 128 ->
  pos l = Z.of_nat p -> (p <= length (input l))%nat ->
  exists w,
    acceptUntil [c] l
    = Ret (moved l (Z.of_nat (p + find_byte c (drop p (input l)))) w).
Proof.
  intros Hc Hp Hle. unfold acceptUntil.
  destruct (scan_until c (length (input l)) l p Hc Hp Hle) as [w Hrun].
  { rewrite length_drop. lia. }
  exists w.
  destruct (next l) as [[r l1]| |]; cbn [exec_bind] in Hrun |- *;
    try discriminate.
  rewrite Hrun. cbn [exec_bind]. unfold backup, set_pos, moved.
  cbn [input start pos width tokens]. do 2 f_equal. lia.
Qed.

Lemma acceptUntilEOF_spec l p :
  pos l = Z.of_nat p -> (p <= length (input l))%nat ->
  acceptUntilEOF l = Ret (moved l (Z.of_nat (length (input l))) 0).
Proof.
  intros Hp Hle. unfold acceptUntilEOF.
  apply (scan_to_end _ l p Hp Hle). rewrite length_drop. lia.
Qed.

Lemma emit_spec t l (a b : nat) :
  start l = Z.of_nat a -> pos l = Z.of_nat b ->
  (a <= b <= length (input l))%nat ->
  emit t l
  = Ret (mkLexer (input l) (pos l) (pos l) (width l)
           (tokens l ++ [mkToken t (pos l)
                           (string_of_bytes (take (b - a) (drop a (input l))))])).
Proof.
  intros Ha Hb Hab. unfold emit, slice, set_start, send.
  cbn [input start pos width tokens]. rewrite Ha, Hb.
  destruct (Z.leb_spec 0 (Z.of_nat a)); [|lia].
  destruct (Z.leb_spec (Z.of_nat a) (Z.of_nat b)); [|lia].
  destruct (Z.leb_spec (Z.of_nat b) (Z.of_nat (length (input l)))); [|lia].
  cbn [andb exec_bind]. rewrite !Nat2Z.id. reflexivity.
Qed.

Lemma index_spec l c p :
  pos l = Z.of_nat p -> (p <= length (input l))%nat ->
  index l c = Ret (strings.Index (drop p (input l)) c).
Proof.
  intros Hp Hle. unfold index, slice_from. rewrite Hp.
  destruct (Z.leb_spec 0 (Z.of_nat p)); [|lia].
  destruct (Z.leb_spec (Z.of_nat p) (Z.of_nat (length (input l)))); [|lia].
  cbn [andb exec_bind]. by rewrite Nat2Z.id.
Qed.

Lemma index_panic l c :
  Z.of_nat (length (input l)) < pos l -> index l c = Panic.
Proof.
  intros Hp. unfold index, slice_from.
  destruct (Z.leb_spec (pos l) (Z.of_nat (length (input l)))); [lia|].
  by rewrite andb_false_r.
Qed.

(** The decision of [lexValue]: whether to stop at a pair separator. *)
Lemma lexValue_decision l p :
  pos l = Z.of_nat p -> (p <= length (input l))%nat ->
  (if 0 <=? strings.Index (drop p (input l)) separator
   then do f <- first l [pairSeparator; separator];
        Ret (bytes_eqb f pairSeparator)
   else Ret false)
  = Ret (more_pairs (drop p (input l))).
Proof.
  intros Hp Hle. unfold first. cbn [first_loop].
  rewrite !(index_spec l _ p Hp Hle). cbn [exec_bind].
  change separator with [colon]. change pairSeparator with [comma].
  rewrite !Index_single.
  unfold more_pairs, value_extent, occurs.
  set (s := drop p (input l)).
  pose proof (find_byte_le colon s) as Hc.
  pose proof (find_byte_le comma s) as Hm.
  destruct (Nat.ltb_spec (find_byte colon s) (length s)) as [Hcolon|Hcolon];
    cbn [andb].
  - destruct (Z.leb_spec 0 (Z.of_nat (find_byte colon s))); [|lia].
    destruct (Nat.ltb_spec (find_byte comma s) (length s)) as [Hcomma|Hcomma];
      cbn [andb exec_bind].
    + destruct (Z.leb_spec 0 (Z.of_nat (find_byte comma s))); [|lia].
      cbn [andb orb Z.ltb Z.compare].
      destruct (Z.ltb_spec (Z.of_nat (find_byte comma s)) 0); [lia|].
      cbn [orb].
      destruct (Nat.ltb_spec (find_byte comma s) (find_byte colon s)) as [Hlt|Hge].
      * destruct (Z.ltb_spec (Z.of_nat (find_byte colon s))
                             (Z.of_nat (find_byte comma s))); [lia|].
        cbn [exec_bind].
        destruct (Nat.ltb_spec (find_byte comma s) (length s)); [|lia].
        reflexivity.
      * assert (find_byte comma s <> find_byte colon s).
        { intros Heq. pose proof (find_byte_at comma s Hcomma) as Hat1.
          pose proof (find_byte_at colon s Hcolon) as Hat2.
          rewrite Heq in Hat1. rewrite Hat1 in Hat2. discriminate. }
        destruct (Z.ltb_spec (Z.of_nat (find_byte colon s))
                             (Z.of_nat (find_byte comma s))); [|lia].
        cbn [exec_bind].
        destruct (Nat.ltb_spec (length s) (length s)); [lia|].
        reflexivity.
    + cbn [Z.leb Z.compare andb exec_bind].
      destruct (Nat.ltb_spec (length s) (length s)); [lia|].
      reflexivity.
  - cbn [Z.leb Z.compare andb exec_bind].
    destruct (Nat.ltb_spec (length s) (length s)); [lia|].
    reflexivity.
Qed.

Lemma more_pairs_extent rest :
  more_pairs rest = true ->
  value_extent rest = find_byte comma rest
  /\ (find_byte comma rest < length rest)%nat
  /\ (find_byte comma rest < find_byte colon rest < length rest)%nat.
Proof.
  unfold more_pairs, value_extent, occurs.
  destruct (Nat.ltb_spec (find_byte colon rest) (length rest));
    destruct (Nat.ltb_spec (find_byte comma rest) (length rest));
    destruct (Nat.ltb_spec (find_byte comma rest) (find_byte colon rest));
    cbn [andb]; intros Hlt; apply Nat.ltb_lt in Hlt; lia.
Qed.

Lemma no_more_pairs_extent rest :
  more_pairs rest = false -> value_extent rest = length rest.
Proof.
  unfold more_pairs. intros Hge. apply Nat.ltb_ge in Hge.
  assert (value_extent rest <= length rest)%nat; [|lia].
  unfold value_extent. pose proof (find_byte_le comma rest).
  destruct (_ && _); lia.
Qed.

(** The value state, from a position inside the input with nothing
    pending. *)
Lemma step_lexValue l q :
  start l = Z.of_nat q -> pos l = Z.of_nat q -> (q <= length (input l))%nat ->
  let rest := drop q (input l) in
  let n := value_extent rest in
  let value := mkToken tokenValue (Z.of_nat (q + n)) (string_of_bytes (take n rest)) in
  exists w,
    step lexValue l
    = Ret (if more_pairs rest
           then (mkLexer (input l) (Z.of_nat (q + n)) (Z.of_nat (q + n)) w
                         (tokens l ++ [value]),
                 Some lexPairSeparator)
           else (mkLexer (input l) (Z.of_nat (q + n)) (Z.of_nat (q + n)) w
                         (tokens l ++ [value; mkToken tokenEOF (Z.of_nat (q + n)) EmptyString]),
                 None)).
Proof.
  intros Hs Hp Hle rest n value. cbn [step].
  rewrite (index_spec l separator q Hp Hle). cbn [exec_bind].
  rewrite (lexValue_decision l q Hp Hle). cbn [exec_bind]. fold rest.
  destruct (more_pairs rest) eqn:Hmore.
  - apply more_pairs_extent in Hmore as (Hn & Hcomma & Hcolon). fold n in Hn.
    change (bytes_eqb pairSeparator []) with false. cbn iota.
    change pairSeparator with [comma].
    destruct (acceptUntil_spec comma l q ltac:(cbn; lia) Hp Hle) as [w ->].
    cbn [exec_bind]. fold rest. rewrite <- Hn.
    erewrite (emit_spec tokenValue _ q (q + n)); cycle 1.
    + exact Hs.
    + reflexivity.
    + cbn [input moved]. subst rest. rewrite length_drop in Hcomma. lia.
    + cbn [exec_bind moved input start pos width tokens].
      unfold isEOF. cbn [input pos].
      destruct (Z.leb_spec (Z.of_nat (length (input l))) (Z.of_nat (q + n))).
      { subst rest. rewrite length_drop in Hcomma. lia. }
      exists w. replace (q + n - q)%nat with n by lia. reflexivity.
  - apply no_more_pairs_extent in Hmore. fold n in Hmore.
    change (bytes_eqb [] []) with true. cbn iota.
    rewrite (acceptUntilEOF_spec l q Hp Hle). cbn [exec_bind].
    assert (Hlen : length (input l) = (q + n)%nat).
    { subst rest. rewrite length_drop in Hmore. lia. }
    rewrite Hlen.
    erewrite (emit_spec tokenValue _ q (q + n)); cycle 1.
    + exact Hs.
    + reflexivity.
    + cbn [input moved]. lia.
    + cbn [exec_bind moved input start pos width tokens].
      unfold isEOF. cbn [input pos]. rewrite Hlen, Z.leb_refl.
      erewrite (emit_spec tokenEOF _ (q + n) (q + n)); cycle 1.
      * reflexivity.
      * reflexivity.
      * cbn [input]. lia.
      * cbn [exec_bind input start pos width tokens].
        exists 0. replace (q + n - q)%nat with n by lia.
        rewrite Nat.sub_diag, take_0, <- app_assoc. reflexivity.
Qed.

(** C6. In the scan-value state the value token extends to the first [,]
    (excluded) exactly when the remaining input contains a later [:] and
    the nearest of [,] and [:] is [,]; otherwise it runs to the end of the
    input, and the end token follows.  The offset of a token is the
    position right after its span: the input of the repository's lexer
    test yields the five tokens the test expects. *)
Theorem lexValue_value_extent l q :
  start l = Z.of_nat q -> pos l = Z.of_nat q -> (q <= length (input l))%nat ->
  (let rest := drop q (input l) in
   let n := value_extent rest in
   let value :=
     mkToken tokenValue (Z.of_nat (q + n)) (string_of_bytes (take n rest)) in
   exists w,
     step lexValue l
     = Ret (if more_pairs rest
            then (mkLexer (input l) (Z.of_nat (q + n)) (Z.of_nat (q + n)) w
                          (tokens l ++ [value]),
                  Some lexPairSeparator)
            else (mkLexer (input l) (Z.of_nat (q + n)) (Z.of_nat (q + n)) w
                          (tokens l ++ [value; mkToken tokenEOF (Z.of_nat (q + n)) EmptyString]),
                  None)))
  /\ lex "username:alexander,password:Scribeapple"
     = Ret [ mkToken tokenKey 8 "username";
             mkToken tokenValue 18 "alexander";
             mkToken tokenKey 27 "password";
             mkToken tokenValue 39 "Scribeapple";
             mkToken tokenEOF 39 EmptyString ].
Proof.
  intros Hs Hp Hle. split; [by apply step_lexValue|].
  vm_compute. reflexivity.
Qed.

Lemma lexValue_value_extent_witness :
  step lexValue (mkLexer (bytes_of_string "a:b,c:d,e") 2 2 0 [mkToken tokenKey 1 "a"])
  = Ret (mkLexer (bytes_of_string "a:b,c:d,e") 3 3 1
           [mkToken tokenKey 1 "a"; mkToken tokenValue 3 "b"],
         Some lexPairSeparator).
Proof.
  destruct (proj1 (lexValue_value_extent
                     (mkLexer (bytes_of_string "a:b,c:d,e") 2 2 0
                              [mkToken tokenKey 1 "a"]) 2
                     eq_refl eq_refl ltac:(cbn; lia))) as [w Hw].
  vm_compute. reflexivity.
Defined.

Example lex_repository_tests :
  lex "email:liamwilson186@example.net"
  = Ret [ mkToken tokenKey 5 "email";
          mkToken tokenValue 31 "liamwilson186@example.net";
          mkToken tokenEOF 31 EmptyString ]
  /\ lex "a:b,c:d,e"
     = Ret [ mkToken tokenKey 1 "a"; mkToken tokenValue 3 "b";
             mkToken tokenKey 5 "c"; mkToken tokenValue 9 "d,e";
             mkToken tokenEOF 9 EmptyString ]
  /\ lex "a:b:c,d:e"
     = Ret [ mkToken tokenKey 1 "a"; mkToken tokenValue 9 "b:c,d:e";
             mkToken tokenEOF 9 EmptyString ].
Proof. repeat split; vm_compute; reflexivity. Qed.

(** ** Termination of the lexer *)

Lemma find_byte_before_le c s w :
  (w <= find_byte c s)%nat -> Forall (fun b => b <> c) (take w s).
Proof.
  intros Hw. replace w with (Nat.min w (find_byte c s)) by lia.
  rewrite <- take_take. apply Forall_take, find_byte_before.
Qed.

Lemma step_lexKey l p :
  start l = Z.of_nat p -> pos l = Z.of_nat p -> (p <= length (input l))%nat ->
  let rest := drop p (input l) in
  let k := find_byte colon rest in
  exists w,
    step lexKey l
    = Ret (mkLexer (input l) (Z.of_nat (p + k)) (Z.of_nat (p + k)) w
             (tokens l ++ [mkToken tokenKey (Z.of_nat (p + k))
                             (string_of_bytes (take k rest))]),
           Some lexSeparator).
Proof.
  intros Hs Hp Hle rest k. cbn [step]. change separator with [colon].
  destruct (acceptUntil_spec colon l p ltac:(cbn; lia) Hp Hle) as [w ->].
  cbn [exec_bind]. fold rest. fold k.
  pose proof (find_byte_le colon rest) as Hk. subst rest.
  rewrite length_drop in Hk.
  erewrite (emit_spec tokenKey _ p (p + k)); cycle 1.
  - exact Hs.
  - reflexivity.
  - cbn [input moved]. lia.
  - cbn [exec_bind moved input start pos width tokens].
    exists w. replace (p + k - p)%nat with k by lia. reflexivity.
Qed.

Lemma run_loop_Panic fuel st l :
  step st l = Panic -> run_loop (S fuel) (Some st) l = Panic.
Proof. intros Hst. cbn [run_loop]. by rewrite Hst. Qed.

Lemma run_loop_step fuel st l l' st' :
  step st l = Ret (l', st') ->
  run_loop (S fuel) (Some st) l = run_loop fuel st' l'.
Proof. intros Hst. cbn [run_loop]. by rewrite Hst. Qed.


(** From the key state, with a [:] ahead, the run ends with the end
    token. *)
Lemma run_from_key n : forall l p fuel,
  (length (input l) - p <= n)%nat ->
  start l = Z.of_nat p -> pos l = Z.of_nat p -> (p <= length (input l))%nat ->
  occurs colon (drop p (input l)) = true ->
  (4 * (length (input l) - p) + 3 <= fuel)%nat ->
  exists l' new,
    run_loop fuel (Some lexKey) l = Ret l'
    /\ tokens l' = tokens l ++ new ++ [eof_token l].
Proof.
  induction n as [|n IH]; intros l p fuel Hn Hs Hp Hle Hocc Hfuel.
  { unfold occurs in Hocc. apply Nat.ltb_lt in Hocc.
    rewrite length_drop in Hocc. lia. }
  unfold occurs in Hocc. apply Nat.ltb_lt in Hocc.
  rewrite length_drop in Hocc.
  destruct (step_lexKey l p Hs Hp Hle) as [w1 Hkey].
  remember (find_byte colon (drop p (input l))) as k eqn:Ek.
  destruct fuel as [|[|[|fuel]]]; try lia.
  rewrite (run_loop_step _ _ _ _ _ Hkey).
  rewrite (run_loop_step _ lexSeparator _ _ _ eq_refl).
  unfold ignore, set_pos, set_start.
  cbn [pos input start width tokens].
  change (Z.of_nat (length separator)) with 1.
  remember (p + k + 1)%nat as q eqn:Eq.
  replace (Z.of_nat (p + k) + 1) with (Z.of_nat q) by lia.
  match goal with
  | |- context [run_loop _ (Some lexValue) ?l1] =>
      destruct (step_lexValue l1 q eq_refl eq_refl) as [w2 Hval];
        [cbn [input]; lia|]
  end.
  cbn [input tokens] in Hval.
  remember (drop q (input l)) as rest eqn:Erest.
  remember (value_extent rest) as m eqn:Em.
  assert (Hrest : length rest = (length (input l) - q)%nat)
    by (subst rest; apply length_drop).
  destruct (more_pairs rest) eqn:Hmore;
    rewrite (run_loop_step _ _ _ _ _ Hval).
  - apply more_pairs_extent in Hmore as (Hm & Hcomma & Hcolon).
    rewrite <- Em in Hm.
    destruct fuel as [|fuel]; [lia|].
    rewrite (run_loop_step _ lexPairSeparator _ _ _ eq_refl).
    unfold ignore, set_pos, set_start.
    cbn [pos input start width tokens].
    change (Z.of_nat (length pairSeparator)) with 1.
    remember (q + m + 1)%nat as p' eqn:Ep'.
    replace (Z.of_nat (q + m) + 1) with (Z.of_nat p') by lia.
    match goal with
    | |- context [run_loop _ (Some lexKey) ?l2] =>
        destruct (IH l2 p' fuel) as (l' & new & Hrun & Htok)
    end.
    + cbn [input]. lia.
    + reflexivity.
    + reflexivity.
    + cbn [input]. lia.
    + cbn [input]. unfold occurs. apply Nat.ltb_lt.
      rewrite length_drop.
      replace (drop p' (input l)) with (drop (m + 1) rest)
        by (subst rest; rewrite drop_drop; f_equal; lia).
      pose proof (find_byte_skip colon rest (m + 1)) as Hsk.
      assert (Hbefore : Forall (fun b => b <> colon) (take (m + 1) rest))
        by (apply find_byte_before_le; lia).
      specialize (Hsk ltac:(lia) Hbefore). lia.
    + cbn [input]. lia.
    + exists l'.
      exists ([ mkToken tokenKey (Z.of_nat (p + k))
                  (string_of_bytes (take k (drop p (input l))));
                mkToken tokenValue (Z.of_nat (q + m))
                  (string_of_bytes (take m rest)) ] ++ new).
      split; [exact Hrun|].
      rewrite Htok. cbn [tokens]. unfold eof_token. cbn [input].
      rewrite <- !app_assoc. reflexivity.
  - apply no_more_pairs_extent in Hmore. rewrite <- Em in Hmore.
    assert (Hend : (q + m)%nat = length (input l)) by lia.
    rewrite Hend.
    assert (Hnil : forall f l0, run_loop f None l0 = Ret l0)
      by (intros [|f] l0; reflexivity).
    rewrite Hnil. eexists.
    exists [ mkToken tokenKey (Z.of_nat (p + k))
               (string_of_bytes (take k (drop p (input l))));
             mkToken tokenValue (Z.of_nat (length (input l)))
               (string_of_bytes (take m rest)) ].
    split; [reflexivity|].
    cbn [tokens]. unfold eof_token.
    rewrite <- !app_assoc. reflexivity.
Qed.

(** Without a [:] the key scan runs to the end of the input, the
    separator state steps past it, and the value state slices out of
    range. *)
Lemma run_without_colon l fuel :
  start l = 0 -> pos l = 0 ->
  occurs colon (input l) = false -> (3 <= fuel)%nat ->
  run_loop fuel (Some lexKey) l = Panic.
Proof.
  intros Hs Hp Hocc Hfuel.
  unfold occurs in Hocc. apply Nat.ltb_ge in Hocc.
  pose proof (find_byte_le colon (input l)) as Hk.
  destruct (step_lexKey l 0 Hs Hp ltac:(lia)) as [w1 Hkey].
  rewrite drop_0 in Hkey.
  destruct fuel as [|[|[|fuel]]]; try lia.
  rewrite (run_loop_step _ _ _ _ _ Hkey).
  rewrite (run_loop_step _ lexSeparator _ _ _ eq_refl).
  apply run_loop_Panic. cbn [step].
  rewrite index_panic; [reflexivity|].
  unfold ignore, set_pos, set_start. cbn [input pos].
  change (Z.of_nat (length separator)) with 1. lia.
Qed.

Lemma bytes_of_string_of_bytes b : bytes_of_string (string_of_bytes b) = b.
Proof. apply list_byte_of_string_of_list_byte. Qed.

Lemma lex_outcome (b : list byte) :
  if occurs colon b
  then exists ts,
         lex (string_of_bytes b)
         = Ret (ts ++ [mkToken tokenEOF (Z.of_nat (length b)) EmptyString])
  else lex (string_of_bytes b) = Panic.
Proof.
  unfold lex, run. rewrite bytes_of_string_of_bytes. cbn [input].
  destruct (occurs colon b) eqn:Hocc.
  - destruct (run_from_key (length b) (mkLexer b 0 0 0 []) 0
                (4 * length b + 4)) as (l' & new & Hrun & Htok);
      cbn [input start pos]; rewrite ?drop_0; try (reflexivity || lia || assumption).
    rewrite Hrun. cbn [exec_bind]. exists new. rewrite Htok. reflexivity.
  - rewrite run_without_colon; try (reflexivity || assumption || lia).
Qed.

Lemma parsePayloadRaw_cases (e : Event) :
  (exists m, parsePayloadRaw e = Ret (set_Payload m e))
  \/ parsePayloadRaw e = Panic.
Proof.
  pose proof (lex_outcome (PayloadBytes e)) as Hlex.
  unfold parsePayloadRaw. record_simpl.
  destruct (occurs colon (PayloadBytes e)).
  - destruct Hlex as [ts Hts]. left.
    rewrite Hts. cbn [exec_bind]. eauto.
  - right. by rewrite Hlex.
Qed.

(** C2, as the code has it.  The lexer and [parsePayloadRaw] terminate on
    every input: when the input contains a [:] they return, the tokens
    ending with the end-of-input token, and the payload map is populated;
    when it contains none (the empty input included) the lexer panics on
    a slice out of range, and so does [parsePayloadRaw]. *)
Theorem parsePayloadRaw_outcome (e : Event) :
  if occurs colon (PayloadBytes e)
  then (exists ts,
          lex (string_of_bytes (PayloadBytes e))
          = Ret (ts ++ [mkToken tokenEOF (Z.of_nat (length (PayloadBytes e))) EmptyString]))
       /\ (exists m, parsePayloadRaw e = Ret (set_Payload m e))
  else lex (string_of_bytes (PayloadBytes e)) = Panic
       /\ parsePayloadRaw e = Panic.
Proof.
  pose proof (lex_outcome (PayloadBytes e)) as Hlex.
  unfold parsePayloadRaw. record_simpl.
  destruct (occurs colon (PayloadBytes e)).
  - destruct Hlex as [ts Hts]. split; [eauto|].
    rewrite Hts. cbn [exec_bind]. eauto.
  - split; [exact Hlex|]. by rewrite Hlex.
Qed.

(** C2, as the specification states it, fails: the empty input and an
    input without [:] make the lexer panic, and a frame with an empty
    payload makes [ReadFrom] panic after the payload was read. *)
Lemma lexer_panics_without_separator :
  lex EmptyString = Panic
  /\ lex "abc" = Panic
  /\ parsePayloadRaw Event_zero = Panic
  /\ ReadFrom Event_zero (NewBuffer (MarshalBinary Event_zero).1) = Panic.
Proof. repeat split; vm_compute; reflexivity. Qed.

(** ** The ingestion loop *)

Section Returns.
Context {R : Type} `{ReaderLaws R}.

(** One fixed-size read of a reader that keeps the contract of
    [io.Reader] returns. *)
Ltac read_returns :=
  match goal with
  | |- context [binary_Read_uint8 ?r] =>
      destruct (binary_Read_uint8_returns r) as ([?|?] & ? & ->)
  | |- context [binary_Read_uint16 ?r] =>
      destruct (binary_Read_uint16_returns r) as ([?|?] & ? & ->)
  | |- context [binary_Read_uint32 ?r] =>
      destruct (binary_Read_uint32_returns r) as ([?|?] & ? & ->)
  end; cbn [exec_bind]; [|eauto].

Lemma UUID_ReadFrom_returns (u0 : UUID) (r : R) :
  exists res, UUID_ReadFrom u0 r = Ret res.
Proof.
  unfold UUID_ReadFrom.
  do 5 read_returns.
  destruct (Read _ 6) as [[? [?|]] ?]; [eauto|].
  destruct (negb _); eauto.
Qed.

(** With such a reader [ReadFrom] returns or panics (in the payload
    lexer). *)
Lemma ReadFrom_not_OutOfFuel (e0 : Event) (r : R) :
  ReadFrom e0 r <> OutOfFuel.
Proof.
  unfold ReadFrom.
  assert (Hret : forall x : Event * Z * option error * R,
            Ret x <> OutOfFuel) by discriminate.
  destruct (binary_Read_uint16_returns r) as ([?|?] & ? & ->);
    cbn [exec_bind]; [|apply Hret].
  match goal with
  | |- context [binary_Read_uint32 ?r] =>
      destruct (binary_Read_uint32_returns r) as ([?|?] & ? & ->)
  end; cbn [exec_bind]; [|apply Hret].
  match goal with
  | |- context [binary_Read_uint16 ?r] =>
      destruct (binary_Read_uint16_returns r) as ([?|?] & ? & ->)
  end; cbn [exec_bind]; [|apply Hret].
  match goal with
  | |- context [UUID_ReadFrom ?u ?r] =>
      destruct (UUID_ReadFrom_returns u r) as ([[[? ?] [?|]] ?] & ->)
  end; cbn [exec_bind]; [apply Hret|].
  destruct (Read _ _) as [[? [?|]] ?]; [apply Hret|].
  destruct (negb _); [apply Hret|].
  match goal with
  | |- context [parsePayloadRaw ?e] =>
      destruct (parsePayloadRaw_cases e) as [[m ->] | ->]
  end; cbn [exec_bind]; [|discriminate].
  match goal with
  | |- context [binary_Read_uint16 ?r] =>
      destruct (binary_Read_uint16_returns r) as ([?|?] & ? & ->)
  end; cbn [exec_bind]; [|apply Hret].
  match goal with
  | |- context [binary_Read_uint32 ?r] =>
      destruct (binary_Read_uint32_returns r) as ([?|?] & ? & ->)
  end; cbn [exec_bind]; [|apply Hret].
  match goal with
  | |- context [binary_Read_uint32 ?r] =>
      destruct (binary_Read_uint32_returns r) as ([?|?] & ? & ->)
  end; cbn [exec_bind]; apply Hret.
Qed.

(** Decoding a datagram returns, with an event or an error, or panics. *)
Lemma decode_cases (r : R) : decode_returns r \/ decode_panics r.
Proof.
  unfold decode_returns, decode_panics, decode.
  pose proof (ReadFrom_not_OutOfFuel Event_zero r) as Hfuel.
  destruct (ReadFrom Event_zero r) as [[[[e n] err] r']| |];
    cbn [exec_bind]; eauto. contradiction.
Qed.

End Returns.

(** [make] gives the queue or panics. *)
Lemma queue_made_cases size cache :
  queue_made size cache = Ret tt \/ queue_made size cache = Panic.
Proof.
  unfold queue_made, makechan.
  destruct (_ || _); auto.
Qed.

Section CollectProps.
Context {R : Type} `{Reader R}.

(** What one decoding gives the loop. *)
Lemma decode_Ret (r : R) e err :
  decode r = Ret (e, err) ->
  exists n r', ReadFrom Event_zero r = Ret (e, n, err, r').
Proof.
  unfold decode.
  destruct (ReadFrom Event_zero r) as [[[[e1 n] err1] r']| |];
    cbn [exec_bind]; [|discriminate..].
  intros [= -> ->]. eauto.
Qed.

Lemma decode_Panic (r : R) :
  decode r = Panic -> ReadFrom Event_zero r = Panic.
Proof.
  unfold decode.
  by destruct (ReadFrom Event_zero r) as [[[[e1 n] err1] r']| |].
Qed.

(** The loop, on the datagrams it takes when decoding each of them
    returns. *)
Lemma collect_loop_consumed sel k : forall i events log,
  Forall decode_returns (consumed sel k i) ->
  exists events' err log',
    collect_loop sel k i events log = Ret (events', err, log')
    /\ (err <> None <-> Exists decode_fails (consumed sel k i))
    /\ (err = None ->
        events' = events ++ filter (fun e => Valid e = true)
                                   (decoded (consumed sel k i))).
Proof.
  induction k as [|k IH]; intros i events log Hret;
    cbn [collect_loop consumed] in *.
  { exists events, None, log. split; [reflexivity|].
    split; [split; [congruence | intros Hex; inversion Hex]|].
    intros _. cbn. by rewrite app_nil_r. }
  destruct (sel i) as [| |r] eqn:Hsel.
  - exists events, None, log. split; [reflexivity|].
    split; [split; [congruence | intros Hex; inversion Hex]|].
    intros _. cbn. by rewrite app_nil_r.
  - eexists events, None, _. split; [reflexivity|].
    split; [split; [congruence | intros Hex; inversion Hex]|].
    intros _. cbn. by rewrite app_nil_r.
  - apply Forall_cons in Hret as [(e & err & He) Hret].
    rewrite He in Hret |- *. cbn [decoded]. rewrite He.
    destruct (decode_Ret r e err He) as (n & r' & ->). cbn [exec_bind].
    destruct err as [err|].
    + exists [], (Some err), log. split; [reflexivity|].
      split; [|congruence].
      split; [|congruence]. intros _. apply Exists_cons_hd.
      by exists e, err.
    + assert (Hnofail : ~ decode_fails r).
      { intros (e2 & err2 & Hf). rewrite He in Hf. discriminate. }
      destruct (Valid e) eqn:HV; cbn [negb].
      * destruct (IH (S i) (events ++ [e]) log Hret)
          as (ev' & err & log' & Hloop & Herr & Hok).
        exists ev', err, log'. split; [exact Hloop|].
        split.
        { rewrite Herr. split; [apply Exists_cons_tl|].
          intros Hex. apply Exists_cons in Hex as [?|?]; [contradiction|done]. }
        intros Hnone. rewrite (Hok Hnone).
        rewrite filter_cons_True by exact HV. by rewrite <- app_assoc.
      * destruct (IH (S i) events (log ++ [discard_warning e]) Hret)
          as (ev' & err & log' & Hloop & Herr & Hok).
        exists ev', err, log'. split; [exact Hloop|].
        split.
        { rewrite Herr. split; [apply Exists_cons_tl|].
          intros Hex. apply Exists_cons in Hex as [?|?]; [contradiction|done]. }
        intros Hnone. rewrite (Hok Hnone).
        by rewrite filter_cons_False by (rewrite HV; discriminate).
Qed.

(** The loop does not return once the decoding of a datagram it takes
    panics. *)
Lemma collect_loop_panics sel k : forall i events log,
  Exists decode_panics (consumed sel k i) ->
  collect_loop sel k i events log = Panic.
Proof.
  induction k as [|k IH]; intros i events log Hex;
    cbn [collect_loop consumed] in *; [inversion Hex|].
  destruct (sel i) as [| |r]; [inversion Hex..|].
  apply Exists_cons in Hex as [Hp|Hex].
  - by rewrite (decode_Panic r Hp).
  - destruct (decode r) as [[e [err|]]| |] eqn:He; [inversion Hex| |inversion Hex..].
    destruct (decode_Ret r e None He) as (n & r' & ->). cbn [exec_bind].
    destruct (negb (Valid e)); by apply IH.
Qed.

(** A run of the loop that returns without an error: every datagram
    received in its iterations was decoded, the events are the valid ones
    among the decoded, in order, and each of the others left a warning. *)
Lemma collect_loop_returns sel k :
  forall i events log events' log',
  collect_loop sel k i events log = Ret (events', None, log') ->
  events' = events ++ filter (fun e => Valid e = true) (decoded (pulled sel k i))
  /\ length (decoded (pulled sel k i)) = length (pulled sel k i)
  /\ (forall e, e ∈ decoded (pulled sel k i) -> Valid e = false ->
                discard_warning e ∈ log')
  /\ (forall entry, entry ∈ log -> entry ∈ log').
Proof.
  induction k as [|k IH]; intros i events log events' log';
    cbn [collect_loop pulled].
  { intros [= <- <-]. cbn. rewrite app_nil_r.
    split; [reflexivity|]. split; [reflexivity|].
    split; [|auto]. intros e He. inversion He. }
  destruct (sel i) as [| |r].
  - intros [= <- <-]. cbn. rewrite app_nil_r.
    split; [reflexivity|]. split; [reflexivity|].
    split; [|auto]. intros e He. inversion He.
  - intros [= <- <-]. cbn. rewrite app_nil_r.
    split; [reflexivity|]. split; [reflexivity|].
    split; [intros e He; inversion He|].
    intros entry He. apply elem_of_app. auto.
  - cbn [decoded]. intros Hrun.
    destruct (ReadFrom Event_zero r) as [[[[e n] [err1|]] r']| |] eqn:Hdec;
      cbn [exec_bind] in Hrun; [discriminate| |discriminate..].
    assert (He : decode r = Ret (e, None)).
    { unfold decode. by rewrite Hdec. }
    rewrite He.
    destruct (Valid e) eqn:HV; cbn [negb] in Hrun;
      apply IH in Hrun as (-> & Hlen & Hwarn & Hlog).
    + rewrite filter_cons_True by exact HV. rewrite <- app_assoc.
      split; [reflexivity|]. split; [cbn; lia|]. split; [|exact Hlog].
      intros e2 He2 HV2. apply elem_of_cons in He2 as [->|He2];
        [congruence | by apply Hwarn].
    + rewrite filter_cons_False by (rewrite HV; discriminate).
      split; [reflexivity|]. split; [cbn; lia|]. split.
      * intros e2 He2 HV2. apply elem_of_cons in He2 as [->|He2];
          [|by apply Hwarn].
        apply Hlog, elem_of_app. right. by apply list_elem_of_singleton.
      * intros entry He'. apply Hlog, elem_of_app. auto.
Qed.

Lemma pulled_length (sel : nat -> selected R) k i :
  (length (pulled sel k i) <= k)%nat.
Proof.
  revert i. induction k as [|k IH]; intros i; cbn [pulled]; [cbn; lia|].
  destruct (sel i); cbn [length]; try lia. specialize (IH (S i)). lia.
Qed.

(** When every iteration receives a datagram, as many are pulled as there
    are iterations. *)
Lemma pulled_length_all (sel : nat -> selected R) k : forall i,
  (forall j, (i <= j < i + k)%nat -> exists r, sel j = chan_recv r) ->
  length (pulled sel k i) = k.
Proof.
  induction k as [|k IH]; intros i Hall; cbn [pulled]; [reflexivity|].
  destruct (Hall i ltac:(lia)) as [r ->]. cbn [length]. f_equal.
  apply IH. intros j Hj. apply Hall. lia.
Qed.

(** The valid and the discarded events of a list, counted. *)
Lemma filter_Valid_length (l : list Event) :
  (length (filter (fun e => Valid e = true) l)
   + length (filter (fun e => Valid e = false) l) = length l)%nat.
Proof.
  induction l as [|e l IH]; [reflexivity|].
  destruct (Valid e) eqn:HV.
  - rewrite filter_cons_True, filter_cons_False by congruence. cbn. lia.
  - rewrite filter_cons_False, filter_cons_True by congruence. cbn. lia.
Qed.

(** The size and the cache the queue is made with. *)
Lemma collectEvents_unfold (environment : env R) (datagrams size cache : Z) :
  1 <= datagrams ->
  exists log0,
    collectEvents environment datagrams size cache
    = (do _ <- queue_made size cache;
       match conn_Write environment introduction with
       | (_, Some err) =>
           Ret ([], Some (Errorf_wrap "writing introduction" err), log0)
       | (n, None) =>
           collect_loop (select_at environment) (Z.to_nat datagrams) 0 []
             (log0 ++ [Debugf ("wrote " ++ itoa n
                               ++ "-byte introduction to the server")])
       end).
Proof.
  intros Hd. unfold collectEvents, queue_made, datagram_size, cache_size.
  destruct (Z.ltb_spec datagrams 1) as [?|_]; [lia|].
  fold introduction.
  destruct (size <? minDatagramBytes); [eauto|].
  destruct (maxDatagramBytes <? size); eauto.
Qed.

End CollectProps.

(** With readers that keep the contract of [io.Reader], a call returns or
    panics. *)
Lemma collect_loop_not_OutOfFuel {R : Type} `{ReaderLaws R}
    (sel : nat -> selected R) k : forall i events log,
  collect_loop sel k i events log <> OutOfFuel.
Proof.
  induction k as [|k IH]; intros i events log; cbn [collect_loop];
    [discriminate|].
  destruct (sel i) as [| |r]; [discriminate..|].
  pose proof (ReadFrom_not_OutOfFuel Event_zero r) as Hfuel.
  destruct (ReadFrom Event_zero r) as [[[[e n] [err|]] r']| |];
    cbn [exec_bind]; [discriminate| |discriminate|contradiction].
  destruct (negb (Valid e)); apply IH.
Qed.

Lemma collectEvents_not_OutOfFuel {R : Type} `{ReaderLaws R}
    (environment : env R) (datagrams size cache : Z) :
  collectEvents environment datagrams size cache <> OutOfFuel.
Proof.
  destruct (Z.ltb_spec datagrams 1) as [Hd|Hd].
  { unfold collectEvents. destruct (Z.ltb_spec datagrams 1); [|lia].
    discriminate. }
  destruct (collectEvents_unfold environment datagrams size cache Hd)
    as [log0 ->].
  destruct (queue_made_cases size cache) as [-> | ->]; cbn [exec_bind];
    [|discriminate].
  destruct (conn_Write environment introduction) as [n [werr|]];
    [discriminate|].
  apply collect_loop_not_OutOfFuel.
Qed.

(** C5, as the code has it.  A call with at least one datagram requested
    first makes the queue, and panics when [make] does (a cache so large
    that [cache << 20] overflows or exceeds what can be allocated); it
    panics as well when decoding one of the datagrams it takes panics.
    Otherwise, when decoding each datagram it takes returns,
    [collectEvents] returns; the error is non-nil exactly when fewer than
    one datagram is requested, the handshake write fails, or the decoding
    of a datagram it takes fails; with a nil error (cancellation, a closed
    channel and invalid events included) it returns the valid events
    among the decoded ones. *)
Theorem collectEvents_error_iff {R : Type} `{Reader R}
    (environment : env R) (datagrams size cache : Z) :
  (1 <= datagrams -> queue_made size cache = Panic ->
   collectEvents environment datagrams size cache = Panic)
  /\ (Exists decode_panics (drawn environment datagrams) ->
      collectEvents environment datagrams size cache = Panic)
  /\ ((1 <= datagrams -> queue_made size cache = Ret tt) ->
      Forall decode_returns (drawn environment datagrams) ->
      exists events err log,
        collectEvents environment datagrams size cache = Ret (events, err, log)
        /\ (err <> None <->
            datagrams < 1
            \/ (conn_Write environment introduction).2 <> None
            \/ Exists decode_fails (drawn environment datagrams))
        /\ (err = None ->
            events = filter (fun e => Valid e = true)
                       (decoded (drawn environment datagrams)))).
Proof.
  unfold drawn.
  destruct (Z.ltb_spec datagrams 1) as [Hd|Hd].
  { split; [lia|]. split; [intros Hex; inversion Hex|]. intros _ _.
    unfold collectEvents. destruct (Z.ltb_spec datagrams 1); [|lia].
    eexists _, _, _. split; [reflexivity|].
    split; [split; [auto | discriminate] | discriminate]. }
  destruct (collectEvents_unfold environment datagrams size cache Hd)
    as [log0 ->].
  split; [intros _ ->; reflexivity|].
  destruct (conn_Write environment introduction) as [n [werr|]] eqn:Hw;
    cbn [snd].
  { split; [intros Hex; inversion Hex|]. intros Hq _. rewrite (Hq Hd).
    cbn [exec_bind]. eexists _, _, _. split; [reflexivity|].
    split; [split; [intros _; right; left; discriminate | discriminate]
           | discriminate]. }
  split.
  - intros Hex. destruct (queue_made_cases size cache) as [-> | ->];
      cbn [exec_bind]; [|reflexivity].
    by apply collect_loop_panics.
  - intros Hq Hret. rewrite (Hq Hd). cbn [exec_bind].
    match goal with
    | |- context [collect_loop ?sel ?k ?i ?ev ?lg] =>
        destruct (collect_loop_consumed sel k i ev lg Hret)
          as (ev' & err & log' & Hloop & Herr & Hok)
    end.
    exists ev', err, log'. split; [exact Hloop|]. split.
    + rewrite Herr. split; [auto|].
      intros [?|[?|?]]; [lia | congruence | assumption].
    + exact Hok.
Qed.

(** C5, as the specification states it, fails twice.  A datagram with an
    empty payload is none of the three error cases, yet [collectEvents]
    returns neither an error nor the events collected so far; and with a
    cache of [2 ^ 43] megabytes the queue cannot be made, whatever the
    peer sends. *)
Lemma collectEvents_panics_on_empty_payload :
  (collectEvents empty_payload_datagrams 1 512 1 = Panic
   /\ ~ (1 < 1)
   /\ (conn_Write empty_payload_datagrams introduction).2 = None
   /\ ~ Exists decode_fails
               (pulled (select_at empty_payload_datagrams) (Z.to_nat 1) 0))
  /\ (collectEvents captured_datagrams 1 512 (2 ^ 43) = Panic
      /\ queue_capacity (2 ^ 43) 512 = - 2 ^ 54
      /\ ~ (1 < 1)
      /\ (conn_Write captured_datagrams introduction).2 = None
      /\ ~ Exists decode_fails
                  (pulled (select_at captured_datagrams) (Z.to_nat 1) 0)).
Proof.
  split.
  - split; [vm_compute; reflexivity|]. split; [lia|]. split; [reflexivity|].
    intros Hex. cbn in Hex. apply Exists_cons in Hex as [Hf|Hf].
    + destruct Hf as (e & err & Hf). vm_compute in Hf. discriminate.
    + inversion Hf.
  - split; [vm_compute; reflexivity|]. split; [vm_compute; reflexivity|].
    split; [lia|]. split; [reflexivity|].
    intros Hex. cbn in Hex. apply Exists_cons in Hex as [Hf|Hf].
    + destruct Hf as (e & err & Hf). vm_compute in Hf. discriminate.
    + inversion Hf.
Qed.

Lemma collectEvents_error_iff_witness :
  (exists events log,
     collectEvents two_datagrams 5 512 0 = Ret (events, None, log)
     /\ events = filter (fun e => Valid e = true)
                   (decoded (drawn two_datagrams 5))
     /\ length (drawn two_datagrams 5) = 2%nat
     /\ length events = 1%nat)
  /\ collectEvents captured_datagrams 1 512 (2 ^ 43) = Panic
  /\ collectEvents empty_payload_datagrams 1 512 1 = Panic.
Proof.
  destruct (collectEvents_error_iff two_datagrams 5 512 0) as (_ & _ & Hret).
  destruct (collectEvents_error_iff captured_datagrams 1 512 (2 ^ 43))
    as (Hqueue & _ & _).
  destruct (collectEvents_error_iff empty_payload_datagrams 1 512 1)
    as (_ & Hpanic & _).
  split; [|split].
  - destruct Hret as (events & err & log & Hrun & Herr & Hok).
    + intros _. vm_compute. reflexivity.
    + repeat constructor; eexists _, _; vm_compute; reflexivity.
    + destruct err as [err|].
      * exfalso. assert (Hne : Some err <> None) by discriminate.
        apply Herr in Hne as [Hlt|[Hw|Hex]]; [lia | by apply Hw |].
        apply Exists_exists in Hex as (r & Hr & (e & err' & Hf)).
        vm_compute in Hr.
        apply elem_of_cons in Hr as [->|Hr];
          [vm_compute in Hf; discriminate|].
        apply elem_of_cons in Hr as [->|Hr];
          [vm_compute in Hf; discriminate|].
        inversion Hr.
      * exists events, log. split; [exact Hrun|].
        pose proof (Hok eq_refl) as Hev. split; [exact Hev|].
        split; [vm_compute; reflexivity|].
        rewrite Hev. vm_compute. reflexivity.
  - apply Hqueue; [lia | vm_compute; reflexivity].
  - apply Hpanic. apply Exists_cons_hd. vm_compute. reflexivity.
Defined.

(** C8. Every event in the slice of a successful [collectEvents] call is
    valid, and the slice holds exactly the valid ones, in order, among the
    events decoded from the datagrams received in the iterations of the
    loop.  A decoded event that fails validation is not in the result and
    a warning is logged for it, while its datagram is one of the at most
    [datagrams] received: the events returned and the events discarded
    together are as many as the datagrams received, so that when every
    iteration receives a datagram the events returned are [datagrams]
    less the discarded ones. *)
Theorem collectEvents_events_valid {R : Type} `{Reader R}
    (environment : env R) (datagrams size cache : Z) events log :
  collectEvents environment datagrams size cache = Ret (events, None, log) ->
  let rs := pulled (select_at environment) (Z.to_nat datagrams) 0 in
  let discarded := filter (fun e => Valid e = false) (decoded rs) in
  events = filter (fun e => Valid e = true) (decoded rs)
  /\ Forall (fun e => Valid e = true) events
  /\ (forall e, e ∈ discarded -> (e ∉ events) /\ (discard_warning e ∈ log))
  /\ length (decoded rs) = length rs
  /\ Z.of_nat (length rs) <= datagrams
  /\ (length events + length discarded = length rs)%nat
  /\ ((forall i, (i < Z.to_nat datagrams)%nat ->
                 exists r, select_at environment i = chan_recv r) ->
      Z.of_nat (length events) = datagrams - Z.of_nat (length discarded)).
Proof.
  intros Hrun rs discarded.
  assert (Hd : 1 <= datagrams).
  { unfold collectEvents in Hrun.
    destruct (Z.ltb_spec datagrams 1); [discriminate | lia]. }
  destruct (collectEvents_unfold environment datagrams size cache Hd)
    as [log0 Hunfold].
  rewrite Hunfold in Hrun.
  destruct (queue_made size cache) as [[]| |]; cbn [exec_bind] in Hrun;
    [|discriminate..].
  destruct (conn_Write environment _) as [n [werr|]]; [discriminate|].
  apply collect_loop_returns in Hrun as (Hev & Hlen & Hwarn & _).
  fold rs in Hev, Hlen, Hwarn. cbn [app] in Hev.
  assert (Hall : Forall (fun e => Valid e = true) events).
  { subst events. apply Forall_forall. intros e He.
    by apply list_elem_of_filter in He as [? _]. }
  assert (Hcount : (length events + length discarded = length rs)%nat).
  { subst events discarded. rewrite filter_Valid_length. exact Hlen. }
  split; [exact Hev|]. split; [exact Hall|].
  split; [|split; [exact Hlen|split; [|split; [exact Hcount|]]]].
  - intros e He. apply list_elem_of_filter in He as [HV He].
    split; [|by apply Hwarn].
    intros Hin. rewrite Forall_forall in Hall. specialize (Hall e Hin).
    congruence.
  - pose proof (pulled_length (select_at environment) (Z.to_nat datagrams) 0)
      as Hle.
    fold rs in Hle. lia.
  - intros Hrecv.
    assert (Hfull : length rs = Z.to_nat datagrams).
    { apply pulled_length_all. intros j Hj. apply Hrecv. lia. }
    lia.
Qed.

Lemma collectEvents_events_valid_witness :
  exists events log e,
    collectEvents two_datagrams 5 512 0 = Ret (events, None, log)
    /\ length events = 1%nat
    /\ events = filter (fun e => Valid e = true)
                  (decoded (pulled (select_at two_datagrams) (Z.to_nat 5) 0))
    /\ Forall (fun e => Valid e = true) events
    /\ filter (fun e => Valid e = false)
         (decoded (pulled (select_at two_datagrams) (Z.to_nat 5) 0)) = [e]
    /\ (e ∉ events) /\ (discard_warning e ∈ log)
    /\ length (pulled (select_at two_datagrams) (Z.to_nat 5) 0) = 2%nat.
Proof.
  assert (Hrun : exists events log,
            collectEvents two_datagrams 5 512 0 = Ret (events, None, log)
            /\ length events = 1%nat).
  { eexists _, _. split; vm_compute; reflexivity. }
  destruct Hrun as (events & log & Hrun & Hevents).
  assert (Hdisc : exists e,
            filter (fun e => Valid e = false)
              (decoded (pulled (select_at two_datagrams) (Z.to_nat 5) 0)) = [e]).
  { eexists. vm_compute. reflexivity. }
  destruct Hdisc as (e & Hdisc).
  exists events, log, e. split; [exact Hrun|]. split; [exact Hevents|].
  pose proof (collectEvents_events_valid two_datagrams 5 512 0 events log Hrun)
    as (Hev & Hvalid & Hwarn & _ & _ & Hcount & _).
  split; [exact Hev|]. split; [exact Hvalid|]. split; [exact Hdisc|].
  rewrite Hdisc in Hwarn, Hcount.
  destruct (Hwarn e) as [Hnot Hlog]; [by apply list_elem_of_singleton|].
  split; [exact Hnot|]. split; [exact Hlog|].
  rewrite <- Hcount, Hevents. reflexivity.
Defined.

(** ** The ranking *)

Lemma String_ltb_leb s t : String.ltb s t = negb (String.leb t s).
Proof.
  unfold String.ltb, String.leb. rewrite (String.compare_antisym t s).
  destruct (String.compare s t); reflexivity.
Qed.

Lemma not_Less_ranks_before a b : Less b a = false <-> ranks_before a b.
Proof.
  unfold Less, ranks_before. rewrite String_ltb_leb.
  destruct (Z.eqb_spec (Occurrence b) (Occurrence a)) as [Heq|Hne].
  - rewrite negb_false_iff. split; [intros Hle; right; split; [lia|exact Hle]|].
    intros [Hlt|[_ Hle]]; [lia | exact Hle].
  - rewrite Z.ltb_ge. split; [intros Hle; left; lia|].
    intros [Hlt|[Heq _]]; [lia | congruence].
Qed.

Lemma StronglySorted_iff {A} (R1 R2 : relation A) l :
  (forall a b, R1 a b <-> R2 a b) ->
  StronglySorted R1 l -> StronglySorted R2 l.
Proof.
  intros Hiff. induction 1 as [|x l Hl IH Hx]; constructor; [exact IH|].
  eapply Forall_impl; [exact Hx|]. intros b. apply Hiff.
Qed.

Section TopProps.
Variable range : gmap string itemOccurrence -> list (string * itemOccurrence).
Variable sort_Sort : list itemOccurrence -> list itemOccurrence.
Hypothesis range_Permutation : forall m, range m ≡ₚ map_to_list m.
Hypothesis sort_Permutation : forall l, sort_Sort l ≡ₚ l.
Hypothesis sort_sorted : forall l, sorted_by_Less (sort_Sort l).

Lemma collect_values (l : list (string * itemOccurrence)) acc :
  fold_left (fun items kv => items ++ [kv.2]) l acc = acc ++ l.*2.
Proof.
  revert acc. induction l as [|kv l IH]; intros acc; cbn [fold_left fmap list_fmap].
  - by rewrite app_nil_r.
  - rewrite IH, <- app_assoc. reflexivity.
Qed.

Lemma top_real m :
  let real := sort_Sort (fold_left (fun items kv => items ++ [kv.2]) (range m) []) in
  real ≡ₚ entries m /\ StronglySorted ranks_before real.
Proof.
  intros real. subst real. rewrite collect_values. cbn [app]. split.
  - rewrite sort_Permutation. unfold entries. by rewrite range_Permutation.
  - eapply StronglySorted_iff; [|apply sort_sorted].
    apply not_Less_ranks_before.
Qed.

Lemma top_ranking_general m count :
  0 <= count ->
  exists real,
    real ≡ₚ entries m
    /\ StronglySorted ranks_before real
    /\ top range sort_Sort m count = Ret (ranking real (Z.to_nat count))
    /\ length (ranking real (Z.to_nat count)) = Z.to_nat count.
Proof.
  intros Hcount.
  set (real := sort_Sort (fold_left (fun items kv => items ++ [kv.2]) (range m) [])).
  destruct (top_real m) as [Hperm Hsorted]. fold real in Hperm, Hsorted.
  exists real. split; [exact Hperm|]. split; [exact Hsorted|].
  assert (Hlen : length (ranking real (Z.to_nat count)) = Z.to_nat count).
  { unfold ranking. rewrite length_take, length_app, length_replicate. lia. }
  split; [|exact Hlen].
  unfold top. fold real. unfold ranking, slice.
  destruct (Z.ltb_spec (Z.of_nat (length real)) count) as [Hlt|Hge].
  - rewrite length_app, length_replicate.
    destruct (Z.leb_spec 0 0); [|lia].
    destruct (Z.leb_spec 0 count); [|lia].
    destruct (Z.leb_spec count
                (Z.of_nat (length real
                           + Z.to_nat (count - Z.of_nat (length real)))));
      [|lia].
    cbn [andb]. rewrite drop_0.
    replace (Z.to_nat count - Z.to_nat 0)%nat with (Z.to_nat count) by lia.
    replace (Z.to_nat (count - Z.of_nat (length real)))
      with (Z.to_nat count - length real)%nat by lia.
    reflexivity.
  - destruct (Z.leb_spec 0 0); [|lia].
    destruct (Z.leb_spec 0 count); [|lia].
    destruct (Z.leb_spec count (Z.of_nat (length real))); [|lia].
    cbn [andb]. rewrite drop_0.
    replace (Z.to_nat count - Z.to_nat 0)%nat with (Z.to_nat count) by lia.
    replace (Z.to_nat count - length real)%nat with 0%nat by lia.
    cbn [replicate]. by rewrite app_nil_r.
Qed.

Lemma top_negative m count : count < 0 -> top range sort_Sort m count = Panic.
Proof.
  intros Hneg. unfold top, slice.
  match goal with
  | |- context [Z.of_nat ?n <? count] =>
      destruct (Z.ltb_spec (Z.of_nat n) count); [lia|]
  end.
  destruct (Z.leb_spec 0 count); [lia|]. reflexivity.
Qed.

End TopProps.

Lemma ranks_before_total a b : ranks_before a b \/ ranks_before b a.
Proof.
  unfold ranks_before.
  destruct (Z.lt_trichotomy (Occurrence a) (Occurrence b)) as [?|[Heq|?]];
    [right; left; lia | | left; left; lia].
  destruct (String.leb_total (Item a) (Item b)) as [Hle|Hle].
  - left. right. auto.
  - right. right. auto.
Qed.

Lemma String_leb_trans s t u :
  String.leb s t = true -> String.leb t u = true -> String.leb s u = true.
Proof.
  intros H1 H2. apply Is_true_true.
  apply Is_true_true in H1, H2.
  exact (transitivity (R := String.le) H1 H2).
Qed.

Lemma ranks_before_trans a b c :
  ranks_before a b -> ranks_before b c -> ranks_before a c.
Proof.
  unfold ranks_before. intros [?|[Hab Hsab]] [?|[Hbc Hsbc]];
    [left; lia | left; lia | left; lia |].
  right. split; [lia|]. eapply String_leb_trans; eauto.
Qed.

#[export] Instance not_Less_total : Total (fun a b => Less b a = false).
Proof.
  intros a b. rewrite !not_Less_ranks_before. apply ranks_before_total.
Qed.

#[export] Instance not_Less_trans : Transitive (fun a b => Less b a = false).
Proof.
  intros a b c. rewrite !not_Less_ranks_before. apply ranks_before_trans.
Qed.

Lemma merge_sort_Less_Permutation l : merge_sort_Less l ≡ₚ l.
Proof. apply merge_sort_Permutation. Qed.

Lemma merge_sort_Less_sorted l : sorted_by_Less (merge_sort_Less l).
Proof. apply (StronglySorted_merge_sort _). Qed.

Lemma entries_ABC :
  entries counts_ABC ≡ₚ [entry "A" 5; entry "B" 5; entry "C" 3].
Proof.
  unfold entries, counts_ABC.
  rewrite !map_to_list_insert, map_to_list_singleton by (vm_compute; reflexivity).
  reflexivity.
Qed.

Lemma ranked_ABC real :
  real ≡ₚ entries counts_ABC -> StronglySorted ranks_before real ->
  real = [entry "A" 5; entry "B" 5; entry "C" 3].
Proof.
  intros Hperm Hsorted. rewrite entries_ABC in Hperm. symmetry.
  apply (StronglySorted_unique_strong ranks_before).
  - intros x1 x2 H1 H2. rewrite Hperm in H2.
    repeat (apply elem_of_cons in H1 as [->|H1]);
      repeat (apply elem_of_cons in H2 as [->|H2]);
      try (by apply elem_of_nil in H1); try (by apply elem_of_nil in H2);
      try reflexivity;
      unfold ranks_before; cbn [Occurrence Item entry];
      intros [?|[? Hs1]] [?|[? Hs2]]; try lia;
      try (vm_compute in Hs1; discriminate);
      try (vm_compute in Hs2; discriminate).
  - repeat constructor; unfold ranks_before; cbn [Occurrence Item entry];
      (left; lia) || (right; split; reflexivity).
  - exact Hsorted.
  - by rewrite Hperm.
Qed.

(** C7. For every occurrence map and every [n] that is not negative,
    [top n] returns exactly [n] entries: the real entries ranked by count
    descending, ties by label ascending, padded with empty placeholders
    (empty label, count zero) when the map has fewer than [n] labels, and
    cut to the first [n] otherwise.  With the counts A:5, B:5, C:3,
    [top 2] is A, B and [top 5] is the three entries followed by two
    placeholders.  This holds for every iteration order of the map and
    every sorting algorithm that [sort.Sort] may use. *)
Theorem top_ranking
    (range : gmap string itemOccurrence -> list (string * itemOccurrence))
    (sort_Sort : list itemOccurrence -> list itemOccurrence)
    (m : gmap string itemOccurrence) (count : Z) :
  (forall m, range m ≡ₚ map_to_list m) ->
  (forall l, sort_Sort l ≡ₚ l) ->
  (forall l, sorted_by_Less (sort_Sort l)) ->
  0 <= count ->
  (exists real,
     real ≡ₚ entries m
     /\ StronglySorted ranks_before real
     /\ top range sort_Sort m count = Ret (ranking real (Z.to_nat count))
     /\ length (ranking real (Z.to_nat count)) = Z.to_nat count)
  /\ top range sort_Sort counts_ABC 2 = Ret [entry "A" 5; entry "B" 5]
  /\ top range sort_Sort counts_ABC 5
     = Ret [entry "A" 5; entry "B" 5; entry "C" 3;
            itemOccurrence_zero; itemOccurrence_zero].
Proof.
  intros Hrange Hperm Hsorted Hcount.
  split; [by apply top_ranking_general|].
  split.
  - destruct (top_ranking_general range sort_Sort Hrange Hperm Hsorted
                counts_ABC 2 ltac:(lia)) as (real & Hp & Hs & -> & _).
    by rewrite (ranked_ABC real Hp Hs).
  - destruct (top_ranking_general range sort_Sort Hrange Hperm Hsorted
                counts_ABC 5 ltac:(lia)) as (real & Hp & Hs & -> & _).
    by rewrite (ranked_ABC real Hp Hs).
Qed.

Lemma top_ranking_witness :
  top map_to_list merge_sort_Less counts_ABC 2
  = Ret [entry "A" 5; entry "B" 5]
  /\ top map_to_list merge_sort_Less counts_ABC 5
     = Ret [entry "A" 5; entry "B" 5; entry "C" 3;
            itemOccurrence_zero; itemOccurrence_zero].
Proof.
  exact (proj2 (top_ranking map_to_list merge_sort_Less counts_ABC 2
                  (fun m => reflexivity (map_to_list m))
                  merge_sort_Less_Permutation merge_sort_Less_sorted
                  ltac:(lia))).
Defined.

Example top_computes :
  top map_to_list merge_sort_Less counts_ABC 2 = Ret [entry "A" 5; entry "B" 5]
  /\ top map_to_list merge_sort_Less counts_ABC (-1) = Panic.
Proof. split; vm_compute; reflexivity. Qed.

(** * Further properties of the code *)

(** ** The UUID codec *)

Lemma UUID_marshalBinary_length u :
  length (Node u) = 6%nat -> length (UUID_marshalBinary u) = 16%nat.
Proof.
  intros H6. rewrite UUID_marshalBinary_layout. unfold concat_fields, UUID_layout.
  cbn [map concat snd]. rewrite !length_app. cbn [length be]. lia.
Qed.

(** X1. [UUID.ReadFrom] and [UUID.marshalBinary] are inverse to each other:
    reading the sixteen bytes of a UUID from a buffer gives the UUID back,
    counts 16 and leaves what follows unread; and whenever a read from a
    buffer succeeds, the bytes consumed are the encoding of the UUID
    returned. *)
Theorem UUID_ReadFrom_marshalBinary u0 u rest :
  UUID_wf u -> length (Node u0) = 6%nat ->
  length (UUID_marshalBinary u) = 16%nat
  /\ UUID_ReadFrom u0 (NewBuffer (UUID_marshalBinary u ++ rest))
     = Ret (u, 16, None, NewBuffer rest)
  /\ (forall b u' i r',
        UUID_ReadFrom u0 (NewBuffer b) = Ret (u', i, None, r') ->
        b = UUID_marshalBinary u' ++ unread r' /\ UUID_wf u' /\ i = 16).
Proof.
  intros Hu H0. split; [|split].
  - apply UUID_marshalBinary_length. by destruct Hu.
  - apply UUID_ReadFrom_marshal; [exact Hu | lia].
  - intros b u' i r' Hr. eapply UUID_ReadFrom_Buffer_inv; [|exact Hr]. lia.
Qed.

Lemma UUID_ReadFrom_marshalBinary_witness :
  UUID_ReadFrom UUID_zero
    (NewBuffer (UUID_marshalBinary (EventUUID joseph_event) ++ [x01; x02]))
  = Ret (EventUUID joseph_event, 16, None, NewBuffer [x01; x02]).
Proof.
  apply (UUID_ReadFrom_marshalBinary UUID_zero (EventUUID joseph_event) [x01; x02]).
  - apply joseph_event_valid.
  - reflexivity.
Defined.

(** ** What a successful decode establishes *)

Ltac record_cbv :=
  cbv [NodeID TimeStamp Size EventUUID Payload Protocol Submitter CheckSum
       PayloadBytes IP set_NodeID set_TimeStamp set_Size set_EventUUID
       set_Payload set_Protocol set_Submitter set_CheckSum set_PayloadBytes
       set_IP] in *.

Section DecodeProps.
Context {R : Type} `{Reader R}.

Lemma set_Payload_same e : set_Payload (Payload e) e = e.
Proof. by destruct e. Qed.

Lemma UUID_ReadFrom_count u0 (r : R) u i r' :
  UUID_ReadFrom u0 r = Ret (u, i, None, r') -> i = 16.
Proof.
  unfold UUID_ReadFrom.
  destruct (binary_Read_uint32 r) as [[[v1|e1] r1]| |]; cbn [exec_bind];
    [|discriminate..].
  destruct (binary_Read_uint16 r1) as [[[v2|e2] r2]| |]; cbn [exec_bind];
    [|discriminate..].
  destruct (binary_Read_uint16 r2) as [[[v3|e3] r3]| |]; cbn [exec_bind];
    [|discriminate..].
  destruct (binary_Read_uint8 r3) as [[[v4|e4] r4]| |]; cbn [exec_bind];
    [|discriminate..].
  destruct (binary_Read_uint8 r4) as [[[v5|e5] r5]| |]; cbn [exec_bind];
    [|discriminate..].
  destruct (Read r5 6) as [[bs [e6|]] r6]; [discriminate|].
  destruct (Z.eqb_spec (Z.of_nat (length bs)) 6); [|discriminate].
  cbn [negb]. intros [= _ <- _]. lia.
Qed.

(** The derived fields of a decoded event. *)
Lemma ReadFrom_derived e0 (r : R) e n r' :
  ReadFrom e0 r = Ret (e, n, None, r') ->
  parsePayloadRaw e = Ret e /\ IP e = addr_of_uint32 (Submitter e).
Proof.
  unfold ReadFrom.
  destruct (binary_Read_uint16 r) as [[[v1|e1] r1]| |]; cbn [exec_bind];
    [|discriminate..].
  destruct (binary_Read_uint32 r1) as [[[v2|e2] r2]| |]; cbn [exec_bind];
    [|discriminate..].
  destruct (binary_Read_uint16 r2) as [[[v3|e3] r3]| |]; cbn [exec_bind];
    [|discriminate..].
  destruct (UUID_ReadFrom _ r3) as [[[[u i] [e4|]] r4]| |]; cbn [exec_bind];
    [discriminate| |discriminate..].
  destruct (Read r4 _) as [[bs [e5|]] r5]; [discriminate|].
  destruct (negb _); [discriminate|].
  destruct (parsePayloadRaw _) as [e6| |] eqn:EP; cbn [exec_bind];
    [|discriminate..].
  apply parsePayloadRaw_inv in EP as (toks & Hlex & ->).
  destruct (binary_Read_uint16 r5) as [[[v7|e7] r7]| |]; cbn [exec_bind];
    [|discriminate..].
  destruct (binary_Read_uint32 r7) as [[[v8|e8] r8]| |]; cbn [exec_bind];
    [|discriminate..].
  destruct (binary_Read_uint32 r8) as [[[v9|e9] r9]| |]; cbn [exec_bind];
    [|discriminate..].
  intros [= <- _ _]. destruct e0 as [a1 a2 a3 a4 a5 a6 a7 a8 a9 a10].
  record_cbv. split; [|reflexivity].
  unfold parsePayloadRaw. record_cbv. rewrite Hlex. reflexivity.
Qed.

End DecodeProps.

(** X2. Whatever [ReadFrom] decodes from a buffer without error is a valid
    event: its integer fields fit their types, [Size] is the length of
    [PayloadBytes], and [Payload] and [IP] are the ones derived from
    [PayloadBytes] and [Submitter].  The bytes consumed are exactly the
    encoding of that event, so encoding is a left inverse of decoding, and
    the count is 34 bytes of fixed-width fields plus the payload. *)
Theorem ReadFrom_Buffer_decoded e0 b e n r' :
  length (Node (EventUUID e0)) = 6%nat ->
  ReadFrom e0 (NewBuffer b) = Ret (e, n, None, r') ->
  Event_valid e
  /\ b = (MarshalBinary e).1 ++ unread r'
  /\ n = Z.of_nat (length (MarshalBinary e).1)
  /\ n = 34 + Size e.
Proof.
  intros H0 Hr.
  destruct (ReadFrom_derived _ _ _ _ _ Hr) as [HP HIP].
  apply ReadFrom_Buffer_inv in Hr as (Hb & Hwf & HS & Hn); [|lia].
  split; [by constructor|]. split; [exact Hb|]. split; [exact Hn|].
  rewrite Hn, HS. unfold MarshalBinary, marshalBinary, BigEndian.AppendUint32,
    BigEndian.AppendUint16. cbn [fst].
  rewrite !length_app, UUID_marshalBinary_length
    by (by destruct Hwf as [_ _ _ [_ _ _ _ _ ?] _ _ _]).
  cbn [length]. lia.
Qed.

Lemma ReadFrom_Buffer_decoded_witness :
  exists e, ReadFrom Event_zero (NewBuffer captured_datagram)
            = Ret (e, 180, None, NewBuffer [])
            /\ Event_valid e
            /\ captured_datagram = (MarshalBinary e).1 ++ []
            /\ 180 = 34 + Size e.
Proof.
  destruct captured_datagram_decodes as (e & Hr & _).
  exists e. split; [exact Hr|].
  destruct (ReadFrom_Buffer_decoded Event_zero captured_datagram e 180
              (NewBuffer []) eq_refl Hr) as (Hv & Hb & _ & Hn).
  auto.
Defined.

(** X3. [MarshalBinary] never fails and writes [Size] as it is stored,
    without comparing it with the length of [PayloadBytes]: the encoding
    is the 24 bytes of the header, with the stored [Size] in it, the
    payload bytes as they are and the 10 bytes of the trailer.  When the
    two differ, decoding the encoding never gives the event back, whatever
    follows it in the buffer; and when [Size] exceeds the length by more
    than the 10 bytes of the trailer, the decoder takes the trailer for
    payload and reports a short read. *)
Theorem MarshalBinary_Size_unchecked e :
  Event_wf e ->
  let len := Z.of_nat (length (PayloadBytes e)) in
  (MarshalBinary e).2 = None
  /\ (MarshalBinary e).1
     = (be 2 (NodeID e) ++ be 4 (TimeStamp e) ++ be 2 (Size e)
        ++ UUID_marshalBinary (EventUUID e))
       ++ PayloadBytes e
       ++ (be 2 (Protocol e) ++ be 4 (Submitter e) ++ be 4 (CheckSum e))
  /\ Z.of_nat (length (MarshalBinary e).1) = 34 + len
  /\ (Size e <> len ->
      forall e0 rest n r',
        length (Node (EventUUID e0)) = 6%nat ->
        ReadFrom e0 (NewBuffer ((MarshalBinary e).1 ++ rest))
        <> Ret (e, n, None, r'))
  /\ (len + 10 < Size e ->
      exists e',
        ReadFrom Event_zero (NewBuffer (MarshalBinary e).1)
        = Ret (e', 24,
               Some (Errorf_read_of "reading payload" (len + 10) (Size e)),
               NewBuffer [])).
Proof.
  intros Hwf len.
  pose proof Hwf as [HN HT HS HU HP HSub HC].
  pose proof (MarshalBinary_fields e HP) as Hfields.
  split; [reflexivity|]. split; [exact Hfields|]. split; [|split].
  - rewrite Hfields, !length_app, UUID_marshalBinary_length
      by (by destruct HU).
    cbn [length be]. lia.
  - intros Hne e0 rest n r' H0 Hr.
    apply ReadFrom_Buffer_inv in Hr as (_ & _ & HS' & _); [|lia].
    contradiction.
  - intros Hlong. rewrite Hfields.
    decode_header.
    set (tail := PayloadBytes e ++ _).
    assert (Htail : Z.of_nat (length tail) = len + 10).
    { unfold tail. rewrite !length_app. cbn [length be]. lia. }
    unfold is_uint16 in HS.
    rewrite Buffer_Read_all by lia.
    unfold uint16_of_Z. rewrite Htail, Z.mod_small by lia.
    destruct (Z.eqb_spec (len + 10) (Size e)) as [Heq|_]; [lia|].
    cbn [negb]. eexists. reflexivity.
Qed.

(** The event of [TestEvent_MarshalBinary] with a [Size] of 60 for its 39
    bytes of payload. *)
Lemma MarshalBinary_Size_unchecked_witness :
  (MarshalBinary (set_Size 60 joseph_event)).2 = None
  /\ length (MarshalBinary (set_Size 60 joseph_event)).1 = 73%nat
  /\ ReadFrom Event_zero
       (NewBuffer ((MarshalBinary (set_Size 60 joseph_event)).1 ++ []))
     <> Ret (set_Size 60 joseph_event, 73, None, NewBuffer [])
  /\ exists e',
       ReadFrom Event_zero (NewBuffer (MarshalBinary (set_Size 60 joseph_event)).1)
       = Ret (e', 24, Some (Errorf_read_of "reading payload" 49 60),
              NewBuffer []).
Proof.
  assert (Hwf : Event_wf (set_Size 60 joseph_event)).
  { destruct (valid_wf _ joseph_event_valid).
    split; try assumption; unfold is_uint16; cbn; lia. }
  destruct (MarshalBinary_Size_unchecked (set_Size 60 joseph_event) Hwf)
    as (Hnone & _ & Hlen & Hback & Hshort).
  split; [exact Hnone|]. split; [apply Nat2Z.inj; exact Hlen|].
  split.
  - apply Hback; [cbn; lia | reflexivity].
  - apply Hshort. cbn. lia.
Defined.

(** ** The count returned by the decoder *)

Section CountProps.
Context {R : Type} `{Reader R}.

Lemma fill_length dst src :
  length (fill dst src) = (length src `max` length dst)%nat.
Proof. unfold fill. rewrite length_app, length_drop. lia. Qed.

Lemma ReadFrom_count_cases e0 (r : R) e n err r' :
  ReadFrom e0 r = Ret (e, n, err, r') ->
  match err with
  | None => n = 34 + Z.of_nat (length (PayloadBytes e))
  | Some err =>
      exists f, failing_field err = Some f
                /\ n = field_offset f (Z.of_nat (length (PayloadBytes e)))
  end.
Proof.
  unfold ReadFrom.
  destruct (binary_Read_uint16 r) as [[[v1|e1] r1]| |]; cbn [exec_bind];
    try discriminate.
  2:{ intros [= <- <- <- _]. by exists EF_NodeID. }
  destruct (binary_Read_uint32 r1) as [[[v2|e2] r2]| |]; cbn [exec_bind];
    try discriminate.
  2:{ intros [= <- <- <- _]. by exists EF_TimeStamp. }
  destruct (binary_Read_uint16 r2) as [[[v3|e3] r3]| |]; cbn [exec_bind];
    try discriminate.
  2:{ intros [= <- <- <- _]. by exists EF_Size. }
  destruct (UUID_ReadFrom _ r3) as [[[[u i] [e4|]] r4]| |] eqn:EU;
    cbn [exec_bind]; try discriminate.
  { intros [= <- <- <- _]. by exists EF_EventUUID. }
  apply UUID_ReadFrom_count in EU as ->.
  destruct (Read r4 _) as [[bs [e5|]] r5].
  { intros [= <- <- <- _]. by exists EF_PayloadBytes. }
  destruct e0 as [a1 a2 a3 a4 a5 a6 a7 a8 a9 a10]. record_cbv.
  unfold uint16_of_Z.
  destruct (Z.eqb_spec (Z.of_nat (length bs) mod 65536) v3) as [Hlen|Hlen];
    cbn [negb].
  2:{ intros [= <- <- <- _]. by exists EF_PayloadBytes. }
  assert (Hfill : Z.of_nat (length (fill (replicate (Z.to_nat v3) x00) bs))
                  = Z.of_nat (length bs)).
  { rewrite fill_length, length_replicate.
    pose proof (Z.mod_le (Z.of_nat (length bs)) 65536 ltac:(lia) ltac:(lia)).
    lia. }
  destruct (parsePayloadRaw _) as [e6| |] eqn:EP; cbn [exec_bind];
    [|discriminate..].
  apply parsePayloadRaw_inv in EP as (toks & _ & ->). record_cbv.
  destruct (binary_Read_uint16 r5) as [[[v7|e7] r7]| |]; cbn [exec_bind];
    try discriminate.
  2:{ intros [= <- <- <- _]. exists EF_Protocol. split; [reflexivity|].
      record_cbv. cbn [field_offset]. lia. }
  destruct (binary_Read_uint32 r7) as [[[v8|e8] r8]| |]; cbn [exec_bind];
    try discriminate.
  2:{ intros [= <- <- <- _]. exists EF_Submitter. split; [reflexivity|].
      record_cbv. cbn [field_offset]. lia. }
  destruct (binary_Read_uint32 r8) as [[[v9|e9] r9]| |]; cbn [exec_bind];
    try discriminate.
  2:{ intros [= <- <- <- _]. exists EF_CheckSum. split; [reflexivity|].
      record_cbv. cbn [field_offset]. lia. }
  intros [= <- <- <- _]. record_cbv. lia.
Qed.

End CountProps.

(** X4. The count [n] that [ReadFrom] returns is the total width of the fields
    it decoded completely: on success 34 bytes plus the payload; on an
    error the offset of the field the error is labelled with, so that the
    bytes consumed for a field (or a UUID) read only in part are not
    counted.  This holds for every reader. *)
Theorem ReadFrom_count {R : Type} `{Reader R} (e0 : Event) (r : R) e n err r' :
  ReadFrom e0 r = Ret (e, n, err, r') ->
  match err with
  | None => n = 34 + Z.of_nat (length (PayloadBytes e))
  | Some err =>
      exists f, failing_field err = Some f
                /\ n = field_offset f (Z.of_nat (length (PayloadBytes e)))
  end.
Proof. apply ReadFrom_count_cases. Qed.

Lemma ReadFrom_count_witness :
  exists f,
    failing_field (Errorf_wrap "reading UUID"
                     (Errorf_read_of "reading node" 2 6)) = Some f
    /\ 8 = field_offset f 0.
Proof.
  assert (Hr : exists e r',
             ReadFrom Event_zero (NewBuffer (take 20 captured_datagram))
             = Ret (e, 8, Some (Errorf_wrap "reading UUID"
                                  (Errorf_read_of "reading node" 2 6)), r')
             /\ length (PayloadBytes e) = 0%nat).
  { eexists _, _. split; [vm_compute; reflexivity | reflexivity]. }
  destruct Hr as (e & r' & Hr & Hlen).
  pose proof (ReadFrom_count Event_zero _ _ _ _ _ Hr) as Hc.
  cbv beta iota in Hc. rewrite Hlen in Hc. exact Hc.
Defined.

(** ** Decoding into a receiver that was used before *)

Section ReceiverProps.
Context {R : Type} `{Reader R}.

Lemma fill_six dst bs :
  length dst = 6%nat -> Z.of_nat (length bs) = 6 -> fill dst bs = bs.
Proof. intros Hd Hb. apply fill_full. lia. Qed.

Lemma UUID_ReadFrom_receiver u0 u0' (r : R) :
  length (Node u0) = 6%nat -> length (Node u0') = 6%nat ->
  match UUID_ReadFrom u0 r with
  | Ret (u, i, err, r1) =>
      exists u', UUID_ReadFrom u0' r = Ret (u', i, err, r1)
                 /\ (err = None -> u' = u)
  | Panic => UUID_ReadFrom u0' r = Panic
  | OutOfFuel => UUID_ReadFrom u0' r = OutOfFuel
  end.
Proof.
  intros H0 H0'. unfold UUID_ReadFrom.
  destruct (binary_Read_uint32 r) as [[[v1|e1] r1]| |]; cbn [exec_bind];
    [|eexists; split; [reflexivity|discriminate]|reflexivity..].
  destruct (binary_Read_uint16 r1) as [[[v2|e2] r2]| |]; cbn [exec_bind];
    [|eexists; split; [reflexivity|discriminate]|reflexivity..].
  destruct (binary_Read_uint16 r2) as [[[v3|e3] r3]| |]; cbn [exec_bind];
    [|eexists; split; [reflexivity|discriminate]|reflexivity..].
  destruct (binary_Read_uint8 r3) as [[[v4|e4] r4]| |]; cbn [exec_bind];
    [|eexists; split; [reflexivity|discriminate]|reflexivity..].
  destruct (binary_Read_uint8 r4) as [[[v5|e5] r5]| |]; cbn [exec_bind];
    [|eexists; split; [reflexivity|discriminate]|reflexivity..].
  destruct (Read r5 6) as [[bs [e6|]] r6];
    [eexists; split; [reflexivity|discriminate]|].
  destruct (Z.eqb_spec (Z.of_nat (length bs)) 6) as [Hb|Hb]; cbn [negb];
    [|eexists; split; [reflexivity|discriminate]].
  eexists. split; [reflexivity|].
  intros _. destruct u0 as [c1 c2 c3 c4 c5 c6], u0' as [d1 d2 d3 d4 d5 d6].
  cbn in H0, H0'.
  cbv [set_Node set_ClockSeqLow set_ClockSeqHiAndRes set_TimeHiAndVersion
       set_TimeMid set_TimeLow TimeLow TimeMid TimeHiAndVersion
       ClockSeqHiAndRes ClockSeqLow Node].
  by rewrite !fill_six.
Qed.

Lemma parsePayloadRaw_receiver e e' :
  PayloadBytes e = PayloadBytes e' ->
  match parsePayloadRaw e with
  | Ret e1 => exists m, e1 = set_Payload m e /\ parsePayloadRaw e' = Ret (set_Payload m e')
  | Panic => parsePayloadRaw e' = Panic
  | OutOfFuel => parsePayloadRaw e' = OutOfFuel
  end.
Proof.
  intros Hb. unfold parsePayloadRaw.
  cbn [PayloadBytes set_Payload Payload]. rewrite <- Hb.
  destruct (lex _); cbn [exec_bind]; eauto.
Qed.

Lemma ReadFrom_receiver e0 e0' (r : R) :
  length (Node (EventUUID e0)) = 6%nat ->
  length (Node (EventUUID e0')) = 6%nat ->
  match ReadFrom e0 r with
  | Ret (e, n, err, r1) =>
      exists e', ReadFrom e0' r = Ret (e', n, err, r1)
                 /\ (err = None -> e' = e)
  | Panic => ReadFrom e0' r = Panic
  | OutOfFuel => ReadFrom e0' r = OutOfFuel
  end.
Proof.
  intros H0 H0'. unfold ReadFrom.
  destruct (binary_Read_uint16 r) as [[[v1|e1] r1]| |]; cbn [exec_bind];
    [|eexists; split; [reflexivity|discriminate]|reflexivity..].
  destruct (binary_Read_uint32 r1) as [[[v2|e2] r2]| |]; cbn [exec_bind];
    [|eexists; split; [reflexivity|discriminate]|reflexivity..].
  destruct (binary_Read_uint16 r2) as [[[v3|e3] r3]| |]; cbn [exec_bind];
    [|eexists; split; [reflexivity|discriminate]|reflexivity..].
  destruct e0 as [a1 a2 a3 a4 a5 a6 a7 a8 a9 a10].
  destruct e0' as [b1 b2 b3 b4 b5 b6 b7 b8 b9 b10].
  record_cbv.
  pose proof (UUID_ReadFrom_receiver a4 b4 r3 H0 H0') as HU.
  destruct (UUID_ReadFrom a4 r3) as [[[[u i] err] r4]| |]; cbn [exec_bind].
  2:{ by rewrite HU. }
  2:{ by rewrite HU. }
  destruct HU as (u' & -> & Hu). cbn [exec_bind].
  destruct err as [e4|]; [eexists; split; [reflexivity|discriminate]|].
  rewrite (Hu eq_refl). clear Hu u'.
  destruct (Read r4 _) as [[bs [e5|]] r5]; [eexists; split; [reflexivity|discriminate]|].
  destruct (negb _); [eexists; split; [reflexivity|discriminate]|].
  match goal with
  | |- match exec_bind (parsePayloadRaw ?x) _ with _ => _ end =>
      match goal with
      | |- context [parsePayloadRaw ?y] =>
          tryif constr_eq x y then fail
          else pose proof (parsePayloadRaw_receiver x y eq_refl) as HP
      end
  end.
  destruct (parsePayloadRaw _) as [e6| |]; cbn [exec_bind].
  2:{ by rewrite HP. }
  2:{ by rewrite HP. }
  destruct HP as (m & -> & ->). cbn [exec_bind]. record_cbv.
  destruct (binary_Read_uint16 r5) as [[[v7|e7] r7]| |]; cbn [exec_bind];
    [|eexists; split; [reflexivity|discriminate]|reflexivity..].
  destruct (binary_Read_uint32 r7) as [[[v8|e8] r8]| |]; cbn [exec_bind];
    [|eexists; split; [reflexivity|discriminate]|reflexivity..].
  destruct (binary_Read_uint32 r8) as [[[v9|e9] r9]| |]; cbn [exec_bind];
    [|eexists; split; [reflexivity|discriminate]|reflexivity..].
  eexists; split; reflexivity.
Qed.

End ReceiverProps.

(** X5. [ReadFrom] assigns every field it decodes, so what it returns does not
    depend on what the receiver held before: with any two receivers and
    the same reader, the count, the error and the reader afterwards agree,
    a panic of the payload lexer occurs for both or for neither, as does
    a fixed-size read that is given up because the reader keeps returning
    nothing, and on success the two decoded events are equal.  A receiver
    can be reused without being cleared. *)
Theorem ReadFrom_receiver_independent {R : Type} `{Reader R}
    (e0 e0' : Event) (r : R) :
  length (Node (EventUUID e0)) = 6%nat ->
  length (Node (EventUUID e0')) = 6%nat ->
  match ReadFrom e0 r with
  | Ret (e, n, err, r1) =>
      exists e', ReadFrom e0' r = Ret (e', n, err, r1)
                 /\ (err = None -> e' = e)
  | Panic => ReadFrom e0' r = Panic
  | OutOfFuel => ReadFrom e0' r = OutOfFuel
  end.
Proof. exact (ReadFrom_receiver e0 e0' r). Qed.

Lemma ReadFrom_receiver_independent_witness :
  ReadFrom joseph_event (NewBuffer captured_datagram)
  = ReadFrom Event_zero (NewBuffer captured_datagram)
  /\ ReadFrom joseph_event (NewBuffer (MarshalBinary Event_zero).1) = Panic
  /\ ReadFrom joseph_event stalled = OutOfFuel.
Proof.
  split; [|split].
  - pose proof (ReadFrom_receiver_independent Event_zero joseph_event
                  (NewBuffer captured_datagram) eq_refl eq_refl) as Hr.
    destruct captured_datagram_decodes as (e & He & _).
    rewrite He in Hr |- *. destruct Hr as (e' & -> & Heq).
    by rewrite Heq.
  - exact (ReadFrom_receiver_independent Event_zero joseph_event
             (NewBuffer (MarshalBinary Event_zero).1) eq_refl eq_refl).
  - exact (ReadFrom_receiver_independent Event_zero joseph_event
             stalled eq_refl eq_refl).
Defined.

(** ** Corruption of a single byte *)

Lemma ChecksumIEEE_fold data :
  crc32.ChecksumIEEE data
  = Z.lxor (fold_left simpleUpdate_step data (Z.lxor 0 0xFFFFFFFF)) 0xFFFFFFFF.
Proof. reflexivity. Qed.

Lemma land_255_range s : 0 <= Z.land s 255 < 256.
Proof.
  change 255 with (Z.ones 8). rewrite Z.land_ones by lia.
  apply Z.mod_pos_bound. lia.
Qed.

Lemma table_index_range s v :
  0 <= Z.lxor (Z.land s 255) (Z_of_byte v) < 256.
Proof.
  pose proof (Z_of_byte_range v). pose proof (land_255_range s).
  apply (lxor_range 8); lia.
Qed.

Lemma simpleUpdate_step_range s v :
  is_uint32 s -> is_uint32 (simpleUpdate_step s v).
Proof.
  intros Hs. unfold simpleUpdate_step, is_uint32 in *.
  apply (lxor_range 32); [lia| |apply shiftr_range; lia].
  apply table_entry_loop_range. unfold is_uint32.
  pose proof (table_index_range s v). lia.
Qed.

Lemma table_tops_NoDup : NoDup table_tops.
Proof. apply (bool_decide_unpack _). vm_compute. exact I. Qed.

Lemma table_tops_lookup i :
  0 <= i < 256 ->
  table_tops !! Z.to_nat i
  = Some (Z.shiftr (crc32.table_entry crc32.IEEE i) 24).
Proof.
  intros Hi. unfold table_tops.
  rewrite list_lookup_fmap, lookup_seq_lt by lia.
  cbn. by rewrite Z2Nat.id by lia.
Qed.

(** The table entries differ in their most significant bytes. *)
Lemma table_top_inj i j :
  0 <= i < 256 -> 0 <= j < 256 ->
  Z.shiftr (crc32.table_entry crc32.IEEE i) 24
  = Z.shiftr (crc32.table_entry crc32.IEEE j) 24 ->
  i = j.
Proof.
  intros Hi Hj Heq.
  pose proof (table_tops_lookup i Hi) as Li.
  pose proof (table_tops_lookup j Hj) as Lj. rewrite <- Heq in Lj.
  pose proof (NoDup_lookup _ _ _ _ table_tops_NoDup Li Lj). lia.
Qed.

Lemma simpleUpdate_step_top s v :
  is_uint32 s ->
  Z.shiftr (simpleUpdate_step s v) 24
  = Z.shiftr (crc32.table_entry crc32.IEEE
                (Z.lxor (Z.land s 255) (Z_of_byte v))) 24.
Proof.
  intros Hs. unfold simpleUpdate_step, is_uint32 in *.
  rewrite Z.shiftr_lxor, Z.shiftr_shiftr by lia.
  rewrite (Z.shiftr_div_pow2 s) by lia.
  rewrite Z.div_small by lia. apply Z.lxor_0_r.
Qed.

Lemma lxor_cancel_r a b c : Z.lxor a c = Z.lxor b c -> a = b.
Proof.
  intros Heq. apply (f_equal (fun x => Z.lxor x c)) in Heq.
  by rewrite !Z.lxor_assoc, Z.lxor_nilpotent, !Z.lxor_0_r in Heq.
Qed.

Lemma lxor_cancel_l a b c : Z.lxor c a = Z.lxor c b -> a = b.
Proof. rewrite !(Z.lxor_comm c). apply lxor_cancel_r. Qed.

Lemma simpleUpdate_step_index s s' v v' :
  is_uint32 s -> is_uint32 s' ->
  simpleUpdate_step s v = simpleUpdate_step s' v' ->
  Z.lxor (Z.land s 255) (Z_of_byte v) = Z.lxor (Z.land s' 255) (Z_of_byte v').
Proof.
  intros Hs Hs' Heq. apply (f_equal (fun x => Z.shiftr x 24)) in Heq.
  rewrite !simpleUpdate_step_top in Heq by assumption.
  apply table_top_inj in Heq; [exact Heq | apply table_index_range..].
Qed.

(** For a fixed byte the step is injective in the state, and for a fixed
    state it is injective in the byte. *)
Lemma simpleUpdate_step_inj_state s s' v :
  is_uint32 s -> is_uint32 s' ->
  simpleUpdate_step s v = simpleUpdate_step s' v -> s = s'.
Proof.
  intros Hs Hs' Heq.
  pose proof (simpleUpdate_step_index s s' v v Hs Hs' Heq) as Hidx.
  unfold simpleUpdate_step in Heq. rewrite Hidx in Heq.
  apply lxor_cancel_l in Heq. apply lxor_cancel_r in Hidx.
  change 255 with (Z.ones 8) in Hidx. rewrite !Z.land_ones in Hidx by lia.
  rewrite !Z.shiftr_div_pow2 in Heq by lia.
  rewrite (Z.div_mod s (2 ^ 8)), (Z.div_mod s' (2 ^ 8)) by lia.
  by rewrite Heq, Hidx.
Qed.

Lemma simpleUpdate_step_inj_byte s v v' :
  is_uint32 s ->
  simpleUpdate_step s v = simpleUpdate_step s v' -> v = v'.
Proof.
  intros Hs Heq.
  pose proof (simpleUpdate_step_index s s v v' Hs Hs Heq) as Hidx.
  apply lxor_cancel_l in Hidx. by apply Z_of_byte_inj.
Qed.

Lemma simpleUpdate_fold_range p : forall s,
  is_uint32 s -> is_uint32 (fold_left simpleUpdate_step p s).
Proof.
  induction p as [|v p IH]; intros s Hs; cbn [fold_left]; [exact Hs|].
  apply IH. by apply simpleUpdate_step_range.
Qed.

Lemma simpleUpdate_fold_inj p : forall s s',
  is_uint32 s -> is_uint32 s' ->
  fold_left simpleUpdate_step p s = fold_left simpleUpdate_step p s' -> s = s'.
Proof.
  induction p as [|v p IH]; intros s s' Hs Hs'; cbn [fold_left]; [done|].
  intros Heq. apply IH in Heq; [|by apply simpleUpdate_step_range..].
  by apply simpleUpdate_step_inj_state in Heq.
Qed.

(** Two byte strings that differ in one byte have different checksums. *)
Lemma ChecksumIEEE_one_byte pre x y suf :
  crc32.ChecksumIEEE (pre ++ x :: suf) = crc32.ChecksumIEEE (pre ++ y :: suf) ->
  x = y.
Proof.
  rewrite !ChecksumIEEE_fold. intros Heq. apply lxor_cancel_r in Heq.
  rewrite !fold_left_app in Heq. cbn [fold_left] in Heq.
  assert (H0 : is_uint32 (Z.lxor 0 4294967295)) by (unfold is_uint32; rewrite Z.lxor_0_l; lia).
  pose proof (simpleUpdate_fold_range pre _ H0) as Hpre.
  apply simpleUpdate_fold_inj in Heq; [|by apply simpleUpdate_step_range..].
  by apply simpleUpdate_step_inj_byte in Heq.
Qed.

(** C3. [Valid] is a total boolean function; it answers [true] exactly
    when the stored checksum is the CRC-32/IEEE checksum (the bitwise
    definition [CRC32_IEEE]) of the concatenated big-endian encodings of
    all other fields, and [false] otherwise.  So a valid event with its
    checksum replaced by any other value (one bit flipped, say) is
    invalid, as is one with the same checksum and one byte of the encoding
    of another field changed; and the event decoded from a frame that ends
    in the checksum of the bytes before it is valid. *)
Theorem Valid_checksum e :
  Event_wf e ->
  (Valid e = true <->
   CheckSum e = CRC32_IEEE (concat_fields (body_layout e)))
  /\ (Valid e = false <->
      CheckSum e <> CRC32_IEEE (concat_fields (body_layout e)))
  /\ (Valid e = true ->
      (forall c, c <> CheckSum e -> Valid (set_CheckSum c e) = false)
      /\ (forall k, 0 <= k ->
            Valid (set_CheckSum (Z.lxor (CheckSum e) (2 ^ k)) e) = false)
      /\ (forall e' (i : nat) x y,
            Event_wf e' -> CheckSum e' = CheckSum e ->
            concat_fields (body_layout e) !! i = Some y -> x <> y ->
            concat_fields (body_layout e')
            = <[i := x]> (concat_fields (body_layout e)) ->
            Valid e' = false))
  /\ (forall body c0 c1 c2 c3 e' n,
        BigEndian.Uint32 c0 c1 c2 c3 = CRC32_IEEE body ->
        ReadFrom Event_zero (NewBuffer (body ++ [c0; c1; c2; c3]))
        = Ret (e', n, None, NewBuffer []) ->
        Valid e' = true).
Proof.
  intros Hwf.
  assert (Hiff : Valid e = true <->
            CheckSum e = CRC32_IEEE (concat_fields (body_layout e))).
  { unfold Valid.
    rewrite Z.eqb_eq, marshalBinary_layout, ChecksumIEEE_CRC32_IEEE
      by apply Hwf.
    split; congruence. }
  assert (Hflip : Valid e = true ->
            forall c, c <> CheckSum e -> Valid (set_CheckSum c e) = false).
  { unfold Valid. rewrite Z.eqb_eq. intros Hv c Hc.
    rewrite marshalBinary_set_CheckSum. apply Z.eqb_neq. record_simpl.
    congruence. }
  split; [exact Hiff|]. split; [|split; [|]].
  - rewrite <- Hiff. destruct (Valid e); split; congruence.
  - intros Hv. split; [exact (Hflip Hv)|]. split.
    + intros k Hk. apply (Hflip Hv). by apply lxor_pow2_neq.
    + intros e' i x y Hwf' Hc Hy Hxy He'.
      apply Hiff in Hv. unfold Valid. apply Z.eqb_neq.
      rewrite marshalBinary_layout, He', Hc, Hv, <- ChecksumIEEE_CRC32_IEEE
        by apply Hwf'.
      intros Heq. apply Hxy.
      pose proof (lookup_lt_Some _ _ _ Hy) as Hi.
      rewrite insert_take_drop in Heq by exact Hi.
      rewrite <- (take_drop_middle _ _ _ Hy) in Heq at 3.
      by apply ChecksumIEEE_one_byte in Heq.
  - intros body c0 c1 c2 c3 e' n Hcrc Hdec.
    apply ReadFrom_Buffer_inv in Hdec as (Hb & Hwf' & _ & _); [|cbn; lia].
    cbn [unread] in Hb. rewrite app_nil_r in Hb.
    unfold MarshalBinary in Hb. cbn [fst] in Hb.
    rewrite AppendUint32_be in Hb.
    apply app_inj_2 in Hb as [Hbody Hck]; [|reflexivity].
    unfold Valid. apply Z.eqb_eq.
    rewrite <- Hbody, ChecksumIEEE_CRC32_IEEE, <- Hcrc.
    apply (f_equal (fun l => match l with
                             | [a; b; c; d] => BigEndian.Uint32 a b c d
                             | _ => 0 end)) in Hck.
    cbn [be] in Hck. rewrite Hck.
    exact (Uint32_AppendUint32 _ (wf_CheckSum _ Hwf')).
Qed.

(** The statement at the event of [TestEvent_MarshalBinary]: it is valid,
    its checksum is the CRC-32/IEEE of its other fields, and it is no
    longer valid with the lowest bit of the checksum flipped or with
    another node ID. *)
Lemma Valid_checksum_witness :
  Event_wf joseph_event
  /\ Valid joseph_event = true
  /\ CheckSum joseph_event
     = CRC32_IEEE (concat_fields (body_layout joseph_event))
  /\ Valid (set_CheckSum (Z.lxor (CheckSum joseph_event) (2 ^ 0)) joseph_event)
     = false
  /\ Valid (set_NodeID 5 joseph_event) = false.
Proof.
  pose proof (valid_wf _ joseph_event_valid) as Hwf.
  assert (Hv : Valid joseph_event = true) by (vm_compute; reflexivity).
  destruct (Valid_checksum joseph_event Hwf) as (Hiff & _ & Hflip & _).
  destruct (Hflip Hv) as (_ & Hbit & Hbyte).
  split; [exact Hwf|]. split; [exact Hv|].
  split; [exact (proj1 Hiff Hv)|].
  split; [apply Hbit; lia|].
  apply (Hbyte (set_NodeID 5 joseph_event) 1%nat x05 x04).
  - destruct Hwf. split; try assumption; unfold is_uint16; cbn; lia.
  - reflexivity.
  - reflexivity.
  - discriminate.
  - reflexivity.
Defined.

(** X6. [Valid] detects the corruption of any single byte: when an event is
    valid, an event with the same checksum whose encoding differs from
    its encoding in exactly one byte (one or several bits of one byte of
    any field) is not valid. *)
Theorem Valid_detects_corrupted_byte e e' (i : nat) x y :
  Valid e = true ->
  CheckSum e' = CheckSum e ->
  marshalBinary e !! i = Some y -> x <> y ->
  marshalBinary e' = <[i := x]> (marshalBinary e) ->
  Valid e' = false.
Proof.
  unfold Valid. intros Hv Hc Hy Hxy He'.
  apply Z.eqb_eq in Hv. apply Z.eqb_neq. rewrite Hc, <- Hv, He'.
  intros Heq. apply Hxy.
  pose proof (lookup_lt_Some _ _ _ Hy) as Hi.
  rewrite insert_take_drop in Heq by exact Hi.
  rewrite <- (take_drop_middle _ _ _ Hy) in Heq at 3.
  by apply ChecksumIEEE_one_byte in Heq.
Qed.

Lemma Valid_detects_corrupted_byte_witness :
  Valid joseph_event = true /\ Valid (set_NodeID 5 joseph_event) = false.
Proof.
  assert (Hv : Valid joseph_event = true) by (vm_compute; reflexivity).
  split; [exact Hv|].
  apply (Valid_detects_corrupted_byte joseph_event (set_NodeID 5 joseph_event)
           1 x05 x04 Hv).
  - reflexivity.
  - reflexivity.
  - discriminate.
  - reflexivity.
Defined.

(** ** The text form of a UUID *)

Lemma length_16_inv {A} (l : list A) :
  length l = 16%nat ->
  exists a0 a1 a2 a3 a4 a5 a6 a7 a8 a9 a10 a11 a12 a13 a14 a15,
    l = [a0; a1; a2; a3; a4; a5; a6; a7; a8; a9; a10; a11; a12; a13; a14; a15].
Proof.
  intros Hl. do 16 (destruct l as [|? l]; [discriminate|]).
  destruct l; [|discriminate]. repeat eexists.
Qed.

Lemma nibble_cases v :
  0 <= v < 16 ->
  v = 0 \/ v = 1 \/ v = 2 \/ v = 3 \/ v = 4 \/ v = 5 \/ v = 6 \/ v = 7 \/
  v = 8 \/ v = 9 \/ v = 10 \/ v = 11 \/ v = 12 \/ v = 13 \/ v = 14 \/ v = 15.
Proof. lia. Qed.

Lemma hi_nibble_range b : 0 <= Z.shiftr (Z_of_byte b) 4 < 16.
Proof.
  pose proof (Z_of_byte_range b). rewrite Z.shiftr_div_pow2 by lia.
  change (2 ^ 4) with 16. split; [apply Z.div_pos; lia|].
  apply Z.div_lt_upper_bound; lia.
Qed.

Lemma lo_nibble_range b : 0 <= Z.land (Z_of_byte b) 15 < 16.
Proof.
  change 15 with (Z.ones 4). rewrite Z.land_ones by lia.
  apply Z.mod_pos_bound. lia.
Qed.

Lemma hex_digit_In v : 0 <= v < 16 -> In (hex_digit v) hextable.
Proof.
  intros Hv. apply nibble_cases in Hv.
  repeat (destruct Hv as [-> | Hv]; [cbv; tauto|]). subst. cbv; tauto.
Qed.

Lemma hex_digit_inj v w :
  0 <= v < 16 -> 0 <= w < 16 -> hex_digit v = hex_digit w -> v = w.
Proof.
  intros Hv Hw. apply nibble_cases in Hv. apply nibble_cases in Hw.
  repeat (destruct Hv as [-> | Hv]);
    repeat (destruct Hw as [-> | Hw]); subst;
    cbv; intros Heq; (reflexivity || discriminate Heq).
Qed.

Lemma hex_pair_inj a b :
  hex_digit (Z.shiftr (Z_of_byte a) 4) = hex_digit (Z.shiftr (Z_of_byte b) 4) ->
  hex_digit (Z.land (Z_of_byte a) 15) = hex_digit (Z.land (Z_of_byte b) 15) ->
  a = b.
Proof.
  intros Hhi Hlo.
  apply hex_digit_inj in Hhi; [|apply hi_nibble_range..].
  apply hex_digit_inj in Hlo; [|apply lo_nibble_range..].
  apply Z_of_byte_inj.
  rewrite !Z.shiftr_div_pow2 in Hhi by lia.
  change 15 with (Z.ones 4) in Hlo. rewrite !Z.land_ones in Hlo by lia.
  rewrite (Z.div_mod (Z_of_byte a) (2 ^ 4)), (Z.div_mod (Z_of_byte b) (2 ^ 4))
    by lia.
  by rewrite Hhi, Hlo.
Qed.

Lemma UUID_marshalBinary_inj u v :
  UUID_wf u -> UUID_wf v -> UUID_marshalBinary u = UUID_marshalBinary v -> u = v.
Proof.
  intros Hu Hv Heq.
  pose proof (UUID_ReadFrom_marshal UUID_zero u [] Hu ltac:(cbn; lia)) as Ru.
  pose proof (UUID_ReadFrom_marshal UUID_zero v [] Hv ltac:(cbn; lia)) as Rv.
  rewrite Heq in Ru. rewrite Ru in Rv. by injection Rv.
Qed.

Lemma UUID_String_bytes u a0 a1 a2 a3 a4 a5 a6 a7 a8 a9 a10 a11 a12 a13 a14 a15 :
  UUID_marshalBinary u
  = [a0; a1; a2; a3; a4; a5; a6; a7; a8; a9; a10; a11; a12; a13; a14; a15] ->
  UUID_String u
  = (hex_Encode [a0; a1; a2; a3] ++ "-" ++ hex_Encode [a4; a5] ++ "-"
     ++ hex_Encode [a6; a7] ++ "-" ++ hex_Encode [a8; a9] ++ "-"
     ++ hex_Encode [a10; a11; a12; a13; a14; a15])%string.
Proof. unfold UUID_String. by intros ->. Qed.

(** X7. [UUID.String] gives the canonical 8-4-4-4-12 text form: 36 characters,
    a hyphen at the offsets 8, 13, 18 and 23 and a lowercase hexadecimal
    digit at every other offset. *)
Theorem UUID_String_format u :
  length (Node u) = 6%nat ->
  String.length (UUID_String u) = 36%nat
  /\ forall i c, String.get i (UUID_String u) = Some c ->
       if bool_decide (i ∈ [8; 13; 18; 23]%nat) then c = "-"%char
       else In c hextable.
Proof.
  intros H6.
  destruct (length_16_inv _ (UUID_marshalBinary_length u H6))
    as (a0 & a1 & a2 & a3 & a4 & a5 & a6 & a7 & a8 & a9 & a10 & a11 & a12
        & a13 & a14 & a15 & Hb).
  rewrite (UUID_String_bytes _ _ _ _ _ _ _ _ _ _ _ _ _ _ _ _ _ Hb).
  cbn [hex_Encode String.append]. split; [reflexivity|].
  intros i c.
  do 36 (destruct i as [|i];
         [cbn [String.get]; intros [= <-];
          first [ reflexivity
                | apply hex_digit_In, hi_nibble_range
                | apply hex_digit_In, lo_nibble_range ] |]).
  cbn [String.get]. destruct i; discriminate.
Qed.

Lemma UUID_String_format_witness :
  String.length (UUID_String (EventUUID joseph_event)) = 36%nat.
Proof.
  exact (proj1 (UUID_String_format (EventUUID joseph_event) eq_refl)).
Defined.

(** X8. The text form identifies the UUID: two UUIDs with the same string are
    equal. *)
Theorem UUID_String_injective u v :
  UUID_wf u -> UUID_wf v -> UUID_String u = UUID_String v -> u = v.
Proof.
  intros Hu Hv Heq. apply UUID_marshalBinary_inj; [assumption..|].
  destruct (length_16_inv _ (UUID_marshalBinary_length u (wf_Node _ Hu)))
    as (a0 & a1 & a2 & a3 & a4 & a5 & a6 & a7 & a8 & a9 & a10 & a11 & a12
        & a13 & a14 & a15 & Ha).
  destruct (length_16_inv _ (UUID_marshalBinary_length v (wf_Node _ Hv)))
    as (b0 & b1 & b2 & b3 & b4 & b5 & b6 & b7 & b8 & b9 & b10 & b11 & b12
        & b13 & b14 & b15 & Hb).
  rewrite (UUID_String_bytes _ _ _ _ _ _ _ _ _ _ _ _ _ _ _ _ _ Ha) in Heq.
  rewrite (UUID_String_bytes _ _ _ _ _ _ _ _ _ _ _ _ _ _ _ _ _ Hb) in Heq.
  cbn [hex_Encode String.append] in Heq. rewrite Ha, Hb.
  injection Heq as ?.
  repeat match goal with
         | Hhi : hex_digit (Z.shiftr (Z_of_byte ?a) 4) = hex_digit (Z.shiftr (Z_of_byte ?b) 4),
           Hlo : hex_digit (Z.land (Z_of_byte ?a) 15) = hex_digit (Z.land (Z_of_byte ?b) 15) |- _ =>
             pose proof (hex_pair_inj a b Hhi Hlo); clear Hhi Hlo
         end.
  congruence.
Qed.

Lemma UUID_String_injective_witness :
  UUID_wf (EventUUID joseph_event)
  /\ UUID_String (EventUUID joseph_event)
     = "66643236-3039-3063-2d35-3064632d3131"%string
  /\ set_Node (bytes_of_string "0dc-11") (EventUUID joseph_event)
     = EventUUID joseph_event.
Proof.
  assert (Hwf : UUID_wf (EventUUID joseph_event)) by apply joseph_event_valid.
  split; [exact Hwf|]. split; [reflexivity|].
  apply (UUID_String_injective _ _ Hwf Hwf). reflexivity.
Defined.

(** ** The payload lexer and parser on every payload with a separator *)

Lemma value_extent_le rest : (value_extent rest <= length rest)%nat.
Proof.
  unfold value_extent. destruct (_ && _); [apply find_byte_le | lia].
Qed.

Lemma run_loop_None fuel l : run_loop fuel None l = Ret l.
Proof. by destruct fuel. Qed.

(** From the key state, with a [:] ahead, the run sends the tokens of the
    pairs of the remaining input and then the end token. *)
Lemma run_from_key_tokens n : forall l p fuel fs,
  (length (input l) - p <= n)%nat ->
  start l = Z.of_nat p -> pos l = Z.of_nat p -> (p <= length (input l))%nat ->
  occurs colon (drop p (input l)) = true ->
  (4 * (length (input l) - p) + 3 <= fuel)%nat ->
  (length (input l) - p <= fs)%nat ->
  exists l',
    run_loop fuel (Some lexKey) l = Ret l'
    /\ tokens l'
       = tokens l ++ pair_tokens p (split_pairs fs (drop p (input l)))
         ++ [eof_token l].
Proof.
  induction n as [|n IH]; intros l p fuel fs Hn Hs Hp Hle Hocc Hfuel Hfs.
  { unfold occurs in Hocc. apply Nat.ltb_lt in Hocc.
    rewrite length_drop in Hocc. lia. }
  unfold occurs in Hocc. apply Nat.ltb_lt in Hocc.
  rewrite length_drop in Hocc.
  destruct (step_lexKey l p Hs Hp Hle) as [w1 Hkey].
  destruct fs as [|fs]; [lia|]. cbn [split_pairs pair_tokens].
  remember (drop p (input l)) as rest0 eqn:Erest0.
  remember (find_byte colon rest0) as k eqn:Ek.
  assert (Hrest0 : length rest0 = (length (input l) - p)%nat)
    by (subst rest0; apply length_drop).
  destruct fuel as [|[|[|fuel]]]; try lia.
  rewrite (run_loop_step _ _ _ _ _ Hkey).
  rewrite (run_loop_step _ lexSeparator _ _ _ eq_refl).
  unfold ignore, set_pos, set_start.
  cbn [pos input start width tokens].
  change (Z.of_nat (length separator)) with 1.
  remember (p + k + 1)%nat as q eqn:Eq.
  replace (Z.of_nat (p + k) + 1) with (Z.of_nat q) by lia.
  match goal with
  | |- context [run_loop _ (Some lexValue) ?l1] =>
      destruct (step_lexValue l1 q eq_refl eq_refl) as [w2 Hval];
        [cbn [input]; lia|]
  end.
  cbn [input tokens] in Hval.
  assert (Erest : drop (k + 1) rest0 = drop q (input l))
    by (subst rest0; rewrite drop_drop; f_equal; lia).
  rewrite Erest.
  remember (drop q (input l)) as rest eqn:Erest'.
  remember (value_extent rest) as m eqn:Em.
  assert (Hrest : length rest = (length (input l) - q)%nat)
    by (subst rest; apply length_drop).
  assert (Hklen : length (take k rest0) = k) by (rewrite length_take; lia).
  assert (Hm_le : (m <= length rest)%nat) by (subst m; apply value_extent_le).
  assert (Hmlen : length (take m rest) = m) by (rewrite length_take; lia).
  rewrite Hklen, Hmlen.
  replace (p + k + 1 + m)%nat with (q + m)%nat by lia.
  destruct (more_pairs rest) eqn:Hmore;
    rewrite (run_loop_step _ _ _ _ _ Hval).
  - apply more_pairs_extent in Hmore as (Hm & Hcomma & Hcolon).
    rewrite <- Em in Hm.
    destruct fuel as [|fuel]; [lia|].
    rewrite (run_loop_step _ lexPairSeparator _ _ _ eq_refl).
    unfold ignore, set_pos, set_start.
    cbn [pos input start width tokens].
    change (Z.of_nat (length pairSeparator)) with 1.
    remember (q + m + 1)%nat as p' eqn:Ep'.
    replace (Z.of_nat (q + m) + 1) with (Z.of_nat p') by lia.
    assert (Erest2 : drop (m + 1) rest = drop p' (input l))
      by (subst rest; rewrite drop_drop; f_equal; lia).
    match goal with
    | |- context [run_loop _ (Some lexKey) ?l2] =>
        destruct (IH l2 p' fuel fs) as (l' & Hrun & Htok)
    end.
    + cbn [input]. lia.
    + reflexivity.
    + reflexivity.
    + cbn [input]. lia.
    + cbn [input]. unfold occurs. apply Nat.ltb_lt.
      rewrite length_drop. rewrite <- Erest2.
      pose proof (find_byte_skip colon rest (m + 1)) as Hsk.
      assert (Hbefore : Forall (fun b => b <> colon) (take (m + 1) rest))
        by (apply find_byte_before_le; lia).
      specialize (Hsk ltac:(lia) Hbefore). lia.
    + cbn [input]. lia.
    + cbn [input]. lia.
    + exists l'. split; [exact Hrun|].
      rewrite Htok. cbn [tokens input]. unfold eof_token. cbn [input].
      rewrite Erest2. rewrite <- !app_assoc. reflexivity.
  - apply no_more_pairs_extent in Hmore. rewrite <- Em in Hmore.
    assert (Hend : (q + m)%nat = length (input l)) by lia.
    rewrite Hend, run_loop_None. eexists. split; [reflexivity|].
    cbn [tokens pair_tokens]. unfold eof_token.
    rewrite <- !app_assoc. reflexivity.
Qed.

Lemma lex_pairs_tokens b :
  occurs colon b = true ->
  lex (string_of_bytes b)
  = Ret (pair_tokens 0 (pairs b)
         ++ [mkToken tokenEOF (Z.of_nat (length b)) EmptyString]).
Proof.
  intros Hocc. unfold lex, run, pairs. rewrite bytes_of_string_of_bytes.
  cbn [input].
  destruct (run_from_key_tokens (length b) (mkLexer b 0 0 0 []) 0
              (4 * length b + 4) (length b)) as (l' & Hrun & Htok);
    cbn [input start pos]; rewrite ?drop_0;
    try (reflexivity || lia || assumption).
  rewrite Hrun. cbn [exec_bind]. rewrite Htok. reflexivity.
Qed.

Lemma split_pairs_nonempty fs b : (0 < fs)%nat -> split_pairs fs b <> [].
Proof. destruct fs; [lia|]. discriminate. Qed.

(** The pairs of a payload, written out again, are the payload. *)
Lemma render_split_pairs fs : forall b,
  occurs colon b = true -> (length b <= fs)%nat ->
  render (split_pairs fs b) = b.
Proof.
  induction fs as [|fs IH]; intros b Hocc Hfs.
  { unfold occurs in Hocc. apply Nat.ltb_lt in Hocc. lia. }
  unfold occurs in Hocc. apply Nat.ltb_lt in Hocc.
  cbn [split_pairs render].
  remember (find_byte colon b) as k eqn:Ek.
  pose proof (find_byte_at colon b ltac:(lia)) as Hat. rewrite <- Ek in Hat.
  remember (drop (k + 1) b) as rest eqn:Erest.
  assert (Hb : b = take k b ++ colon :: rest).
  { subst rest. replace (k + 1)%nat with (S k) by lia.
    symmetry. by apply take_drop_middle. }
  assert (Hrest : length rest = (length b - (k + 1))%nat)
    by (subst rest; apply length_drop).
  etransitivity; [|symmetry; exact Hb]. f_equal. f_equal.
  destruct (more_pairs rest) eqn:Hmore.
  - apply more_pairs_extent in Hmore as (Hm & Hcomma & Hcolon).
    rewrite Hm.
    pose proof (find_byte_at comma rest Hcomma) as Hat2.
    remember (find_byte comma rest) as m eqn:Em.
    assert (Hsk : find_byte colon rest
                  = (m + 1 + find_byte colon (drop (m + 1) rest))%nat).
    { apply find_byte_skip; [lia|]. apply find_byte_before_le. lia. }
    assert (Hocc2 : occurs colon (drop (m + 1) rest) = true).
    { unfold occurs. apply Nat.ltb_lt. rewrite length_drop. lia. }
    assert (Hlen2 : (length (drop (m + 1) rest) <= fs)%nat)
      by (rewrite length_drop; lia).
    pose proof (IH _ Hocc2 Hlen2) as Hrec.
    destruct (split_pairs fs (drop (m + 1) rest)) as [|kv ps] eqn:Esp.
    { exfalso. revert Esp. apply split_pairs_nonempty.
      unfold occurs in Hocc2. apply Nat.ltb_lt in Hocc2. lia. }
    rewrite Hrec. replace (m + 1)%nat with (S m) by lia.
    by apply take_drop_middle.
  - apply no_more_pairs_extent in Hmore. rewrite Hmore.
    by rewrite firstn_all, app_nil_r.
Qed.

Lemma parse_tokens_pairs ps : forall off key m eof_tok,
  typ eof_tok = tokenEOF ->
  parse_tokens (pair_tokens off ps ++ [eof_tok]) key m
  = fold_left (fun m kv => <[string_of_bytes kv.1 := string_of_bytes kv.2]> m)
              ps m.
Proof.
  induction ps as [|[k v] ps IH]; intros off key m t Ht.
  - cbn. by rewrite Ht.
  - cbn [pair_tokens app parse_tokens typ val fold_left fst snd]. by apply IH.
Qed.

Lemma fold_insert_list_to_map (ps : list (list byte * list byte)) :
  forall l : list (string * string),
  fold_left (fun m kv => <[string_of_bytes kv.1 := string_of_bytes kv.2]> m)
            ps (list_to_map l : gmap string string)
  = list_to_map
      (reverse (map (fun kv => (string_of_bytes kv.1, string_of_bytes kv.2)) ps)
       ++ l).
Proof.
  induction ps as [|[k v] ps IH]; intros l; [done|].
  cbn [fold_left map fst snd]. rewrite reverse_cons, <- app_assoc.
  cbn [app]. rewrite <- IH. reflexivity.
Qed.

Lemma fold_insert_pairs_map (ps : list (list byte * list byte)) :
  fold_left (fun m kv => <[string_of_bytes kv.1 := string_of_bytes kv.2]> m)
            ps (∅ : gmap string string)
  = pairs_map ps.
Proof.
  unfold pairs_map. pose proof (fold_insert_list_to_map ps []) as Hf.
  rewrite app_nil_r in Hf. exact Hf.
Qed.

(** X9. The lexer on any payload that contains a [:].  It sends the key and
    the value token of every pair of the payload, each with the offset of
    its end, and then the end token; the pairs, written out again with
    their separators, are the payload, so no byte is lost or read
    twice. *)
Theorem lex_pairs (b : list byte) :
  occurs colon b = true ->
  lex (string_of_bytes b)
  = Ret (pair_tokens 0 (pairs b)
         ++ [mkToken tokenEOF (Z.of_nat (length b)) EmptyString])
  /\ render (pairs b) = b
  /\ pairs b <> [].
Proof.
  intros Hocc. split; [by apply lex_pairs_tokens|]. split.
  - by apply render_split_pairs.
  - apply split_pairs_nonempty. unfold occurs in Hocc.
    apply Nat.ltb_lt in Hocc. lia.
Qed.

Lemma lex_pairs_witness :
  lex "a:b,c:d,e"
  = Ret [ mkToken tokenKey 1 "a"; mkToken tokenValue 3 "b";
          mkToken tokenKey 5 "c"; mkToken tokenValue 9 "d,e";
          mkToken tokenEOF 9 EmptyString ].
Proof.
  exact (proj1 (lex_pairs (bytes_of_string "a:b,c:d,e") eq_refl)).
Defined.

(** X10. [parsePayloadRaw] on any payload that contains a [:]: the map it
    stores is the map of the pairs of the payload, a later pair
    replacing an earlier one with the same key. *)
Theorem parsePayloadRaw_pairs (e : Event) :
  occurs colon (PayloadBytes e) = true ->
  parsePayloadRaw e = Ret (set_Payload (pairs_map (pairs (PayloadBytes e))) e).
Proof.
  intros Hocc. unfold parsePayloadRaw. cbn [PayloadBytes set_Payload Payload].
  rewrite lex_pairs_tokens by exact Hocc. cbn [exec_bind].
  by rewrite parse_tokens_pairs, fold_insert_pairs_map.
Qed.

Lemma parsePayloadRaw_pairs_witness :
  parsePayloadRaw (set_PayloadBytes (bytes_of_string "k:1,k:2,j:3") Event_zero)
  = Ret (set_Payload {[ "k" := "2"; "j" := "3" ]}
           (set_PayloadBytes (bytes_of_string "k:1,k:2,j:3") Event_zero)).
Proof.
  rewrite (parsePayloadRaw_pairs
             (set_PayloadBytes (bytes_of_string "k:1,k:2,j:3") Event_zero)
             eq_refl).
  reflexivity.
Defined.

(** ** Payloads written from pairs *)

Lemma find_byte_notin c s : c ∉ s -> find_byte c s = length s.
Proof.
  induction s as [|x s IH]; intros Hc; [done|].
  cbn [find_byte length]. apply not_elem_of_cons in Hc as [Hx Hs].
  destruct (decide (x = c)); [congruence|]. by rewrite IH.
Qed.

Lemma find_byte_app_notin c s t :
  c ∉ s -> find_byte c (s ++ t) = (length s + find_byte c t)%nat.
Proof.
  induction s as [|x s IH]; intros Hc; [done|].
  cbn [find_byte length app]. apply not_elem_of_cons in Hc as [Hx Hs].
  destruct (decide (x = c)); [congruence|]. by rewrite IH.
Qed.

Lemma find_byte_hit c t : find_byte c (c :: t) = 0%nat.
Proof. cbn [find_byte]. by destruct (decide (c = c)). Qed.

Lemma render_colon kv ps :
  wf_pairs (kv :: ps) ->
  (find_byte colon (render (kv :: ps)) < length (render (kv :: ps)))%nat.
Proof.
  destruct kv as [k v]. intros (Hk & _ & _). cbn [render].
  rewrite find_byte_app_notin, find_byte_hit by exact Hk.
  rewrite length_app. cbn [length]. lia.
Qed.

Lemma split_pairs_render ps : forall fs,
  wf_pairs ps -> (length (render ps) <= fs)%nat ->
  split_pairs fs (render ps) = ps.
Proof.
  induction ps as [|[k v] ps IH]; intros fs Hwf Hfs; [destruct Hwf|].
  destruct Hwf as (Hk & Hv & Hps).
  cbn [render] in Hfs |- *.
  destruct fs as [|fs]; [rewrite length_app in Hfs; cbn in Hfs; lia|].
  cbn [split_pairs].
  rewrite find_byte_app_notin, find_byte_hit, Nat.add_0_r by exact Hk.
  rewrite take_app_length.
  replace (drop (length k + 1) (k ++ colon :: v ++ match ps with
                                                   | [] => []
                                                   | _ :: _ => comma :: render ps
                                                   end))
    with (v ++ match ps with [] => [] | _ :: _ => comma :: render ps end).
  2:{ rewrite drop_app_ge by lia.
      replace (length k + 1 - length k)%nat with 1%nat by lia. reflexivity. }
  rewrite !length_app in Hfs. cbn [length] in Hfs.
  destruct ps as [|kv ps].
  - rewrite app_nil_r.
    assert (Hext : value_extent v = length v).
    { unfold value_extent, occurs. rewrite (find_byte_notin colon v Hv).
      by rewrite Nat.ltb_irrefl. }
    unfold more_pairs. rewrite Hext, Nat.ltb_irrefl.
    by rewrite firstn_all.
  - destruct Hps as (Hcomma & Hwf'). cbn [length] in Hfs.
    pose proof (render_colon kv ps Hwf') as Hcol.
    remember (render (kv :: ps)) as tail eqn:Etail.
    assert (Hext : value_extent (v ++ comma :: tail) = length v).
    { unfold value_extent, occurs.
      rewrite (find_byte_app_notin colon v _ Hv).
      rewrite (find_byte_app_notin comma v _ Hcomma), find_byte_hit.
      cbn [find_byte]. destruct (decide (comma = colon)); [discriminate|].
      rewrite length_app. cbn [length].
      rewrite Nat.add_0_r.
      replace (length v + S (find_byte colon tail) <? length v + S (length tail))%nat
        with true by (symmetry; apply Nat.ltb_lt; lia).
      replace (length v <? length v + S (length tail))%nat
        with true by (symmetry; apply Nat.ltb_lt; lia).
      replace (length v <? length v + S (find_byte colon tail))%nat
        with true by (symmetry; apply Nat.ltb_lt; lia).
      reflexivity. }
    unfold more_pairs. rewrite Hext, length_app. cbn [length].
    replace (length v <? length v + S (length tail))%nat
      with true by (symmetry; apply Nat.ltb_lt; lia).
    rewrite take_app_length. f_equal.
    rewrite drop_app_ge by lia.
    replace (length v + 1 - length v)%nat with 1%nat by lia.
    cbn [drop]. rewrite ?length_app in Hfs. cbn [length] in Hfs.
    apply IH; [exact Hwf' | lia].
Qed.

Lemma pairs_render ps : wf_pairs ps -> pairs (render ps) = ps.
Proof. intros Hwf. unfold pairs. by apply split_pairs_render. Qed.

Lemma render_occurs ps : wf_pairs ps -> occurs colon (render ps) = true.
Proof.
  destruct ps as [|kv ps]; [intros []|]. intros Hwf.
  unfold occurs. apply Nat.ltb_lt. by apply render_colon.
Qed.

Lemma string_of_bytes_inj a b : string_of_bytes a = string_of_bytes b -> a = b.
Proof.
  intros Heq. apply (f_equal bytes_of_string) in Heq.
  by rewrite !bytes_of_string_of_bytes in Heq.
Qed.

Lemma string_of_bytes_Inj : Inj (=) (=) string_of_bytes.
Proof. intros a b. apply string_of_bytes_inj. Qed.

Lemma pairs_map_lookup ps k v :
  NoDup ps.*1 -> (k, v) ∈ ps ->
  pairs_map ps !! string_of_bytes k = Some (string_of_bytes v).
Proof.
  intros Hnd Hin. unfold pairs_map. apply elem_of_list_to_map_1.
  - rewrite fmap_reverse, reverse_Permutation.
    change (map ?f ?l) with (f <$> l). rewrite <- list_fmap_compose.
    replace ((fst ∘ (fun kv : list byte * list byte =>
                       (string_of_bytes kv.1, string_of_bytes kv.2))) <$> ps)
      with (string_of_bytes <$> ps.*1)
      by (rewrite <- list_fmap_compose; reflexivity).
    exact (NoDup_fmap_2 (Inj0:=string_of_bytes_Inj) _ _ Hnd).
  - apply elem_of_reverse. change (map ?f ?l) with (f <$> l).
    apply list_elem_of_fmap. by exists (k, v).
Qed.

(** X11. A payload written from well-formed pairs is read back as these pairs:
    the lexer sends their tokens, and [parsePayloadRaw] stores their map.
    With pairwise distinct keys every pair is found in the map. *)
Theorem parsePayloadRaw_render (e : Event) ps :
  wf_pairs ps -> PayloadBytes e = render ps ->
  lex (string_of_bytes (PayloadBytes e))
  = Ret (pair_tokens 0 ps
         ++ [mkToken tokenEOF (Z.of_nat (length (render ps))) EmptyString])
  /\ parsePayloadRaw e = Ret (set_Payload (pairs_map ps) e)
  /\ (NoDup ps.*1 ->
      forall k v, (k, v) ∈ ps ->
        pairs_map ps !! string_of_bytes k = Some (string_of_bytes v)).
Proof.
  intros Hwf Hb. pose proof (render_occurs ps Hwf) as Hocc.
  split; [|split].
  - rewrite Hb, lex_pairs_tokens by exact Hocc. by rewrite pairs_render.
  - rewrite <- (pairs_render ps Hwf), <- Hb.
    unfold parsePayloadRaw. cbn [PayloadBytes set_Payload Payload].
    rewrite lex_pairs_tokens by (by rewrite Hb). cbn [exec_bind].
    by rewrite parse_tokens_pairs, fold_insert_pairs_map.
  - intros Hnd k v Hin. by apply pairs_map_lookup.
Qed.

Lemma parsePayloadRaw_render_witness :
  parsePayloadRaw joseph_event = Ret joseph_event.
Proof.
  assert (Hwf : wf_pairs [ (bytes_of_string "username", bytes_of_string "joseph");
                           (bytes_of_string "password", bytes_of_string "Stingercoconut") ]).
  { cbn. repeat split; apply (bool_decide_unpack _); vm_compute; exact I. }
  destruct (parsePayloadRaw_render joseph_event _ Hwf eq_refl) as (_ & Hp & _).
  rewrite Hp. reflexivity.
Defined.

(** ** The scanning primitives of the lexer *)

Lemma first_loop_spec l p : forall chars seen firstIndex firstString,
  pos l = Z.of_nat p -> (p <= length (input l))%nat ->
  ((firstIndex < 0 /\ firstString = []
    /\ forall c', c' ∈ seen -> strings.Index (drop p (input l)) c' < 0)
   \/ (firstString ∈ seen
       /\ firstIndex = strings.Index (drop p (input l)) firstString
       /\ 0 <= firstIndex
       /\ forall c', c' ∈ seen -> 0 <= strings.Index (drop p (input l)) c' ->
                     firstIndex <= strings.Index (drop p (input l)) c')) ->
  exists c,
    first_loop l chars firstIndex firstString = Ret c
    /\ ((c = []
         /\ forall c', c' ∈ seen ++ chars ->
                       strings.Index (drop p (input l)) c' < 0)
        \/ (c ∈ seen ++ chars
            /\ 0 <= strings.Index (drop p (input l)) c
            /\ forall c', c' ∈ seen ++ chars ->
                 0 <= strings.Index (drop p (input l)) c' ->
                 strings.Index (drop p (input l)) c
                 <= strings.Index (drop p (input l)) c')).
Proof.
  intros chars. induction chars as [|c chars IH];
    intros seen fi fs Hp Hle Hinv.
  - exists fs. split; [reflexivity|]. rewrite app_nil_r.
    destruct Hinv as [(Hfi & -> & Hall) | (Hin & -> & H0 & Hmin)];
      [left | right]; auto.
  - cbn [first_loop]. rewrite (index_spec l c p Hp Hle). cbn [exec_bind].
    set (rest := drop p (input l)) in *.
    replace (seen ++ c :: chars) with ((seen ++ [c]) ++ chars)
      by (by rewrite <- app_assoc).
    destruct (Z.leb_spec 0 (strings.Index rest c)) as [Hi|Hi]; cbn [andb].
    + destruct (Z.ltb_spec fi 0) as [Hneg|Hpos]; cbn [orb].
      * apply IH; [assumption..|]. right.
        destruct Hinv as [(_ & _ & Hall) | (_ & _ & H0 & _)]; [|lia].
        split; [apply elem_of_app; right; by apply list_elem_of_singleton|].
        split; [reflexivity|]. split; [exact Hi|].
        intros c' Hc' H0'. apply elem_of_app in Hc' as [Hc'|Hc'].
        -- specialize (Hall c' Hc'). lia.
        -- apply list_elem_of_singleton in Hc' as ->. lia.
      * destruct Hinv as [(Hfi & _) | (Hin & Hfi & H0 & Hmin)]; [lia|].
        destruct (Z.ltb_spec (strings.Index rest c) fi) as [Hlt|Hge].
        -- apply IH; [assumption..|]. right.
           split; [apply elem_of_app; right; by apply list_elem_of_singleton|].
           split; [reflexivity|]. split; [exact Hi|].
           intros c' Hc' H0'. apply elem_of_app in Hc' as [Hc'|Hc'].
           ++ specialize (Hmin c' Hc' H0'). lia.
           ++ apply list_elem_of_singleton in Hc' as ->. lia.
        -- apply IH; [assumption..|]. right.
           split; [apply elem_of_app; by left|].
           split; [exact Hfi|]. split; [exact H0|].
           intros c' Hc' H0'. apply elem_of_app in Hc' as [Hc'|Hc'].
           ++ by apply Hmin.
           ++ apply list_elem_of_singleton in Hc' as ->. lia.
    + apply IH; [assumption..|].
      destruct Hinv as [(Hfi & Hfs & Hall) | (Hin & Hfi & H0 & Hmin)].
      * left. split; [exact Hfi|]. split; [exact Hfs|].
        intros c' Hc'. apply elem_of_app in Hc' as [Hc'|Hc'].
        -- by apply Hall.
        -- apply list_elem_of_singleton in Hc' as ->. exact Hi.
      * right. split; [apply elem_of_app; by left|].
        split; [exact Hfi|]. split; [exact H0|].
        intros c' Hc' H0'. apply elem_of_app in Hc' as [Hc'|Hc'].
        -- by apply Hmin.
        -- apply list_elem_of_singleton in Hc' as ->. lia.
Qed.

(** X12. [first] does what its comment says, with the position inside the
    input: it returns the empty string when none of [chars] occurs in the
    rest of the input, and otherwise one of [chars] that occurs there and
    whose first occurrence is the earliest.  With the position past the
    end of the input and some character to look for, it panics. *)
Theorem first_earliest l chars p :
  pos l = Z.of_nat p -> (p <= length (input l))%nat ->
  (exists c,
     first l chars = Ret c
     /\ ((c = []
          /\ forall c', c' ∈ chars -> strings.Index (drop p (input l)) c' < 0)
         \/ (c ∈ chars
             /\ 0 <= strings.Index (drop p (input l)) c
             /\ forall c', c' ∈ chars ->
                  0 <= strings.Index (drop p (input l)) c' ->
                  strings.Index (drop p (input l)) c
                  <= strings.Index (drop p (input l)) c')))
  /\ (forall l' c chars',
        Z.of_nat (length (input l')) < pos l' ->
        first l' (c :: chars') = Panic).
Proof.
  intros Hp Hle. split.
  - apply (first_loop_spec l p chars [] (-1) [] Hp Hle).
    left. split; [lia|]. split; [reflexivity|].
    intros c' Hc'. by apply elem_of_nil in Hc'.
  - intros l' c chars' Hl'. unfold first. cbn [first_loop].
    by rewrite index_panic.
Qed.

Lemma first_earliest_witness :
  first (mkLexer (bytes_of_string "a:b,c:d") 2 2 0 []) [pairSeparator; separator]
  = Ret pairSeparator.
Proof.
  destruct (proj1 (first_earliest
                     (mkLexer (bytes_of_string "a:b,c:d") 2 2 0 [])
                     [pairSeparator; separator] 2 eq_refl
                     ltac:(vm_compute; lia)))
    as (c & Hc & _).
  rewrite Hc. vm_compute in Hc. symmetry. exact Hc.
Defined.

(** X13. [next] reads one rune and never moves past the end of the input; at
    the end it returns [eof] with width 0, and no rune it reads is [eof].
    [backup] after [next] restores the position. *)
Theorem next_backup l p :
  pos l = Z.of_nat p ->
  exists r w,
    next l = Ret (r, moved l (pos l + w) w)
    /\ backup (moved l (pos l + w) w) = moved l (pos l) w
    /\ if isEOF l then r = eof /\ w = 0
       else r <> eof /\ 1 <= w /\ pos l + w <= Z.of_nat (length (input l)).
Proof.
  intros Hp.
  assert (Hback : forall w, backup (moved l (pos l + w) w) = moved l (pos l) w).
  { intros w. unfold backup, set_pos, moved.
    cbn [input start pos width tokens]. f_equal. lia. }
  unfold isEOF. destruct (Z.leb_spec (Z.of_nat (length (input l))) (pos l)) as [Hge|Hlt].
  - exists eof, 0. split; [|split; [apply Hback | done]].
    unfold next, isEOF. destruct (Z.leb_spec (Z.of_nat (length (input l))) (pos l)); [|lia].
    unfold set_width, moved. by rewrite Z.add_0_r.
  - destruct (drop p (input l)) as [|x s] eqn:Hs.
    { apply (f_equal length) in Hs. rewrite length_drop in Hs. cbn in Hs. lia. }
    pose proof (next_rune l p x s Hp Hs) as Hn.
    pose proof (DecodeRuneInString_spec x s) as Hd.
    destruct (utf8.DecodeRuneInString (x :: s)) as [r w].
    exists r, w. split; [exact Hn|]. split; [apply Hback|].
    destruct Hd as [Hw Hr].
    assert (Hlen : Z.of_nat (length (x :: s)) = Z.of_nat (length (input l)) - pos l).
    { rewrite <- Hs, length_drop. lia. }
    split; [|lia]. unfold eof.
    pose proof (Z_of_byte_range x).
    destruct Hr as [(_ & -> & _) | (Hr & _)]; lia.
Qed.

Lemma next_backup_witness :
  exists r w,
    next (mkLexer (bytes_of_string "a:b") 0 3 0 [])
    = Ret (r, moved (mkLexer (bytes_of_string "a:b") 0 3 0 []) (3 + w) w)
    /\ r = eof /\ w = 0.
Proof.
  destruct (next_backup (mkLexer (bytes_of_string "a:b") 0 3 0 []) 3 eq_refl)
    as (r & w & Hn & _ & Hr).
  exists r, w. split; [exact Hn|]. exact Hr.
Defined.

(** X14. [acceptUntil] with a one-byte ASCII delimiter moves the position to
    the first occurrence of that byte at or after the position, or to the
    end of the input when there is none, whatever bytes lie in between
    (well-formed UTF-8 or not); [acceptUntilEOF] moves it to the end.
    Neither changes the start of the token or the tokens sent. *)
Theorem acceptUntil_first_delimiter c l p :
  Z_of_byte c < 128 ->
  pos l = Z.of_nat p -> (p <= length (input l))%nat ->
  (exists w,
     acceptUntil [c] l
     = Ret (moved l (Z.of_nat (p + find_byte c (drop p (input l)))) w))
  /\ acceptUntilEOF l = Ret (moved l (Z.of_nat (length (input l))) 0)
  /\ (p + find_byte c (drop p (input l)) <= length (input l))%nat
  /\ (input l !! (p + find_byte c (drop p (input l)))%nat = Some c
      \/ (p + find_byte c (drop p (input l)))%nat = length (input l))
  /\ Forall (fun b => b <> c) (take (find_byte c (drop p (input l))) (drop p (input l))).
Proof.
  intros Hc Hp Hle.
  pose proof (find_byte_le c (drop p (input l))) as Hk.
  rewrite length_drop in Hk.
  split; [by apply acceptUntil_spec|].
  split; [by apply (acceptUntilEOF_spec l p)|].
  split; [lia|]. split; [|apply find_byte_before].
  destruct (decide (find_byte c (drop p (input l)) < length (drop p (input l)))%nat)
    as [Hlt|Hge].
  - left. pose proof (find_byte_at c _ Hlt) as Hat.
    by rewrite lookup_drop in Hat.
  - right. rewrite length_drop in Hge. lia.
Qed.

Lemma acceptUntil_first_delimiter_witness :
  exists w,
    acceptUntil [comma] (mkLexer [xe2; x82; x3a; xff; x2c; x61] 0 0 0 [])
    = Ret (moved (mkLexer [xe2; x82; x3a; xff; x2c; x61] 0 0 0 []) 4 w).
Proof.
  exact (proj1 (acceptUntil_first_delimiter comma
                  (mkLexer [xe2; x82; x3a; xff; x2c; x61] 0 0 0 []) 0
                  ltac:(vm_compute; reflexivity) eq_refl ltac:(vm_compute; lia))).
Defined.

(** ** The order of the ranking *)

(** X15. [Less] is a strict total order on the pairs of count and label, which
    is what [sort.Sort] needs to give a definite result: nothing is less
    than itself, [Less] is asymmetric and transitive, and two entries of
    which neither is less than the other have the same count and the same
    label. *)
Theorem Less_strict_order :
  (forall a, Less a a = false)
  /\ (forall a b, Less a b = true -> Less b a = false)
  /\ (forall a b c, Less a b = true -> Less b c = true -> Less a c = true)
  /\ (forall a b, Less a b = false -> Less b a = false ->
        Occurrence a = Occurrence b /\ Item a = Item b).
Proof.
  split; [|split; [|split]].
  - intros a. apply not_Less_ranks_before.
    destruct (ranks_before_total a a); assumption.
  - intros a b Hab. apply not_Less_ranks_before.
    destruct (ranks_before_total a b) as [H|H]; [exact H|].
    apply not_Less_ranks_before in H. congruence.
  - intros a b c Hab Hbc.
    destruct (Less a c) eqn:Hac; [reflexivity|].
    apply not_Less_ranks_before in Hac.
    assert (Hrab : ranks_before a b).
    { destruct (ranks_before_total a b) as [H|H]; [exact H|].
      apply not_Less_ranks_before in H. congruence. }
    pose proof (ranks_before_trans _ _ _ Hac Hrab) as Hcb.
    apply not_Less_ranks_before in Hcb. congruence.
  - intros a b Hab Hba.
    apply not_Less_ranks_before in Hab, Hba. unfold ranks_before in *.
    destruct Hab as [?|[? Hl1]], Hba as [?|[? Hl2]]; try lia.
    split; [lia|]. by apply String.leb_antisym.
Qed.

(** ** The findings *)

Lemma int_wrap_succ a : int_wrap (int_wrap a + 1) = int_wrap (a + 1).
Proof.
  unfold int_wrap.
  replace ((a + 2 ^ 63) mod 2 ^ 64 - 2 ^ 63 + 1 + 2 ^ 63)
    with ((a + 2 ^ 63) mod 2 ^ 64 + 1) by lia.
  rewrite Z.add_mod_idemp_l by lia. f_equal. f_equal. lia.
Qed.

Lemma counted_snoc_false label evs e :
  Some (count_item label (counted false label evs))
  = counted false label (evs ++ [e]).
Proof.
  unfold count_item, counted.
  destruct evs as [|e0 evs]; cbn [app default from_option id].
  - reflexivity.
  - cbn [Events Occurrence]. rewrite int_wrap_succ. do 3 f_equal.
    cbn [length]. rewrite length_app. cbn [length]. lia.
Qed.

Lemma counted_snoc_true label evs e :
  Some (count_event e label (counted true label evs))
  = counted true label (evs ++ [e]).
Proof.
  unfold count_event, counted.
  destruct evs as [|e0 evs]; cbn [app default from_option id].
  - reflexivity.
  - cbn [Events Occurrence]. rewrite int_wrap_succ. do 3 f_equal.
    cbn [length]. rewrite length_app. cbn [length]. lia.
Qed.

Lemma filter_snoc {A} (P : A -> Prop) `{forall x, Decision (P x)} l x :
  filter P (l ++ [x]) = filter P l ++ (if decide (P x) then [x] else []).
Proof.
  rewrite filter_app. reflexivity.
Qed.

Lemma payload_key_of_name k c :
  payload_key_of k = Some c <-> k = payload_key_name c.
Proof.
  unfold payload_key_of.
  destruct (String.eqb_spec k "email") as [->|H1].
  { split; [intros [= <-]; reflexivity|]. by destruct c. }
  destruct (String.eqb_spec k "password") as [->|H2].
  { split; [intros [= <-]; reflexivity|]. by destruct c. }
  destruct (String.eqb_spec k "user-agent") as [->|H3].
  { split; [intros [= <-]; reflexivity|]. by destruct c. }
  destruct (String.eqb_spec k "username") as [->|H4].
  { split; [intros [= <-]; reflexivity|]. by destruct c. }
  split; [discriminate|]. intros ->. by destruct c.
Qed.

Lemma payload_key_name_inj c c' :
  payload_key_name c = payload_key_name c' -> c = c'.
Proof. by destruct c, c'. Qed.

Lemma selected_map_set c c' v f :
  selected_map c (set_selected_map c' v f)
  = if decide (c = c') then v else selected_map c f.
Proof. by destruct c, c', f. Qed.

Lemma set_selected_map_other c v f :
  ByProtocol (set_selected_map c v f) = ByProtocol f
  /\ Submitters (set_selected_map c v f) = Submitters f
  /\ findings_Events (set_selected_map c v f) = findings_Events f.
Proof. by destruct c, f. Qed.

Section PopulateProps.
Variable range_payload : gmap string string -> list (string * string).

(** The effect of the loop over the payload of one event. *)
Lemma populate_pairs event : forall l f log,
  NoDup l.*1 ->
  let st := fold_left (populate_pair event) l (f, log) in
  ByProtocol st.1 = ByProtocol f
  /\ Submitters st.1 = Submitters f
  /\ findings_Events st.1 = findings_Events f
  /\ st.2 = log ++ map (fun kv => unknown_payload_key
                                    (UUID_String (EventUUID event)) kv.1)
                       (filter (fun kv => payload_key_of kv.1 = None) l)
  /\ forall c,
       selected_map c st.1
       = match (list_to_map l : gmap string string) !! payload_key_name c with
         | Some v =>
             let m := default ∅ (selected_map c f !! Protocol event) in
             <[Protocol event := <[v := count_item v (m !! v)]> m]>
               (selected_map c f)
         | None => selected_map c f
         end.
Proof.
  induction l as [|[k v] l IH]; intros f log Hnd.
  { cbn. rewrite app_nil_r. repeat split. }
  cbn [fmap list_fmap fst] in Hnd. apply NoDup_cons in Hnd as [Hk Hnd].
  cbn [fold_left populate_pair].
  destruct (payload_key_of k) as [c0|] eqn:Hkey.
  - apply payload_key_of_name in Hkey as ->.
    match goal with
    | |- context [fold_left _ l (?f1, log)] =>
        destruct (IH f1 log Hnd) as (HB & HS & HE & HL & HC);
          destruct (set_selected_map_other c0
                      (<[Protocol event :=
                           <[v := count_item v
                                    (default ∅ (selected_map c0 f !! Protocol event) !! v)]>
                             (default ∅ (selected_map c0 f !! Protocol event))]>
                         (selected_map c0 f)) f) as (HB1 & HS1 & HE1)
    end.
    cbv zeta in *.
    split; [by rewrite HB|]. split; [by rewrite HS|]. split; [by rewrite HE|].
    split.
    + rewrite HL. f_equal. rewrite filter_cons_False; [reflexivity|].
      cbn [fst]. intros Hn.
      pose proof (proj2 (payload_key_of_name (payload_key_name c0) c0) eq_refl).
      congruence.
    + intros c. rewrite HC, selected_map_set, list_to_map_cons.
      destruct (decide (c = c0)) as [->|Hne].
      * rewrite (lookup_insert_eq (list_to_map l) (payload_key_name c0) v).
        assert (Hnone : (list_to_map l : gmap string string)
                        !! payload_key_name c0 = None).
        { apply not_elem_of_list_to_map_1. exact Hk. }
        rewrite Hnone. reflexivity.
      * rewrite lookup_insert_ne
          by (intros Heq; apply payload_key_name_inj in Heq; congruence).
        reflexivity.
  - destruct (IH f (log ++ [unknown_payload_key (UUID_String (EventUUID event)) k])
                Hnd) as (HB & HS & HE & HL & HC).
    cbv zeta in *.
    split; [exact HB|]. split; [exact HS|]. split; [exact HE|]. split.
    + rewrite HL, filter_cons_True by exact Hkey.
      cbn [map fst]. by rewrite <- app_assoc.
    + intros c. rewrite HC, list_to_map_cons.
      rewrite lookup_insert_ne; [reflexivity|].
      intros ->.
      pose proof (proj2 (payload_key_of_name (payload_key_name c) c) eq_refl).
      congruence.
Qed.

Hypothesis range_payload_Permutation :
  forall m, range_payload m ≡ₚ map_to_list m.

(** The effect of the body of the loop over the events. *)
Lemma populate_event_effect f log e :
  let st := populate_event range_payload (f, log) e in
  ByProtocol st.1
  = <[Protocol e := count_item (Protocol_String (Protocol e))
                               (ByProtocol f !! Protocol e)]> (ByProtocol f)
  /\ Submitters st.1
     = <[IP e := count_event e (Addr_String (IP e)) (Submitters f !! IP e)]>
         (Submitters f)
  /\ findings_Events st.1 = findings_Events f
  /\ st.2 = log ++ unknown_keys range_payload e
  /\ forall c,
       selected_map c st.1
       = match Payload e !! payload_key_name c with
         | Some v =>
             let m := default ∅ (selected_map c f !! Protocol e) in
             <[Protocol e := <[v := count_item v (m !! v)]> m]> (selected_map c f)
         | None => selected_map c f
         end.
Proof.
  cbv zeta. unfold populate_event.
  assert (Hnd : NoDup (range_payload (Payload e)).*1).
  { rewrite range_payload_Permutation. apply NoDup_fst_map_to_list. }
  assert (Hmap : (list_to_map (range_payload (Payload e)) : gmap string string)
                 = Payload e).
  { rewrite (list_to_map_proper _ _ Hnd (range_payload_Permutation _)).
    apply list_to_map_to_list. }
  match goal with
  | |- context [fold_left _ _ (?f2, log)] =>
      destruct (populate_pairs e _ f2 log Hnd) as (HB & HS & HE & HL & HC)
  end.
  cbv zeta in HC. rewrite Hmap in HC.
  split; [rewrite HB; by destruct f|]. split; [rewrite HS; by destruct f|].
  split; [rewrite HE; by destruct f|]. split; [exact HL|].
  intros c. rewrite HC. by destruct f, c.
Qed.

Lemma lookup_default_bind (ms : gmap Z (gmap string itemOccurrence)) p v :
  default ∅ (ms !! p) !! v = ms !! p ≫= (fun m => m !! v).
Proof. destruct (ms !! p); [reflexivity | apply lookup_empty]. Qed.

Lemma counted_nil_iff keep label evs : counted keep label evs = None <-> evs = [].
Proof. destruct evs; cbn; split; congruence. Qed.

Lemma populated_step evs f log e :
  populated range_payload evs (f, log) ->
  populated range_payload (evs ++ [e]) (populate_event range_payload (f, log) e).
Proof.
  intros (IB & IS & IC & IN & IL). cbn [fst snd] in *.
  destruct (populate_event_effect f log e) as (HB & HS & _ & HL & HC).
  cbv zeta in *. unfold populated.
  split; [|split; [|split; [|split]]].
  - intros p. rewrite HB, lookup_insert. unfold events_of_protocol.
    rewrite filter_snoc.
    destruct (decide (Protocol e = p)) as [<-|Hne].
    + rewrite IB. apply counted_snoc_false.
    + rewrite app_nil_r. apply IB.
  - intros ip. rewrite HS, lookup_insert. unfold events_of_submitter.
    rewrite filter_snoc.
    destruct (decide (IP e = ip)) as [<-|Hne].
    + rewrite IS. apply counted_snoc_true.
    + rewrite app_nil_r. apply IS.
  - intros c p v. rewrite HC. unfold events_with. rewrite filter_snoc.
    destruct (Payload e !! payload_key_name c) as [v0|] eqn:Hv0.
    + rewrite lookup_insert.
      destruct (decide (Protocol e = p)) as [<-|Hne].
      * cbn [mbind option_bind]. rewrite lookup_insert.
        destruct (decide (v0 = v)) as [<-|Hnv].
        -- rewrite decide_True by auto.
           rewrite lookup_default_bind, IC. apply counted_snoc_false.
        -- rewrite decide_False by (intros [_ [= ?]]; congruence).
           rewrite app_nil_r, lookup_default_bind. apply IC.
      * rewrite decide_False by (intros [? _]; congruence).
        rewrite app_nil_r. apply IC.
    + rewrite decide_False by (intros [_ ?]; congruence).
      rewrite app_nil_r. apply IC.
  - intros c p. rewrite HC. unfold events_with_key. rewrite filter_snoc.
    destruct (Payload e !! payload_key_name c) as [v0|] eqn:Hv0.
    + rewrite lookup_insert.
      destruct (decide (Protocol e = p)) as [<-|Hne].
      * rewrite decide_True by (split; [reflexivity | eauto]).
        split; [discriminate|]. intros Happ.
        by apply app_eq_nil in Happ as [_ ?].
      * rewrite decide_False by (intros [? _]; congruence).
        rewrite app_nil_r. apply IN.
    + rewrite decide_False by (intros [_ [? ?]]; congruence).
      rewrite app_nil_r. apply IN.
  - cbn [fst snd]. rewrite HL, IL, map_app, concat_app. cbn [map concat].
    by rewrite app_nil_r.
Qed.

Lemma populated_fold evs : forall evs0 f log,
  populated range_payload evs0 (f, log) ->
  populated range_payload (evs0 ++ evs)
            (fold_left (populate_event range_payload) evs (f, log)).
Proof.
  induction evs as [|e evs IH]; intros evs0 f log Hinv.
  - by rewrite app_nil_r.
  - cbn [fold_left].
    replace (evs0 ++ e :: evs) with ((evs0 ++ [e]) ++ evs)
      by (by rewrite <- app_assoc).
    destruct (populate_event range_payload (f, log) e) as [f' log'] eqn:Est.
    apply IH. rewrite <- Est. by apply populated_step.
Qed.

Lemma populate_populated f :
  populated range_payload (findings_Events f) (populate range_payload f).
Proof.
  unfold populate.
  apply (populated_fold (findings_Events f) []).
  unfold populated. cbn [fst snd].
  split; [done|]. split; [done|]. split; [by intros [] p v|].
  split; [by intros [] p|]. reflexivity.
Qed.

End PopulateProps.

(** X16. [populate] counts the events by protocol and by submitter: after the
    call [ByProtocol] has an entry exactly for the protocols of the
    events, labelled with the name of the protocol and counting its
    events (without keeping them), and [Submitters] has an entry exactly
    for the addresses of the events, labelled with the address, counting
    its events and holding them in the order they were collected. *)
Theorem populate_by_protocol_and_submitter
    (range_payload : gmap string string -> list (string * string))
    (f : findings) :
  (forall m, range_payload m ≡ₚ map_to_list m) ->
  (forall p,
     ByProtocol (populate range_payload f).1 !! p
     = counted false (Protocol_String p)
               (events_of_protocol p (findings_Events f)))
  /\ (forall ip,
        Submitters (populate range_payload f).1 !! ip
        = counted true (Addr_String ip)
                  (events_of_submitter ip (findings_Events f))).
Proof.
  intros Hr. destruct (populate_populated range_payload Hr f) as (HB & HS & _).
  split; assumption.
Qed.

Lemma populate_by_protocol_and_submitter_witness :
  ByProtocol (populate map_to_list three_events).1 !! SSH
  = Some (mkItemOccurrence [] "SSH" 3)
  /\ Submitters (populate map_to_list three_events).1 !! AddrFrom4 x2f x78 x66 x4c
     = Some (mkItemOccurrence [joseph_event; joseph_event; joseph_again]
                              "47.120.102.76" 3)
  /\ ByProtocol (populate map_to_list three_events).1 !! HTTP = None.
Proof.
  destruct (populate_by_protocol_and_submitter map_to_list three_events
              (fun m => reflexivity _)) as [HB HS].
  rewrite !HB, HS. repeat split.
Defined.

(** X17. [populate] counts the values of the four payload keys it knows, by
    protocol: the map of a key has an entry for a protocol exactly when
    some event of that protocol has the key, and the entry of a value
    there counts the events of the protocol whose payload has that value
    under the key.  Every other payload key is logged, once for each
    event that has it, and counted nowhere. *)
Theorem populate_payload_values
    (range_payload : gmap string string -> list (string * string))
    (f : findings) :
  (forall m, range_payload m ≡ₚ map_to_list m) ->
  (forall c p v,
     selected_map c (populate range_payload f).1 !! p ≫= (fun m => m !! v)
     = counted false v
         (events_with p (payload_key_name c) v (findings_Events f)))
  /\ (forall c p,
        selected_map c (populate range_payload f).1 !! p = None
        <-> events_with_key p (payload_key_name c) (findings_Events f) = [])
  /\ (populate range_payload f).2
     = concat (map (unknown_keys range_payload) (findings_Events f)).
Proof.
  intros Hr.
  destruct (populate_populated range_payload Hr f) as (_ & _ & HC & HN & HL).
  split; [exact HC|]. split; [exact HN | exact HL].
Qed.

Lemma populate_payload_values_witness :
  Passwords (populate map_to_list three_events).1 !! SSH
    ≫= (fun m => m !! "Stingercoconut"%string)
  = Some (mkItemOccurrence [] "Stingercoconut" 2)
  /\ (populate map_to_list three_events).2
     = [unknown_payload_key "66643236-3039-3063-2d35-3064632d3131" "colour"].
Proof.
  destruct (populate_payload_values map_to_list three_events
              (fun m => reflexivity _)) as (HC & _ & HL).
  split.
  - exact (eq_trans (HC key_password SSH "Stingercoconut"%string) eq_refl).
  - rewrite HL. reflexivity.
Defined.

(** ** The report *)

Section ReportProps.
Variable range_payload : gmap string string -> list (string * string).
Variable range : gmap string itemOccurrence -> list (string * itemOccurrence).
Variable range_submitters : gmap Addr itemOccurrence -> list (Addr * itemOccurrence).
Variable sort_Sort : list itemOccurrence -> list itemOccurrence.
Variable Srender : list (list string) -> string * option error.
Variable HeaderStyle_Sprint : string -> string.
Variable Format_date : Z -> string.
Hypothesis Srender_ok : forall d, (Srender d).2 = None.

(** [top] pads before it slices, so that for a count that is not negative
    it returns exactly [count] entries, whatever the sort does. *)
Lemma top_length m count :
  0 <= count ->
  exists items, top range sort_Sort m count = Ret items
                /\ length items = Z.to_nat count.
Proof.
  intros Hc. unfold top.
  set (sorted := sort_Sort _).
  set (padded := if Z.of_nat (length sorted) <? count then _ else _).
  assert (Hlen : count <= Z.of_nat (length padded)).
  { subst padded. destruct (Z.ltb_spec (Z.of_nat (length sorted)) count).
    - rewrite length_app, length_replicate. lia.
    - lia. }
  unfold slice.
  destruct (Z.leb_spec 0 0); [|lia].
  destruct (Z.leb_spec 0 count); [|lia].
  destruct (Z.leb_spec count (Z.of_nat (length padded))); [|lia].
  cbn [andb]. eexists. split; [reflexivity|].
  rewrite length_take, length_drop. cbn. lia.
Qed.

Lemma password_user_rows_total passwords usernames : forall i,
  (i + length passwords <= length usernames)%nat ->
  exists rows, password_user_rows i passwords usernames = Ret rows.
Proof.
  induction passwords as [|pw passwords IH]; intros i Hi; cbn [password_user_rows].
  - eauto.
  - cbn [length] in Hi.
    destruct (lookup_lt_is_Some_2 usernames i ltac:(lia)) as [u ->].
    destruct (IH (S i) ltac:(lia)) as [rows ->]. cbn [exec_bind]. eauto.
Qed.

Lemma submitter_rows_total submitters : forall n i,
  (i + n <= length submitters)%nat ->
  exists rows, submitter_rows n i submitters = Ret rows.
Proof.
  induction n as [|n IH]; intros i Hi; cbn [submitter_rows].
  - eauto.
  - destruct (lookup_lt_is_Some_2 submitters i ltac:(lia)) as [s ->].
    destruct (IH (S i) ltac:(lia)) as [rows ->]. cbn [exec_bind]. eauto.
Qed.

Lemma Srender_pair d : Srender d = ((Srender d).1, None).
Proof. rewrite <- (Srender_ok d). by destruct (Srender d). Qed.

Section Populated.
Variable evs : list Event.
Variable f : findings.
Variable log : list populate_warning.
Hypothesis Hpop : populated range_payload evs (f, log).

Lemma populated_ByProtocol p :
  match events_of_protocol p evs with
  | [] => ByProtocol f !! p = None
  | _ :: _ => exists item, ByProtocol f !! p = Some item
  end.
Proof.
  destruct Hpop as (HB & _). specialize (HB p). cbn [fst] in HB.
  rewrite HB. destruct (events_of_protocol p evs); cbn; eauto.
Qed.

Lemma populated_selected c p :
  match events_with_key p (payload_key_name c) evs with
  | [] => selected_map c f !! p = None
  | _ :: _ => exists m, selected_map c f !! p = Some m
  end.
Proof.
  destruct Hpop as (_ & _ & _ & HN & _). specialize (HN c p). cbn [fst] in HN.
  destruct (events_with_key p (payload_key_name c) evs).
  - by apply HN.
  - destruct (selected_map c f !! p); [eauto|].
    discriminate (proj1 HN eq_refl).
Qed.

Lemma topPasswordsUsers_outcome proto count :
  0 <= count ->
  exists s,
    topPasswordsUsers range sort_Sort Srender HeaderStyle_Sprint f proto count
    = Ret (s, needs (events_of_protocol proto evs) proto "events"
               (needs (events_with_key proto "password" evs) proto "passwords"
               (needs (events_with_key proto "username" evs) proto "users"
                None)))
    /\ (events_of_protocol proto evs = []
        \/ events_with_key proto "password" evs = []
        \/ events_with_key proto "username" evs = [] -> s = EmptyString).
Proof.
  intros Hc. unfold topPasswordsUsers.
  pose proof (populated_ByProtocol proto) as HB.
  pose proof (populated_selected key_password proto) as HP.
  pose proof (populated_selected key_username proto) as HU.
  cbn [payload_key_name selected_map] in HP, HU.
  destruct (events_of_protocol proto evs) as [|e1 l1].
  { rewrite HB. eexists. split; [reflexivity|]. reflexivity. }
  destruct HB as [item ->].
  destruct (events_with_key proto "password" evs) as [|e2 l2].
  { rewrite HP. eexists. split; [reflexivity|]. reflexivity. }
  destruct HP as [mp ->].
  destruct (top_length mp count Hc) as (passwords & -> & Hlp). cbn [exec_bind].
  destruct (events_with_key proto "username" evs) as [|e3 l3].
  { rewrite HU. eexists. split; [reflexivity|]. reflexivity. }
  destruct HU as [mu ->].
  destruct (top_length mu count Hc) as (usernames & -> & Hlu). cbn [exec_bind].
  destruct (password_user_rows_total passwords usernames 0 ltac:(lia))
    as [rows ->].
  cbn [exec_bind needs]. rewrite Srender_pair. eexists. split; [reflexivity|].
  intros [?|[?|?]]; discriminate.
Qed.

Lemma topUserAgents_outcome proto count :
  0 <= count ->
  exists s,
    topUserAgents range sort_Sort Srender HeaderStyle_Sprint f proto count
    = Ret (s, needs (events_of_protocol proto evs) proto "events"
               (needs (events_with_key proto "user-agent" evs) proto "user-agents"
                None))
    /\ (events_of_protocol proto evs = []
        \/ events_with_key proto "user-agent" evs = [] -> s = EmptyString).
Proof.
  intros Hc. unfold topUserAgents.
  pose proof (populated_ByProtocol proto) as HB.
  pose proof (populated_selected key_user_agent proto) as HP.
  cbn [payload_key_name selected_map] in HP.
  destruct (events_of_protocol proto evs) as [|e1 l1].
  { rewrite HB. eexists. split; [reflexivity|]. reflexivity. }
  destruct HB as [item ->].
  destruct (events_with_key proto "user-agent" evs) as [|e2 l2].
  { rewrite HP. eexists. split; [reflexivity|]. reflexivity. }
  destruct HP as [mp ->].
  destruct (top_length mp count Hc) as (items & -> & Hlp). cbn [exec_bind].
  cbn [needs]. rewrite Srender_pair. eexists. split; [reflexivity|].
  intros [?|?]; discriminate.
Qed.

Lemma topEmails_outcome proto count :
  0 <= count ->
  exists s,
    topEmails range sort_Sort Srender HeaderStyle_Sprint f proto count
    = Ret (s, needs (events_of_protocol proto evs) proto "events"
               (needs (events_with_key proto "email" evs) proto "emails"
                None))
    /\ (events_of_protocol proto evs = []
        \/ events_with_key proto "email" evs = [] -> s = EmptyString).
Proof.
  intros Hc. unfold topEmails.
  pose proof (populated_ByProtocol proto) as HB.
  pose proof (populated_selected key_email proto) as HP.
  cbn [payload_key_name selected_map] in HP.
  destruct (events_of_protocol proto evs) as [|e1 l1].
  { rewrite HB. eexists. split; [reflexivity|]. reflexivity. }
  destruct HB as [item ->].
  destruct (events_with_key proto "email" evs) as [|e2 l2].
  { rewrite HP. eexists. split; [reflexivity|]. reflexivity. }
  destruct HP as [mp ->].
  destruct (top_length mp count Hc) as (items & -> & Hlp). cbn [exec_bind].
  cbn [needs]. rewrite Srender_pair. eexists. split; [reflexivity|].
  intros [?|?]; discriminate.
Qed.

End Populated.

Lemma topSubmitters_total f count :
  0 <= count ->
  exists s,
    topSubmitters range_submitters sort_Sort Srender HeaderStyle_Sprint f count
    = Ret (s, None).
Proof.
  intros Hc. unfold topSubmitters.
  destruct (fold_left _ _ _) as [submitters totalEvents].
  set (sorted := sort_Sort submitters).
  set (padded := if Z.of_nat (length sorted) <? count then _ else _).
  assert (Hlen : count <= Z.of_nat (length padded)).
  { subst padded. destruct (Z.ltb_spec (Z.of_nat (length sorted)) count).
    - rewrite length_app, length_replicate. lia.
    - lia. }
  destruct (submitter_rows_total padded (Z.to_nat count) 0 ltac:(lia))
    as [rows ->].
  cbn [exec_bind]. rewrite Srender_pair. eauto.
Qed.

End ReportProps.

(** X18. [report] never panics, and it fails exactly when the events lack
    something one of its tables needs: an SSH event, an SSH password, an
    SSH username, the same three for TELNET, an HTTP event, an HTTP
    user-agent, an SMTP event or an SMTP email.  The error names the
    first of these that is missing, and no text is returned with it.
    (The table renderer is taken not to fail.) *)
Theorem report_outcome
    (range_payload : gmap string string -> list (string * string))
    (range : gmap string itemOccurrence -> list (string * itemOccurrence))
    (range_submitters : gmap Addr itemOccurrence -> list (Addr * itemOccurrence))
    (sort_Sort : list itemOccurrence -> list itemOccurrence)
    (Srender : list (list string) -> string * option error)
    (HeaderStyle_Sprint : string -> string) (Format_date : Z -> string)
    (f : findings) (ipDetail : Addr) :
  (forall m, range_payload m ≡ₚ map_to_list m) ->
  (forall d, (Srender d).2 = None) ->
  exists s,
    report range_payload range range_submitters sort_Sort Srender
           HeaderStyle_Sprint Format_date f ipDetail
    = Ret (s, report_error (findings_Events f),
           concat (map (unknown_keys range_payload) (findings_Events f)))
    /\ (report_error (findings_Events f) <> None -> s = EmptyString).
Proof.
  intros Hr Hok. unfold report.
  pose proof (populate_populated range_payload Hr f) as Hpop.
  destruct (populate range_payload f) as [f' log].
  assert (Hlog : log = concat (map (unknown_keys range_payload) (findings_Events f)))
    by (by destruct Hpop as (_ & _ & _ & _ & ?)).
  rewrite <- Hlog. clear Hlog.
  set (evs := findings_Events f) in *.
  unfold report_error.
  destruct (topPasswordsUsers_outcome range_payload range sort_Sort Srender
              HeaderStyle_Sprint Hok evs f' log Hpop SSH 5 ltac:(lia))
    as (s1 & -> & _).
  cbn [exec_bind].
  destruct (events_of_protocol SSH evs); cbn [needs]; [by eexists|].
  destruct (events_with_key SSH "password" evs); cbn [needs]; [by eexists|].
  destruct (events_with_key SSH "username" evs); cbn [needs]; [by eexists|].
  destruct (topPasswordsUsers_outcome range_payload range sort_Sort Srender
              HeaderStyle_Sprint Hok evs f' log Hpop TELNET 5 ltac:(lia))
    as (s2 & -> & _).
  cbn [exec_bind].
  destruct (events_of_protocol TELNET evs); cbn [needs]; [by eexists|].
  destruct (events_with_key TELNET "password" evs); cbn [needs]; [by eexists|].
  destruct (events_with_key TELNET "username" evs); cbn [needs]; [by eexists|].
  destruct (topUserAgents_outcome range_payload range sort_Sort Srender
              HeaderStyle_Sprint Hok evs f' log Hpop HTTP 30 ltac:(lia))
    as (s3 & -> & _).
  cbn [exec_bind].
  destruct (events_of_protocol HTTP evs); cbn [needs]; [by eexists|].
  destruct (events_with_key HTTP "user-agent" evs); cbn [needs]; [by eexists|].
  destruct (topEmails_outcome range_payload range sort_Sort Srender
              HeaderStyle_Sprint Hok evs f' log Hpop SMTP 20 ltac:(lia))
    as (s4 & -> & _).
  cbn [exec_bind].
  destruct (events_of_protocol SMTP evs); cbn [needs]; [by eexists|].
  destruct (events_with_key SMTP "email" evs); cbn [needs]; [by eexists|].
  destruct (topSubmitters_total range_submitters sort_Sort Srender
              HeaderStyle_Sprint Hok f' 15 ltac:(lia)) as (s5 & ->).
  cbn [exec_bind].
  destruct (Addr_IsValid ipDetail).
  - unfold submitter. rewrite (Srender_pair Srender Hok).
    eexists. split; [reflexivity | congruence].
  - eexists. split; [reflexivity | congruence].
Qed.

Lemma report_outcome_witness :
  exists s,
    report map_to_list map_to_list map_to_list merge_sort_Less
           (fun d => (String.concat LF (map (String.concat "|") d), None))
           id itoa three_events Addr_zero
    = Ret (s, Some (errors_New "no TELNET events"),
           [unknown_payload_key "66643236-3039-3063-2d35-3064632d3131" "colour"]).
Proof.
  destruct (report_outcome map_to_list map_to_list map_to_list merge_sort_Less
              (fun d => (String.concat LF (map (String.concat "|") d), None))
              id itoa three_events Addr_zero
              (fun m => reflexivity _) (fun d => eq_refl)) as (s & Hs & _).
  exists s. exact Hs.
Defined.

(** ** The tables of the submitters *)

Lemma int_wrap_eq_iff a b : int_wrap a = int_wrap b <-> a mod 2 ^ 64 = b mod 2 ^ 64.
Proof.
  unfold int_wrap. split; intros Heq.
  - assert (H : (a + 2 ^ 63) mod 2 ^ 64 = (b + 2 ^ 63) mod 2 ^ 64) by lia.
    apply (f_equal (fun x => (x - 2 ^ 63) mod 2 ^ 64)) in H.
    rewrite !Zminus_mod_idemp_l in H.
    by replace (a + 2 ^ 63 - 2 ^ 63) with a in H by lia;
       replace (b + 2 ^ 63 - 2 ^ 63) with b in H by lia.
  - f_equal. rewrite <- (Z.add_mod_idemp_l a), <- (Z.add_mod_idemp_l b) by lia.
    by rewrite Heq.
Qed.

Lemma int_wrap_idemp a : int_wrap (int_wrap a) = int_wrap a.
Proof.
  pose proof (int_wrap_succ (a - 1)) as H.
  replace (a - 1 + 1) with a in H by lia.
  apply int_wrap_eq_iff.
  unfold int_wrap at 1.
  rewrite Zminus_mod_idemp_l.
  by replace (a + 2 ^ 63 - 2 ^ 63) with a by lia.
Qed.

Lemma int_wrap_add_l a b : int_wrap (int_wrap a + b) = int_wrap (a + b).
Proof.
  apply int_wrap_eq_iff. rewrite <- Z.add_mod_idemp_l by lia.
  pose proof (proj1 (int_wrap_eq_iff (int_wrap a) a) (int_wrap_idemp a)) as ->.
  by rewrite Z.add_mod_idemp_l by lia.
Qed.

Lemma int_wrap_add_r a b : int_wrap (a + int_wrap b) = int_wrap (a + b).
Proof. rewrite (Z.add_comm a), int_wrap_add_l. f_equal. lia. Qed.

(** The sum of the counts of a list of entries. *)
Lemma fold_submitters (l : list (Addr * itemOccurrence)) : forall acc t,
  let st :=
    fold_left
      (fun st kv =>
         (st.1 ++ [mkItemOccurrence [] (Addr_String kv.1) (Occurrence kv.2)],
          int_wrap (st.2 + Occurrence kv.2)))
      l (acc, t) in
  length st.1 = (length acc + length l)%nat
  /\ int_wrap st.2 = int_wrap (t + foldr (fun kv s => Occurrence kv.2 + s) 0 l)
  /\ (t = int_wrap t -> st.2 = int_wrap st.2).
Proof.
  induction l as [|kv l IH]; intros acc t; cbn [fold_left foldr length].
  - cbn [fst snd]. split; [lia|]. split; [f_equal; lia|]. auto.
  - cbn [fst snd].
    destruct (IH (acc ++ [mkItemOccurrence [] (Addr_String kv.1) (Occurrence kv.2)])
                 (int_wrap (t + Occurrence kv.2))) as (Hl & Hs & Hi).
    cbv zeta in *. split; [rewrite Hl, length_app; cbn; lia|].
    split.
    + rewrite Hs, int_wrap_add_l. f_equal. lia.
    + intros _. apply Hi. by rewrite int_wrap_idemp.
Qed.

Lemma sum_Permutation (l1 l2 : list (Addr * itemOccurrence)) :
  l1 ≡ₚ l2 ->
  foldr (fun kv s => Occurrence kv.2 + s) 0 l1
  = foldr (fun kv s => Occurrence kv.2 + s) 0 l2.
Proof.
  induction 1 as [|x l l' _ IH|x y l|l l' l'' _ IH1 _ IH2]; cbn [foldr];
    [reflexivity | by rewrite IH | lia | congruence].
Qed.

(** The counts of a map that holds, for every address, the entry of its
    events add up to the number of events. *)
Lemma submitters_total evs : forall S : gmap Addr itemOccurrence,
  (forall ip, S !! ip = counted true (Addr_String ip) (events_of_submitter ip evs)) ->
  int_wrap (foldr (fun kv s => Occurrence kv.2 + s) 0 (map_to_list S))
  = int_wrap (Z.of_nat (length evs)).
Proof.
  induction evs as [|e evs IH] using rev_ind; intros S HS.
  - assert (S = ∅) as -> by (apply map_eq; intros ip; by rewrite HS, lookup_empty).
    by rewrite map_to_list_empty.
  - set (ip0 := IP e).
    set (old := events_of_submitter ip0 evs).
    set (S' := match counted true (Addr_String ip0) old with
               | Some it => <[ip0 := it]> S
               | None => delete ip0 S
               end).
    assert (HS' : forall ip, S' !! ip
                  = counted true (Addr_String ip) (events_of_submitter ip evs)).
    { intros ip. subst S'. destruct (decide (ip = ip0)) as [->|Hne].
      - fold old. destruct (counted true (Addr_String ip0) old) eqn:Ec.
        + by rewrite lookup_insert_eq.
        + by rewrite lookup_delete_eq.
      - specialize (HS ip). unfold events_of_submitter in HS.
        rewrite filter_snoc, decide_False, app_nil_r in HS by (subst ip0; congruence).
        destruct (counted true (Addr_String ip0) old).
        + by rewrite lookup_insert_ne.
        + by rewrite lookup_delete_ne. }
    specialize (IH S' HS').
    pose proof (HS ip0) as H0. unfold events_of_submitter in H0.
    rewrite filter_snoc, decide_True in H0 by reflexivity. fold (events_of_submitter ip0 evs) in H0.
    fold old in H0.
    assert (Hnew : exists new, S !! ip0 = Some new
                   /\ Occurrence new = int_wrap (Z.of_nat (length old) + 1)).
    { rewrite H0. unfold counted. destruct (old ++ [e]) eqn:E.
      - by apply app_eq_nil in E as [_ ?].
      - eexists. split; [reflexivity|]. cbn [Occurrence]. rewrite <- E.
        rewrite length_app. cbn [length]. f_equal. lia. }
    destruct Hnew as (new & Hnew & Hocc).
    pose proof (map_to_list_delete S ip0 new Hnew) as HpS.
    rewrite <- (sum_Permutation _ _ HpS). cbn [foldr snd].
    rewrite Hocc, Z.add_comm, int_wrap_add_r.
    rewrite length_app. cbn [length].
    assert (Hdel : int_wrap (foldr (fun kv s => Occurrence kv.2 + s) 0
                               (map_to_list (delete ip0 S))
                             + Z.of_nat (length old))
                   = int_wrap (Z.of_nat (length evs))).
    { rewrite <- IH. subst S'. unfold counted. destruct old as [|o old'] eqn:Eold.
      - cbn [length]. f_equal. lia.
      - match goal with
        | |- context [<[ip0 := ?it]> S] =>
            pose proof (map_to_list_delete (<[ip0 := it]> S) ip0 it
                          (lookup_insert_eq _ _ _)) as HpS'
        end.
        rewrite <- (sum_Permutation _ _ HpS'). cbn [foldr snd Occurrence].
        rewrite delete_insert_eq.
        rewrite (Z.add_comm (int_wrap _)), int_wrap_add_r. reflexivity. }
    apply int_wrap_eq_iff in Hdel. apply int_wrap_eq_iff.
    rewrite Z.add_assoc, <- Z.add_mod_idemp_l, Hdel, Z.add_mod_idemp_l by lia.
    f_equal. lia.
Qed.

Lemma submitter_rows_length submitters : forall n i rows,
  submitter_rows n i submitters = Ret rows -> length rows = n.
Proof.
  induction n as [|n IH]; intros i rows; cbn [submitter_rows].
  - by intros [= <-].
  - destruct (submitters !! i); [|discriminate].
    destruct (submitter_rows n (S i) submitters) as [rows'| |] eqn:E;
      cbn [exec_bind]; [|discriminate..].
    intros [= <-]. cbn [length]. f_equal. by eapply IH.
Qed.

(** X19. The table of [topSubmitters], after [populate]: for a count that is
    not negative it has exactly [count] rows between the header and the
    last row, and the last row shows the number of events collected. *)
Theorem topSubmitters_table
    (range_payload : gmap string string -> list (string * string))
    (range_submitters : gmap Addr itemOccurrence -> list (Addr * itemOccurrence))
    (sort_Sort : list itemOccurrence -> list itemOccurrence)
    (Srender : list (list string) -> string * option error)
    (HeaderStyle_Sprint : string -> string)
    (f : findings) (count : Z) :
  (forall m, range_payload m ≡ₚ map_to_list m) ->
  (forall m, range_submitters m ≡ₚ map_to_list m) ->
  0 <= count ->
  exists rows,
    topSubmitters range_submitters sort_Sort Srender HeaderStyle_Sprint
                  (populate range_payload f).1 count
    = Ret (Srender
             ([["#"; "IP Address"; "Count"]] ++ rows
              ++ [[ EmptyString; HeaderStyle_Sprint "TOTAL EVENTS";
                    HeaderStyle_Sprint
                      (itoa (int_wrap (Z.of_nat (length (findings_Events f))))) ]]))
    /\ length rows = Z.to_nat count.
Proof.
  intros Hr Hrs Hc.
  destruct (populate_populated range_payload Hr f) as (_ & HS & _).
  cbn [fst] in HS. unfold topSubmitters.
  pose proof (fold_submitters (range_submitters (Submitters (populate range_payload f).1))
                [] 0) as (Hlen & Hsum & Hid).
  cbv zeta in Hlen, Hsum, Hid.
  destruct (fold_left _ _ _) as [submitters totalEvents].
  cbn [fst snd] in Hlen, Hsum, Hid.
  assert (Htotal : totalEvents
                   = int_wrap (Z.of_nat (length (findings_Events f)))).
  { rewrite (Hid eq_refl), Hsum, Z.add_0_l.
    rewrite (sum_Permutation _ _ (Hrs _)). by apply submitters_total. }
  set (sorted := sort_Sort submitters).
  set (padded := if Z.of_nat (length sorted) <? count then _ else _).
  assert (Hpad : count <= Z.of_nat (length padded)).
  { subst padded. destruct (Z.ltb_spec (Z.of_nat (length sorted)) count).
    - rewrite length_app, length_replicate. lia.
    - lia. }
  destruct (submitter_rows_total padded (Z.to_nat count) 0 ltac:(lia))
    as [rows Hrows].
  rewrite Hrows. cbn [exec_bind]. exists rows.
  split; [by rewrite Htotal, <- app_assoc|].
  by apply submitter_rows_length in Hrows.
Qed.

Lemma topSubmitters_table_witness :
  exists rows,
    topSubmitters map_to_list merge_sort_Less (fun d => (EmptyString, None)) id
                  (populate map_to_list three_events).1 2
    = Ret ((fun d : list (list string) => (EmptyString, @None error))
             ([["#"; "IP Address"; "Count"]] ++ rows
              ++ [[ EmptyString; "TOTAL EVENTS"; "3" ]]))
    /\ length rows = 2%nat.
Proof.
  exact (topSubmitters_table map_to_list map_to_list merge_sort_Less
           (fun d => (EmptyString, None)) id three_events 2
           (fun m => reflexivity _) (fun m => reflexivity _) ltac:(lia)).
Defined.

(** X20. The table of [submitter], after [populate]: it lists the events
    collected from the address, in the order they were collected and
    numbered from 1, or the single row NO EVENTS FOUND when there is
    none. *)
Theorem submitter_table
    (range_payload : gmap string string -> list (string * string))
    (Srender : list (list string) -> string * option error)
    (Format_date : Z -> string)
    (f : findings) (ipDetail : Addr) :
  (forall m, range_payload m ≡ₚ map_to_list m) ->
  submitter Srender Format_date (populate range_payload f).1 ipDetail
  = Srender
      ([["#"; "Event UUID"; "Protocol"; "Timestamp"]]
       ++ match events_of_submitter ipDetail (findings_Events f) with
          | [] => [[EmptyString; "NO"; "EVENTS"; "FOUND"]]
          | evs =>
              imap (fun i e =>
                      [ itoa (Z.of_nat i + 1); UUID_String (EventUUID e);
                        Protocol_String (Protocol e); Format_date (TimeStamp e) ])
                   evs
          end).
Proof.
  intros Hr.
  destruct (populate_populated range_payload Hr f) as (_ & HS & _).
  cbn [fst] in HS. unfold submitter. rewrite HS.
  by destruct (events_of_submitter ipDetail (findings_Events f)).
Qed.

Lemma submitter_table_witness :
  submitter (fun d => (String.concat LF (map (String.concat " ") d), None)) itoa
            (populate map_to_list three_events).1 (AddrFrom4 x01 x02 x03 x04)
  = (("# Event UUID Protocol Timestamp" ++ LF ++ " NO EVENTS FOUND")%string, None).
Proof.
  rewrite (submitter_table map_to_list
             (fun d => (String.concat LF (map (String.concat " ") d), None)) itoa
             three_events (AddrFrom4 x01 x02 x03 x04) (fun m => reflexivity _)).
  reflexivity.
Defined.

(** ** The tables of the ranked values *)

Section TableProps.
Variable range_payload : gmap string string -> list (string * string).
Variable range : gmap string itemOccurrence -> list (string * itemOccurrence).
Variable sort_Sort : list itemOccurrence -> list itemOccurrence.
Variable Srender : list (list string) -> string * option error.
Variable HeaderStyle_Sprint : string -> string.
Hypothesis range_payload_Permutation : forall m, range_payload m ≡ₚ map_to_list m.
Hypothesis range_Permutation : forall m, range m ≡ₚ map_to_list m.
Hypothesis sort_Permutation : forall l, sort_Sort l ≡ₚ l.
Hypothesis sort_sorted : forall l, sorted_by_Less (sort_Sort l).




End TableProps.






